(** * Pathfinder (single path) and PSIS weights: a shallow embedding

    Sources embedded here:
    - [stan/services/pathfinder/single.hpp] (namespace
      [stan::services::pathfinder], and the earlier revision kept in the
      same file under namespace [stan::services::optimize]);
    - [stan/services/psis.hpp] (namespace [stan::services::psis]).

    The C++ scalar type is [double].  Every function is written once, over
    an abstract scalar type [D] carrying the operations the source uses,
    and is then read at two instances:
    - [float], Rocq's primitive IEEE-754 binary64 numbers, on which the
      definitions compute ([vm_compute]) as the machine does, infinities
      and NaN included;
    - [R], the real numbers, for the laws that hold in exact arithmetic.

    Eigen vectors are lists, Eigen matrices are records of their two
    dimensions and their columns, [Eigen::Index] is [Z] where the source
    lets it go below zero and [nat] for sizes.  Eigen checks sizes and
    indices with assertions only; here a coefficient-wise operation on
    vectors of different sizes stops at the shorter one, a read outside a
    vector gives zero and a write outside a vector is lost.  Sums are
    taken from the first coefficient to the last.  Logger and writer
    callbacks only emit text and are left out. *)

From Stdlib Require Import String.
From Stdlib Require Import ZArith List Bool Lia Reals Lra Psatz.
From Stdlib Require Import Permutation FinFun.
From Stdlib Require Import PrimFloat FloatOps SpecFloat Uint63.
Import ListNotations.

Set Implicit Arguments.

(** ** Scalars *)

(** Built-in arithmetic of [double], with the two named constants the
    sources use: [std::numeric_limits<double>::min()] and
    [stan::math::LOG_TWO_PI]. *)
Class Arith (D : Type) : Type := {
  of_Z : Z -> D;            (* integer literal, or conversion from an integer *)
  to_Z : D -> Z;            (* conversion to an integer: truncation *)
  add : D -> D -> D;
  sub : D -> D -> D;
  mul : D -> D -> D;
  div : D -> D -> D;
  opp : D -> D;
  abs : D -> D;             (* std::abs *)
  sqrt : D -> D;            (* std::sqrt *)
  ltb : D -> D -> bool;     (* a < b *)
  leb : D -> D -> bool;     (* a <= b *)
  dbl_min : D;
  LOG_TWO_PI : D
}.

(** [std::numeric_limits<double>::infinity()]. *)
Class HasInf (D : Type) : Type := {
  infinity : D
}.

(** Functions of [<cmath>] and of Stan Math that have no primitive
    counterpart on [float]. *)
Class MathLib (D : Type) : Type := {
  exp : D -> D;
  log : D -> D;
  log1p : D -> D;
  expm1 : D -> D;
  floor : D -> D;
  isinf : D -> bool;
  log_sum_exp : list D -> D
}.

Declare Scope D_scope.
Delimit Scope D_scope with D.
Infix "+" := add : D_scope.
Infix "-" := sub : D_scope.
Infix "*" := mul : D_scope.
Infix "/" := div : D_scope.
Notation "- x" := (opp x) : D_scope.
Infix "<?" := ltb : D_scope.
Infix "<=?" := leb : D_scope.

(** *** IEEE binary64 *)

Definition float_of_Z (z : Z) : float :=
  match z with
  | Z0 => PrimFloat.zero
  | Zpos _ => PrimFloat.of_uint63 (Uint63.of_Z z)
  | Zneg p => PrimFloat.opp (PrimFloat.of_uint63 (Uint63.of_Z (Zpos p)))
  end.

Definition float_to_Z (f : float) : Z :=
  match Prim2SF f with
  | S754_finite s m e =>
      let a := if (0 <=? e)%Z then (Zpos m * 2 ^ e)%Z
               else (Zpos m / 2 ^ (- e))%Z in
      if s then (- a)%Z else a
  | _ => 0%Z
  end.

#[export] Instance float_Arith : Arith float := {|
  of_Z := float_of_Z;
  to_Z := float_to_Z;
  add := PrimFloat.add;
  sub := PrimFloat.sub;
  mul := PrimFloat.mul;
  div := PrimFloat.div;
  opp := PrimFloat.opp;
  abs := PrimFloat.abs;
  sqrt := PrimFloat.sqrt;
  ltb := PrimFloat.ltb;
  leb := PrimFloat.leb;
  dbl_min := 0x1p-1022%float;
  LOG_TWO_PI := 0x1.d67f1c864beb4p+0%float
|}.

#[export] Instance float_HasInf : HasInf float := {|
  infinity := PrimFloat.infinity
|}.

(** *** Exact real arithmetic *)

Definition Rltb (a b : R) : bool := if Rlt_dec a b then true else false.
Definition Rleb (a b : R) : bool := if Rle_dec a b then true else false.

Definition R_to_Z (r : R) : Z :=
  if Rle_dec 0 r then Int_part r else (- Int_part (- r))%Z.

(** Stan Math's [log_sum_exp] on a non-empty vector:
    [max + log(sum(exp(v - max)))]. *)
Definition R_log_sum_exp (v : list R) : R :=
  match v with
  | [] => 0%R
  | x :: t =>
      let m := fold_left Rmax t x in
      (m + ln (fold_right Rplus 0 (map (fun a => Rtrigo_def.exp (a - m)) v)))%R
  end.

#[export] Instance R_Arith : Arith R := {|
  of_Z := IZR;
  to_Z := R_to_Z;
  add := Rplus;
  sub := Rminus;
  mul := Rmult;
  div := Rdiv;
  opp := Ropp;
  abs := Rabs;
  sqrt := R_sqrt.sqrt;
  ltb := Rltb;
  leb := Rleb;
  dbl_min := (/ IZR (2 ^ 1022))%R;
  LOG_TWO_PI := ln (2 * PI)
|}.

#[export] Instance R_MathLib : MathLib R := {|
  exp := Rtrigo_def.exp;
  log := ln;
  log1p := fun x => ln (1 + x);
  expm1 := fun x => (Rtrigo_def.exp x - 1)%R;
  floor := fun x => IZR (Int_part x);
  isinf := fun _ => false;
  log_sum_exp := R_log_sum_exp
|}.

(** ** Vectors and coefficient-wise operations *)

Section Vectors.
Context {D : Type} {A : Arith D}.

Fixpoint map2 {X Y Z : Type} (f : X -> Y -> Z) (a : list X) (b : list Y)
  : list Z :=
  match a, b with
  | x :: a', y :: b' => f x y :: map2 f a' b'
  | _, _ => []
  end.

(** [l[i] = x]; nothing is written outside the list. *)
Fixpoint upd {X : Type} (l : list X) (i : nat) (x : X) : list X :=
  match l, i with
  | [], _ => []
  | _ :: t, O => x :: t
  | y :: t, S i' => y :: upd t i' x
  end.

(** Eigen's [sum()]: zero on an empty expression, otherwise the
    coefficients added up starting from the first one. *)
Definition sum (v : list D) : D :=
  match v with
  | [] => of_Z 0
  | x :: t => fold_left add t x
  end.

Definition square (x : D) : D := (x * x)%D.
Definition inverse (x : D) : D := (of_Z 1 / x)%D.
Definition dot (a b : list D) : D := sum (map2 mul a b).
Definition mean (v : list D) : D := (sum v / of_Z (Z.of_nat (length v)))%D.

Definition vadd (a b : list D) : list D := map2 add a b.
Definition vsub (a b : list D) : list D := map2 sub a b.
Definition vmul (a b : list D) : list D := map2 mul a b.
Definition vdiv (a b : list D) : list D := map2 div a b.

(** [maxCoeff()] and [minCoeff()]. *)
Definition maxCoeff (v : list D) : D :=
  match v with
  | [] => of_Z 0
  | x :: t => fold_left (fun m y => if (m <? y)%D then y else m) t x
  end.

Definition minCoeff (v : list D) : D :=
  match v with
  | [] => of_Z 0
  | x :: t => fold_left (fun m y => if (y <? m)%D then y else m) t x
  end.

(** The literals [0.5] and [1e12]. *)
Definition half : D := (of_Z 1 / of_Z 2)%D.
Definition lit_1e12 : D := of_Z (10 ^ 12).
End Vectors.

(** ** Matrices *)

Section Matrices.
Context {D : Type} {A : Arith D}.

(** A dense matrix: its dimensions and its columns (Eigen's default
    column-major storage). *)
Record Mat : Type := mkMat {
  rows : nat;
  cols : nat;
  columns : list (list D)
}.

Definition mat_init (r c : nat) (f : nat -> nat -> D) : Mat :=
  mkMat r c (map (fun j => map (fun i => f i j) (seq 0 r)) (seq 0 c)).

Definition coeff (M : Mat) (i j : nat) : D :=
  nth i (nth j (columns M) []) (of_Z 0).

Definition col (M : Mat) (j : nat) : list D := nth j (columns M) [].
Definition row (M : Mat) (i : nat) : list D :=
  map (fun c => nth i c (of_Z 0)) (columns M).

Definition empty_mat : Mat := mkMat 0 0 [].
Definition mat_of_cols (r : nat) (cs : list (list D)) : Mat :=
  mkMat r (length cs) cs.

Definition Identity (r c : nat) : Mat :=
  mat_init r c (fun i j => if Nat.eqb i j then of_Z 1 else of_Z 0).

Definition transpose (M : Mat) : Mat :=
  mat_init (cols M) (rows M) (fun i j => coeff M j i).

Definition mat_map2 (f : D -> D -> D) (M N : Mat) : Mat :=
  mat_init (rows M) (cols M) (fun i j => f (coeff M i j) (coeff N i j)).
Definition mat_add : Mat -> Mat -> Mat := mat_map2 add.
Definition mat_sub : Mat -> Mat -> Mat := mat_map2 sub.
Definition mat_opp (M : Mat) : Mat :=
  mat_init (rows M) (cols M) (fun i j => (- coeff M i j)%D).

(** [M * N]. *)
Definition mat_mul (M N : Mat) : Mat :=
  mat_init (rows M) (cols N)
    (fun i j => sum (map (fun k => (coeff M i k * coeff N k j)%D)
                         (seq 0 (cols M)))).

(** [M * v] for a column vector [v]. *)
Definition mat_vec (M : Mat) (v : list D) : list D :=
  map (fun i => sum (map (fun k => (coeff M i k * nth k v (of_Z 0))%D)
                         (seq 0 (cols M))))
      (seq 0 (rows M)).

(** [v.asDiagonal() * M] and [M * v.asDiagonal()]. *)
Definition diag_mul (v : list D) (M : Mat) : Mat :=
  mat_init (length v) (cols M)
    (fun i j => (nth i v (of_Z 0) * coeff M i j)%D).
Definition mul_diag (M : Mat) (v : list D) : Mat :=
  mat_init (rows M) (length v)
    (fun i j => (coeff M i j * nth j v (of_Z 0))%D).

(** [M += v.asDiagonal()]. *)
Definition add_diag (M : Mat) (v : list D) : Mat :=
  mat_init (rows M) (cols M)
    (fun i j => if Nat.eqb i j then (coeff M i j + nth i v (of_Z 0))%D
                else coeff M i j).

(** [M.colwise() + v]. *)
Definition colwise_add (M : Mat) (v : list D) : Mat :=
  mat_init (rows M) (cols M)
    (fun i j => (coeff M i j + nth i v (of_Z 0))%D).

Definition diagonal (M : Mat) : list D :=
  map (fun i => coeff M i i) (seq 0 (Nat.min (rows M) (cols M))).

Definition topLeftCorner (M : Mat) (r c : nat) : Mat :=
  mat_init r c (coeff M).

(** [M.triangularView<Eigen::StrictlyLower>().setZero()]. *)
Definition zero_strictly_lower (M : Mat) : Mat :=
  mat_init (rows M) (cols M)
    (fun i j => if Nat.ltb j i then of_Z 0 else coeff M i j).

(** [Z.triangularView<Eigen::Upper>() = M] on a zero matrix [Z]. *)
Definition upper_part (M : Mat) : Mat :=
  mat_init (rows M) (cols M)
    (fun i j => if Nat.leb i j then coeff M i j else of_Z 0).

(** [tcrossprod]: [x * x^T], the lower triangle computed by
    [rankUpdate] and mirrored when the self-adjoint view is assigned to
    a dense matrix. *)
Definition tcrossprod (x : Mat) : Mat :=
  mat_init (rows x) (rows x)
    (fun i j =>
       let i' := Nat.max i j in
       let j' := Nat.min i j in
       sum (map (fun k => (coeff x i' k * coeff x j' k)%D)
                (seq 0 (cols x)))).
End Matrices.

Arguments Mat D : clear implicits.

(** Eigen's decompositions and triangular solver, as used by the
    sources. *)
Class EigenLib (D : Type) : Type := {
  (* [M.llt().matrixL()] as a dense matrix *)
  llt_matrixL : Mat D -> Mat D;
  (* [HouseholderQR(M).matrixQR()] *)
  qr_matrixQR : Mat D -> Mat D;
  (* [HouseholderQR(M).householderQ()] as a dense square matrix *)
  qr_householderQ : Mat D -> Mat D;
  (* [U.triangularView<Eigen::Upper>().solve(B)] *)
  upper_solve : Mat D -> Mat D -> Mat D
}.

(** ** Exceptions *)

(** What the callbacks (model, interrupt) may throw: an object of a
    class derived from [std::exception], which a handler
    [catch (const std::exception&)] stops, or anything else (an [int],
    a string, ...), which such a handler lets through. *)
Inductive exn : Type :=
| std_exception (what : string)
| other_exception (what : string).

Inductive outcome (X : Type) : Type :=
| Ret (x : X)
| Throw (e : exn).
Arguments Ret {X} x.
Arguments Throw {X} e.

Definition bind {X Y : Type} (m : outcome X) (k : X -> outcome Y)
  : outcome Y :=
  match m with
  | Ret x => k x
  | Throw e => Throw e
  end.

Notation "x <- m ;; k" := (bind m (fun x => k))
  (at level 61, m at next level, right associativity).

(** A [for] loop over [l] whose body may throw: the first exception
    ends the loop. *)
Fixpoint for_each {St X : Type} (body : St -> X -> outcome St)
         (l : list X) (st : St) : outcome St :=
  match l with
  | [] => Ret st
  | x :: t =>
      match body st x with
      | Ret st' => for_each body t st'
      | Throw e => Throw e
      end
  end.

(** The exceptions a handler [catch (const std::exception&)] stops, and
    the callbacks that throw nothing else. *)
Definition is_std_exception (e : exn) : bool :=
  match e with
  | std_exception _ => true
  | other_exception _ => false
  end.

Definition throws_std_only {X Y : Type} (f : X -> outcome Y) : Prop :=
  forall x e, f x = Throw e -> is_std_exception e = true.

(** Modelled from the spec: [stan/services/error_codes.hpp] is not among
    the sources; the spec names the two codes the driver returns, [OK]
    and [SOFTWARE]. *)
Inductive error_codes : Type := OK | SOFTWARE.

(** ** single.hpp, namespace [stan::services::pathfinder] *)

Module Pathfinder.

Section Core.
Context {D : Type} {A : Arith D}.

(** *** Curvature filter and diagonal update (lines 247-282) *)

Definition check_curve (Yk Sk : list D) : bool :=
  let Dk := dot Yk Sk in
  let thetak := abs (sum (map square Yk) / Dk)%D in
  (of_Z 0 <? Dk)%D && (thetak <=? lit_1e12)%D.

Definition form_diag (alpha_init Yk Sk : list D) : list D :=
  let y_alpha_y := dot Yk (vmul alpha_init Yk) in
  let y_s := dot Yk Sk in
  let s_inv_alpha_s := dot Sk (vmul (map inverse alpha_init) Sk) in
  map (fun den => (y_s / den)%D)
      (vsub (vadd (map (fun a => (y_alpha_y / a)%D) alpha_init)
                  (map square Yk))
            (map (fun q => ((y_alpha_y / s_inv_alpha_s) * q)%D)
                 (map square (vdiv Sk alpha_init)))).

(** *** Results of the approximation and of ELBO estimation *)

Record taylor_approx_t : Type := {
  x_center : list D;
  logdetcholHk : D;
  L_approx : Mat D;
  Qk : Mat D;
  alpha : list D;
  use_full : bool
}.

Record elbo_est_t : Type := {
  elbo : D;
  fn_calls : nat;
  repeat_draws : Mat D;
  lp_mat : Mat D;
  lp_ratio : list D
}.

(** [taylor_approx_t{}]. *)
Definition taylor_approx_default : taylor_approx_t :=
  {| x_center := []; logdetcholHk := of_Z 0; L_approx := empty_mat;
     Qk := empty_mat; alpha := []; use_full := false |}.

(** *** Draws from the approximation (lines 321-340) *)

Definition approximate_samples (u : Mat D) (taylor_approx : taylor_approx_t)
  : Mat D :=
  if use_full taylor_approx then
    colwise_add (mat_mul (transpose (L_approx taylor_approx)) u)
                (x_center taylor_approx)
  else
    colwise_add
      (diag_mul (map sqrt (alpha taylor_approx))
         (mat_add
            (mat_mul
               (mat_mul (Qk taylor_approx)
                  (mat_sub (L_approx taylor_approx)
                     (Identity (rows (L_approx taylor_approx))
                               (cols (L_approx taylor_approx)))))
               (mat_mul (transpose (Qk taylor_approx)) u))
            u))
      (x_center taylor_approx).
End Core.

Arguments taylor_approx_t D : clear implicits.
Arguments elbo_est_t D : clear implicits.

(** *** ELBO estimation (lines 374-467) *)

Section Estimation.
Context {D : Type} {A : Arith D} {I : HasInf D}.

(** The random number generator: each call of [rand_unit_gaus]
    returns a variate and advances the generator. *)
Variable rng : Type.
Variable rand_unit_gaus : rng -> D * rng.

(** The log-density functor; it may throw. *)
Variable lp_fun : list D -> outcome D.

(** [elbo_est_t{}]. *)
Definition elbo_est_default : elbo_est_t D :=
  {| elbo := (- infinity)%D; fn_calls := 0; repeat_draws := empty_mat;
     lp_mat := empty_mat; lp_ratio := [] |}.

Fixpoint generate_column (n : nat) (g : rng) : list D * rng :=
  match n with
  | O => ([], g)
  | S n' =>
      let (x, g1) := rand_unit_gaus g in
      let (t, g2) := generate_column n' g1 in
      (x :: t, g2)
  end.

Fixpoint generate_columns (c r : nat) (g : rng) : list (list D) * rng :=
  match c with
  | O => ([], g)
  | S c' =>
      let (x, g1) := generate_column r g in
      let (t, g2) := generate_columns c' r g1 in
      (x :: t, g2)
  end.

(** [generate_matrix]: a [num_params] x [num_samples] matrix filled,
    column after column, by successive calls of the generator. *)
Definition generate_matrix (g : rng) (num_params num_samples : nat)
  : Mat D * rng :=
  let (cs, g') := generate_columns num_samples num_params g in
  (mkMat num_params num_samples cs, g').

Definition set_coeff (M : Mat D) (i j : nat) (x : D) : Mat D :=
  mkMat (rows M) (cols M)
        (upd (columns M) j (upd (col M j) i x)).

(** One turn of the loop over the draws: the [try] block and its
    handler [catch (const std::exception& e)]; what is thrown and is
    not a [std::exception] leaves the loop. *)
Definition lp_loop_body (approx_samples : Mat D) (st : Mat D * nat)
           (i : nat) : outcome (Mat D * nat) :=
  let (lp_mat, lp_fun_calls) := st in
  let approx_samples_col := col approx_samples i in
  let lp_fun_calls := S lp_fun_calls in
  match lp_fun approx_samples_col with
  | Ret v => Ret (set_coeff lp_mat i 1 v, lp_fun_calls)
  | Throw (std_exception _) =>
      Ret (set_coeff lp_mat i 1 (- infinity)%D, lp_fun_calls)
  | Throw e => Throw e
  end.

(** [est_approx_draws<ReturnElbo>]: the estimate, or the exception
    that leaves the function, and the generator as the call leaves it.
    The parameters the body does not read ([constrain_fun], [alpha],
    [iter_msg]) are left out; the second column of [lp_mat] is
    uninitialised until the loop writes it, and starts here as zeros. *)
Definition est_approx_draws (ReturnElbo : bool) (g : rng)
           (taylor_approx : taylor_approx_t D) (num_samples : nat)
  : outcome (elbo_est_t D) * rng :=
  let num_params := length (x_center taylor_approx) in
  let (unit_samps, g') := generate_matrix g num_params num_samples in
  let lp_col0 :=
    map (fun c =>
           ((- logdetcholHk taylor_approx)
            + (- half) * (sum (map square c)
                          + of_Z (Z.of_nat num_params) * LOG_TWO_PI))%D)
        (columns unit_samps) in
  let lp_mat0 :=
    mkMat num_samples 2 [lp_col0; repeat (of_Z 0) num_samples] in
  let approx_samples := approximate_samples unit_samps taylor_approx in
  match for_each (lp_loop_body approx_samples) (seq 0 num_samples)
                 (lp_mat0, 0) with
  | Throw e => (Throw e, g')
  | Ret (lp_mat, lp_fun_calls) =>
      let lp_ratio := vsub (col lp_mat 1) (col lp_mat 0) in
      if ReturnElbo then
        let ELBO := mean lp_ratio in
        (Ret {| elbo := ELBO; fn_calls := lp_fun_calls;
                repeat_draws := approx_samples; lp_mat := lp_mat;
                lp_ratio := lp_ratio |}, g')
      else
        (Ret {| elbo := (- infinity)%D; fn_calls := lp_fun_calls;
                repeat_draws := approx_samples; lp_mat := lp_mat;
                lp_ratio := lp_ratio |}, g')
  end.
End Estimation.

(** *** Taylor approximations (lines 493-640) *)

Section Taylor.
Context {D : Type} {A : Arith D} {M : MathLib D} {E : EigenLib D}.

Definition taylor_approximation_full (Ykt_mat : Mat D) (alpha Dk : list D)
           (ninvRST : Mat D) (point_est grad_est : list D)
  : taylor_approx_t D :=
  let y_tcrossprod_alpha :=
    tcrossprod (mul_diag (transpose Ykt_mat) (map sqrt alpha)) in
  let y_tcrossprod_alpha := add_diag y_tcrossprod_alpha Dk in
  let y_mul_alpha := mul_diag (transpose Ykt_mat) alpha in
  let Hk :=
    mat_add (mat_mul (transpose y_mul_alpha) ninvRST)
            (mat_mul (transpose ninvRST)
                     (mat_add y_mul_alpha
                              (mat_mul y_tcrossprod_alpha ninvRST))) in
  let Hk := add_diag Hk alpha in
  let L_hk := transpose (llt_matrixL Hk) in
  let logdetcholHk := sum (map (fun x => log (abs x)) (diagonal L_hk)) in
  let x_center := vsub point_est (mat_vec Hk grad_est) in
  {| x_center := x_center; logdetcholHk := logdetcholHk;
     L_approx := L_hk; Qk := mkMat 0 0 []; alpha := alpha;
     use_full := true |}.

Definition taylor_approximation_sparse (Ykt_mat : Mat D)
           (alpha Dk : list D) (ninvRST : Mat D)
           (point_est grad_est : list D) : taylor_approx_t D :=
  let history_size := cols Ykt_mat in
  let history_size_times_2 := history_size * 2 in
  let num_params := length alpha in
  let y_mul_sqrt_alpha := mul_diag (transpose Ykt_mat) (map sqrt alpha) in
  let Wkbart_bottom :=
    mul_diag ninvRST (map (fun a => sqrt (inverse a)) alpha) in
  let Wkbart :=
    mat_init history_size_times_2 num_params
      (fun i j => if Nat.ltb i history_size
                  then coeff y_mul_sqrt_alpha i j
                  else coeff Wkbart_bottom (i - history_size) j) in
  let y_tcrossprod_alpha := tcrossprod y_mul_sqrt_alpha in
  let y_tcrossprod_alpha := add_diag y_tcrossprod_alpha Dk in
  let Mkbar :=
    mat_init history_size_times_2 history_size_times_2
      (fun i j =>
         match Nat.ltb i history_size, Nat.ltb j history_size with
         | true, true => of_Z 0
         | true, false =>
             coeff (Identity history_size history_size) i (j - history_size)
         | false, true =>
             coeff (Identity history_size history_size) (i - history_size) j
         | false, false =>
             coeff y_tcrossprod_alpha (i - history_size) (j - history_size)
         end) in
  let Wkbart := transpose Wkbart in
  let min_size := Nat.min num_params history_size_times_2 in
  let Rkbar :=
    topLeftCorner (qr_matrixQR Wkbart) min_size history_size_times_2 in
  let Rkbar := zero_strictly_lower Rkbar in
  let Qk := mat_mul (qr_householderQ Wkbart)
                    (Identity num_params min_size) in
  let L_approx :=
    transpose
      (llt_matrixL
         (mat_add (mat_mul (mat_mul Rkbar Mkbar) (transpose Rkbar))
                  (Identity min_size min_size))) in
  let logdetcholHk :=
    (sum (map (fun x => log (abs x)) (diagonal L_approx))
     + half * sum (map log alpha))%D in
  let ninvRSTg := mat_vec ninvRST grad_est in
  let alpha_mul_grad := vmul alpha grad_est in
  let x_center :=
    vsub point_est
      (vadd (vadd alpha_mul_grad (vmul alpha (mat_vec Ykt_mat ninvRSTg)))
            (mat_vec (transpose ninvRST)
               (vadd (mat_vec (transpose Ykt_mat) alpha_mul_grad)
                     (mat_vec y_tcrossprod_alpha ninvRSTg)))) in
  {| x_center := x_center; logdetcholHk := logdetcholHk;
     L_approx := L_approx; Qk := Qk; alpha := alpha;
     use_full := false |}.

Definition taylor_approximation (Ykt_mat : Mat D) (alpha Dk : list D)
           (ninvRST : Mat D) (point_est grad_est : list D)
  : taylor_approx_t D :=
  if Nat.leb (rows Ykt_mat) (2 * cols Ykt_mat) then
    taylor_approximation_full Ykt_mat alpha Dk ninvRST point_est grad_est
  else
    taylor_approximation_sparse Ykt_mat alpha Dk ninvRST point_est grad_est.
End Taylor.

(** *** One approximation and its ELBO (lines 700-745) *)

Section Impl.
Context {D : Type} {A : Arith D} {I : HasInf D} {M : MathLib D}
        {E : EigenLib D}.
Variable rng : Type.
Variable rand_unit_gaus : rng -> D * rng.
Variable lp_fun : list D -> outcome D.

(** [pathfinder_impl].  [Skt_mat] is overwritten in place with
    [-(Rk^-1 Skt^T)^T]; the caller refills it before its next use.
    The handler [catch (const std::exception& e)] around
    [est_approx_draws] answers the two default records; what is not a
    [std::exception] leaves the function. *)
Definition pathfinder_impl (g : rng) (alpha : list D)
           (current_params current_grads : list D)
           (Ykt_mat Skt_mat : Mat D) (num_elbo_draws : nat)
  : outcome (elbo_est_t D * taylor_approx_t D) * rng :=
  let Rk := upper_part (mat_mul (transpose Skt_mat) Ykt_mat) in
  let Dk := diagonal Rk in
  let Skt_mat := transpose (upper_solve Rk (transpose Skt_mat)) in
  let Skt_mat := mat_opp Skt_mat in
  let taylor_appx :=
    taylor_approximation Ykt_mat alpha Dk (transpose Skt_mat)
                         current_params current_grads in
  match est_approx_draws rand_unit_gaus lp_fun true g taylor_appx
                         num_elbo_draws with
  | (Ret est, g') => (Ret (est, taylor_appx), g')
  | (Throw (std_exception _), g') =>
      (Ret (elbo_est_default, taylor_approx_default), g')
  | (Throw e, g') => (Throw e, g')
  end.
End Impl.

(** *** The driver (lines 793-1108) *)

Section Driver.
Context {D : Type} {A : Arith D} {I : HasInf D} {M : MathLib D}
        {E : EigenLib D}.

(** The generator and the model. [constrain_fun] may use the generator
    and may throw; it returns the generator as it left it. *)
Variable rng : Type.
Variable rand_unit_gaus : rng -> D * rng.
Variable lp_fun : list D -> outcome D.
Variable constrain_fun : rng -> list D -> outcome (list D) * rng.

(** The L-BFGS optimizer [stan::optimization::BFGSLineSearch]:
    [step] returns the return code and the optimizer afterwards. *)
Variable optimizer : Type.
Variable lbfgs_step : optimizer -> Z * optimizer.
Variable curr_x : optimizer -> list D.
Variable curr_g : optimizer -> list D.
Variable iter_num : optimizer -> Z.
Variable grad_evals : optimizer -> nat.

(** The interrupt callback; it may throw. *)
Variable interrupt_t : Type.
Variable interrupt : interrupt_t -> outcome interrupt_t.

(** [boost::circular_buffer::push_back] on a buffer of capacity
    [capacity]: a full buffer drops its oldest element. *)
Definition cb_push_back {X : Type} (capacity : nat) (buff : list X)
           (x : X) : list X :=
  if Nat.eqb capacity 0 then buff
  else if Nat.ltb (length buff) capacity then buff ++ [x]
       else tl buff ++ [x].

(** The variables the loop reads and writes. *)
Record loop_state : Type := {
  lbfgs : optimizer;
  ret : Z;
  interrupt_st : interrupt_t;
  rng_st : rng;
  prev_params : list D;
  prev_grads : list D;
  param_buff : list (list D);
  grad_buff : list (list D);
  current_history_size : nat;
  alpha_st : list D;
  best_E : Z;
  elbo_best : elbo_est_t D;
  taylor_approx_best : taylor_approx_t D;
  num_evals : nat
}.

Variable history_size : nat.
Variable num_elbo_draws : nat.
Variable num_draws : nat.

(** Lines 921-931: the new pair enters both buffers, then the
    curvature check decides on the update of [alpha]. *)
Definition update_history (st : loop_state) (lb : optimizer) (r : Z)
           (ist : interrupt_t) : loop_state :=
  let param_buff := cb_push_back history_size (param_buff st)
                      (vsub (curr_x lb) (prev_params st)) in
  let grad_buff := cb_push_back history_size (grad_buff st)
                     (vsub (curr_g lb) (prev_grads st)) in
  let prev_params := curr_x lb in
  let prev_grads := curr_g lb in
  let current_history_size :=
    Nat.min (current_history_size st + 1) history_size in
  let alpha :=
    if check_curve (last param_buff []) (last grad_buff [])
    then form_diag (alpha_st st) (last grad_buff []) (last param_buff [])
    else alpha_st st in
  {| lbfgs := lb; ret := r; interrupt_st := ist; rng_st := rng_st st;
     prev_params := prev_params; prev_grads := prev_grads;
     param_buff := param_buff; grad_buff := grad_buff;
     current_history_size := current_history_size;
     alpha_st := alpha;
     best_E := best_E st; elbo_best := elbo_best st;
     taylor_approx_best := taylor_approx_best st;
     num_evals := num_evals st |}.

(** Lines 932-955: the history matrices, the approximation, its ELBO
    and the best iterate so far; an exception that leaves
    [pathfinder_impl] leaves the loop. *)
Definition update_best (num_parameters : nat) (st : loop_state)
  : outcome loop_state :=
  let Ykt_map :=
    mat_of_cols num_parameters
      (map (fun i => nth i (grad_buff st) [])
           (seq 0 (current_history_size st))) in
  let Skt_map :=
    mat_of_cols num_parameters
      (map (fun i => nth i (param_buff st) [])
           (seq 0 (current_history_size st))) in
  match pathfinder_impl rand_unit_gaus lp_fun (rng_st st) (alpha_st st)
                        (curr_x (lbfgs st)) (curr_g (lbfgs st))
                        Ykt_map Skt_map num_elbo_draws with
  | (Throw e, _) => Throw e
  | (Ret pathfinder_res, g') =>
      let num_evals := num_evals st + fn_calls (fst pathfinder_res) in
      let better :=
        (elbo (elbo_best st) <? elbo (fst pathfinder_res))%D in
      Ret {| lbfgs := lbfgs st; ret := ret st;
             interrupt_st := interrupt_st st;
             rng_st := g';
             prev_params := prev_params st; prev_grads := prev_grads st;
             param_buff := param_buff st; grad_buff := grad_buff st;
             current_history_size := current_history_size st;
             alpha_st := alpha_st st;
             best_E := if better then iter_num (lbfgs st) else best_E st;
             elbo_best :=
               if better then fst pathfinder_res else elbo_best st;
             taylor_approx_best :=
               if better then snd pathfinder_res
               else taylor_approx_best st;
             num_evals := num_evals |}
  end.

(** The body of [while (ret == 0)]. *)
Definition loop_body (num_parameters : nat) (st : loop_state)
  : outcome loop_state :=
  ist <- interrupt (interrupt_st st) ;;
  let (r, lb) := lbfgs_step (lbfgs st) in
  if negb (r =? -1)%Z then
    update_best num_parameters (update_history st lb r ist)
  else
    Ret {| lbfgs := lb; ret := r; interrupt_st := ist;
           rng_st := rng_st st;
           prev_params := prev_params st; prev_grads := prev_grads st;
           param_buff := param_buff st; grad_buff := grad_buff st;
           current_history_size := current_history_size st;
           alpha_st := alpha_st st;
           best_E := best_E st; elbo_best := elbo_best st;
           taylor_approx_best := taylor_approx_best st;
           num_evals := num_evals st |}.

(** [while (ret == 0) { ... }], with [fuel] bounding the number of
    turns; [None] when the bound is reached first. *)
Fixpoint lbfgs_loop (num_parameters : nat) (fuel : nat) (st : loop_state)
  : option (outcome loop_state) :=
  if negb (ret st =? 0)%Z then Some (Ret st)
  else
    match fuel with
    | O => None
    | S fuel' =>
        match loop_body num_parameters st with
        | Ret st' => lbfgs_loop num_parameters fuel' st'
        | Throw e => Some (Throw e)
        end
    end.

(** [reaches n st st']: the loop, started in [st], is in [st'] after
    some complete turns. *)
Inductive reaches (num_parameters : nat) : loop_state -> loop_state -> Prop :=
| reaches_here (st : loop_state) : reaches num_parameters st st
| reaches_turn (st st1 st2 : loop_state) :
    ret st = 0%Z ->
    loop_body num_parameters st = Ret st1 ->
    reaches num_parameters st1 st2 ->
    reaches num_parameters st st2.

(** The state on entry of the loop: [cont_vector] are the initial
    parameters, [g1] their gradient. *)
Definition initial_state (lbfgs0 : optimizer) (i0 : interrupt_t)
           (g0 : rng) (cont_vector g1 : list D) : loop_state :=
  {| lbfgs := lbfgs0; ret := 0; interrupt_st := i0; rng_st := g0;
     prev_params := cont_vector; prev_grads := g1;
     param_buff := []; grad_buff := [];
     current_history_size := 0;
     alpha_st := repeat (of_Z 1) (length cont_vector);
     best_E := -1;
     elbo_best := elbo_est_default;
     taylor_approx_best := taylor_approx_default;
     num_evals := grad_evals lbfgs0 |}.

(** Columns [0 .. cols draws) of the output matrix: the constrained
    draw followed by its row of [lp]. Stops at the first exception. *)
Fixpoint constrain_draws (g : rng) (draws : list (list D)) (lp : Mat D)
         (i : nat) : outcome (list (list D)) * rng :=
  match draws with
  | [] => (Ret [], g)
  | unconstrained_col :: rest =>
      match constrain_fun g unconstrained_col with
      | (Ret constrained, g1) =>
          match constrain_draws g1 rest lp (S i) with
          | (Ret t, g2) => (Ret ((constrained ++ row lp i) :: t), g2)
          | (Throw e, g2) => (Throw e, g2)
          end
      | (Throw e, g1) => (Throw e, g1)
      end
  end.

Definition result_t : Type := error_codes * list D * Mat D * nat.

(** After the loop (lines 962-1108), with [names_size] the number of
    output names. [param_vecs] is never written to and stays empty.
    The handler of the [try] block is [catch (const std::exception& e)]:
    it returns the draws of the best estimate; what is thrown and is not
    a [std::exception] leaves the function. *)
Definition final_stage (names_size : nat) (st : loop_state)
  : outcome result_t :=
  let param_vecs : list (list D) := [] in
  if (ret st <? 0)%Z && Nat.eqb (length param_vecs) 1 then
    Ret (SOFTWARE, [], empty_mat,
         num_evals st + grad_evals (lbfgs st))
  else
    let num_evals := num_evals st + grad_evals (lbfgs st) in
    if (best_E st =? -1)%Z then
      Ret (SOFTWARE, [], empty_mat, num_evals)
    else
      let elbo_draws := repeat_draws (elbo_best st) in
      let elbo_lp_ratio := lp_ratio (elbo_best st) in
      let elbo_lp_mat := lp_mat (elbo_best st) in
      let remaining_draws :=
        (Z.of_nat num_draws - Z.of_nat (length elbo_lp_ratio))%Z in
      let fallback (g : rng) (num_evals : nat) : outcome result_t :=
        match constrain_draws g (columns elbo_draws) elbo_lp_mat 0 with
        | (Ret cs, _) =>
            Ret (OK, elbo_lp_ratio, mat_of_cols names_size cs, num_evals)
        | (Throw e, _) => Throw e
        end in
      let handler (e : exn) (g : rng) (num_evals : nat)
        : outcome result_t :=
        match e with
        | std_exception _ => fallback g num_evals
        | _ => Throw e
        end in
      if (0 <? remaining_draws)%Z then
        match est_approx_draws rand_unit_gaus lp_fun false (rng_st st)
                               (taylor_approx_best st)
                               (Z.to_nat remaining_draws) with
        | (Throw e, g1) => handler e g1 num_evals
        | (Ret est_draws, g1) =>
            let num_evals := num_evals + fn_calls est_draws in
            let lp_ratio := elbo_lp_ratio ++ lp_ratio est_draws in
            match constrain_draws g1 (columns elbo_draws) elbo_lp_mat 0
            with
            | (Ret cs1, g2) =>
                match constrain_draws g2
                        (columns (repeat_draws est_draws))
                        (lp_mat est_draws) 0 with
                | (Ret cs2, _) =>
                    Ret (OK, lp_ratio,
                         mat_of_cols names_size (cs1 ++ cs2), num_evals)
                | (Throw e, g3) => handler e g3 num_evals
                end
            | (Throw e, g2) => handler e g2 num_evals
            end
        end
      else
        fallback (rng_st st) num_evals.

(** [pathfinder_lbfgs_single<true>]: the return code, [lp_ratio],
    the draws and the number of log-density evaluations; or the
    exception that leaves the function. *)
Definition pathfinder_lbfgs_single (fuel : nat) (names_size : nat)
           (lbfgs0 : optimizer) (i0 : interrupt_t) (g0 : rng)
           (cont_vector g1 : list D) : option (outcome result_t) :=
  let num_parameters := length cont_vector in
  match lbfgs_loop num_parameters fuel
                   (initial_state lbfgs0 i0 g0 cont_vector g1) with
  | None => None
  | Some (Throw e) => Some (Throw e)
  | Some (Ret st) => Some (final_stage names_size st)
  end.
End Driver.

Arguments loop_state : clear implicits.
Arguments result_t : clear implicits.

End Pathfinder.

(** ** single.hpp, the earlier revision (namespace
    [stan::services::optimize], lines 1117-2013) *)

Module Optimize.

Section Core.
Context {D : Type} {A : Arith D}.

Record taylor_approx_t : Type := {
  x_center : list D;
  logdetcholHk : D;
  L_approx : Mat D;
  Qk : Mat D;
  use_full : bool
}.

(** [crossprod(x, y)]: [x^T * y]. *)
Definition crossprod (x y : Mat D) : Mat D := mat_mul (transpose x) y.

(** Row [i] of the result is [y_buff[i] * alpha], coefficient-wise. *)
Definition std_vec_matrix_times_diagonal (y_buff : list (list D))
           (alpha : list D) : Mat D :=
  mat_init (length y_buff) (length alpha)
    (fun i j => (nth j (nth i y_buff []) (of_Z 0)
                 * nth j alpha (of_Z 0))%D).

(** The sum of the [y_buff[i] * x[i]]. *)
Definition std_vec_matrix_crossprod_vector (y_buff : list (list D))
           (x : list D) : list D :=
  fold_left
    (fun acc i =>
       vadd acc (map (fun c => (c * nth i x (of_Z 0))%D) (nth i y_buff [])))
    (seq 0 (length y_buff))
    (repeat (of_Z 0) (length (nth 0 y_buff []))).

Definition std_vec_matrix_mul_vector (y_buff : list (list D))
           (alpha : list D) : list D :=
  map (fun y => dot y alpha) y_buff.

(** Lines 1250-1266. *)
Definition get_rnorm_and_draws (u : Mat D) (taylor_approx : taylor_approx_t)
           (alpha : list D) : Mat D :=
  if use_full taylor_approx then
    colwise_add (crossprod (L_approx taylor_approx) u)
                (x_center taylor_approx)
  else
    let u1 := mat_mul (transpose (Qk taylor_approx)) u in
    colwise_add
      (diag_mul (map sqrt alpha)
         (mat_add
            (mat_mul (Qk taylor_approx)
                     (crossprod (L_approx taylor_approx) u1))
            (mat_sub u (mat_mul (Qk taylor_approx) u1))))
      (x_center taylor_approx).
End Core.

Arguments taylor_approx_t D : clear implicits.

Section Taylor.
Context {D : Type} {A : Arith D} {M : MathLib D} {E : EigenLib D}.

Definition construct_taylor_approximation_full (Ykt_mat : list (list D))
           (alpha Dk : list D) (ninvRST : Mat D)
           (point_est grad_est : list D) : taylor_approx_t D :=
  let y_tcrossprod_alpha :=
    tcrossprod (std_vec_matrix_times_diagonal Ykt_mat (map sqrt alpha)) in
  let y_tcrossprod_alpha := add_diag y_tcrossprod_alpha Dk in
  let y_mul_alpha := std_vec_matrix_times_diagonal Ykt_mat alpha in
  let Hk :=
    mat_add (mat_add (crossprod y_mul_alpha ninvRST)
                     (crossprod ninvRST y_mul_alpha))
            (crossprod ninvRST (mat_mul y_tcrossprod_alpha ninvRST)) in
  let Hk := add_diag Hk alpha in
  let L_hk := transpose (llt_matrixL Hk) in
  let logdetcholHk := sum (map (fun x => log (abs x)) (diagonal L_hk)) in
  let x_center := vsub point_est (mat_vec Hk grad_est) in
  {| x_center := x_center; logdetcholHk := logdetcholHk;
     L_approx := L_hk; Qk := mkMat 0 0 []; use_full := true |}.

Definition construct_taylor_approximation_sparse (Ykt_mat : list (list D))
           (alpha Dk : list D) (ninvRST : Mat D)
           (point_est grad_est : list D) : taylor_approx_t D :=
  let current_history_size := length Ykt_mat in
  let y_mul_sqrt_alpha :=
    std_vec_matrix_times_diagonal Ykt_mat (map sqrt alpha) in
  let Wkbart_bottom :=
    mul_diag ninvRST (map (fun a => sqrt (inverse a)) alpha) in
  let Wkbart :=
    mat_init (length Ykt_mat + rows ninvRST) (length alpha)
      (fun i j => if Nat.ltb i (length Ykt_mat)
                  then coeff y_mul_sqrt_alpha i j
                  else coeff Wkbart_bottom (i - length Ykt_mat) j) in
  let y_tcrossprod_alpha := tcrossprod y_mul_sqrt_alpha in
  let y_tcrossprod_alpha := add_diag y_tcrossprod_alpha Dk in
  let Mkbar :=
    mat_init (2 * current_history_size) (2 * current_history_size)
      (fun i j =>
         match Nat.ltb i current_history_size,
               Nat.ltb j current_history_size with
         | true, true => of_Z 0
         | true, false =>
             coeff (Identity current_history_size current_history_size)
                   i (j - current_history_size)
         | false, true =>
             coeff (Identity current_history_size current_history_size)
                   (i - current_history_size) j
         | false, false =>
             coeff y_tcrossprod_alpha (i - current_history_size)
                   (j - current_history_size)
         end) in
  let Wkbart := transpose Wkbart in
  let min_size := Nat.min (rows Wkbart) (cols Wkbart) in
  let Rkbar := topLeftCorner (qr_matrixQR Wkbart) min_size (cols Wkbart) in
  let Rkbar := zero_strictly_lower Rkbar in
  let Qk := mat_mul (qr_householderQ Wkbart)
                    (Identity (rows Wkbart) min_size) in
  let L_approx :=
    transpose
      (llt_matrixL
         (mat_add (mat_mul (mat_mul Rkbar Mkbar) (transpose Rkbar))
                  (Identity (rows Rkbar) (rows Rkbar)))) in
  let logdetcholHk :=
    (sum (map (fun x => log (abs x)) (diagonal L_approx))
     + half * sum (map log alpha))%D in
  let ninvRSTg := mat_vec ninvRST grad_est in
  let alpha_mul_grad := vmul alpha grad_est in
  let x_center :=
    vsub point_est
      (vadd
         (vadd
            (vadd alpha_mul_grad
               (vmul alpha
                     (std_vec_matrix_crossprod_vector Ykt_mat ninvRSTg)))
            (mat_vec (transpose ninvRST)
                     (std_vec_matrix_mul_vector Ykt_mat alpha_mul_grad)))
         (mat_vec (transpose ninvRST)
                  (mat_vec y_tcrossprod_alpha ninvRSTg))) in
  {| x_center := x_center; logdetcholHk := logdetcholHk;
     L_approx := L_approx; Qk := Qk; use_full := false |}.

(** Lines 1528-1542; [Ykt_mat] holds the history as a vector of
    columns. *)
Definition construct_taylor_approximation (Ykt_mat : list (list D))
           (alpha Dk : list D) (ninvRST : Mat D)
           (point_est grad_est : list D) : taylor_approx_t D :=
  if Nat.leb (length (nth 0 Ykt_mat [])) (2 * length Ykt_mat) then
    construct_taylor_approximation_full Ykt_mat alpha Dk ninvRST
                                        point_est grad_est
  else
    construct_taylor_approximation_sparse Ykt_mat alpha Dk ninvRST
                                          point_est grad_est.
End Taylor.

End Optimize.

(** ** psis.hpp, namespace [stan::services::psis] *)

Module Psis.

Section Sorting.
Context {D : Type} {A : Arith D}.

(** The indices [lo, lo+1, ..., hi-1] of a [for] loop. *)
Definition range (lo hi : Z) : list Z :=
  map (fun k => (lo + Z.of_nat k)%Z) (seq 0 (Z.to_nat (hi - lo))).

Definition at_ {X : Type} (d : X) (l : list X) (i : Z) : X :=
  nth (Z.to_nat i) l d.

(** [std::swap(a.coeffRef(i), a.coeffRef(j))]. *)
Definition swap {X : Type} (d : X) (l : list X) (i j : Z) : list X :=
  let x := at_ d l i in
  let y := at_ d l j in
  upd (upd l (Z.to_nat i) y) (Z.to_nat j) x.

(** Lines 147-166. *)
Definition quick_sort_partition (arr : list D) (idx : list Z)
           (low high : Z) : list D * list Z * Z :=
  let pivot := at_ (of_Z 0) arr high in
  let '(arr, idx, i) :=
    fold_left
      (fun (st : list D * list Z * Z) (j : Z) =>
         let '(arr, idx, i) := st in
         if (at_ (of_Z 0) arr j <=? pivot)%D then
           let i := (i + 1)%Z in
           (swap (of_Z 0) arr i j, swap 0%Z idx i j, i)
         else st)
      (range low high)
      (arr, idx, (low - 1)%Z) in
  (swap (of_Z 0) arr (i + 1) high, swap 0%Z idx (i + 1) high, (i + 1)%Z).

(** Lines 172-187.  The two recursive calls work on disjoint parts of
    the arrays, so [tbb::parallel_invoke] and the sequential branch
    give the same arrays.  [fuel] bounds the depth of the recursion;
    the number of elements is always enough. *)
Fixpoint quick_sort_range (fuel : nat) (arr : list D) (idx : list Z)
         (low high : Z) : list D * list Z :=
  match fuel with
  | O => (arr, idx)
  | S fuel' =>
      if (low <? high)%Z then
        let '(arr, idx, partition_index) :=
          quick_sort_partition arr idx low high in
        let (arr, idx) :=
          quick_sort_range fuel' arr idx low (partition_index - 1) in
        quick_sort_range fuel' arr idx (partition_index + 1) high
      else (arr, idx)
  end.

(** Lines 189-192. *)
Definition quick_sort (arr : list D) (idx : list Z) : list D * list Z :=
  quick_sort_range (length arr) arr idx 0 (Z.of_nat (length arr) - 1).

(** Lines 194-213; the [while] loop halves [high_idx - low_idx], so
    [top_size + 1] turns are enough. *)
Definition max_n_insertion_start (top_n : list D) (value : D) : Z :=
  let top_size := Z.of_nat (length top_n) in
  let '(low_idx, high_idx) :=
    fold_left
      (fun (st : Z * Z) (_ : nat) =>
         let '(low_idx, high_idx) := st in
         if (1 <? high_idx - low_idx)%Z then
           let probe_idx := Z.quot (low_idx + high_idx) 2 in
           let curr_val := at_ (of_Z 0) top_n probe_idx in
           if (value <? curr_val)%D then (low_idx, probe_idx)
           else (probe_idx, high_idx)
         else st)
      (seq 0 (S (length top_n)))
      ((-1)%Z, top_size) in
  if (high_idx =? top_size)%Z then (top_size - 1)%Z
  else (high_idx - 1)%Z.

(** Eigen's [LinSpaced(size, low, high)] on an integer scalar type. *)
Definition LinSpaced_Index (size : nat) (low high : Z) : list Z :=
  let low := if Nat.eqb size 1 then high else low in
  let num_steps := Z.of_nat size in
  let multiplier :=
    Z.quot (high - low) (if (num_steps <=? 1)%Z then 1 else num_steps - 1) in
  let divisor :=
    Z.quot ((if (low <=? high)%Z then num_steps else - num_steps)
            + (high - low))
           (Z.abs (high - low) + 1) in
  let use_divisor :=
    (1 <? num_steps)%Z && (Z.abs (high - low) + 1 <? num_steps)%Z in
  map (fun i => if use_divisor then (low + Z.quot (Z.of_nat i) divisor)%Z
                else (low + Z.of_nat i * multiplier)%Z)
      (seq 0 size).

(** The body of the loop of lines 221-234. *)
Definition max_n_scan (lw_i : list D) (st : list D * list Z) (i : Z)
  : list D * list Z :=
  let (top_n, top_n_idx) := st in
  if (at_ (of_Z 0) top_n 0 <=? at_ (of_Z 0) lw_i i)%D then
    let starting_pos := max_n_insertion_start top_n (at_ (of_Z 0) lw_i i) in
    let top_n :=
      fold_left (fun t k => upd t (Z.to_nat (k - 1)) (at_ (of_Z 0) t k))
                (range 1 (starting_pos + 1)) top_n in
    let top_n := upd top_n (Z.to_nat starting_pos) (at_ (of_Z 0) lw_i i) in
    let top_n_idx :=
      fold_left (fun t k => upd t (Z.to_nat (k - 1)) (at_ 0%Z t k))
                (range 1 (starting_pos + 1)) top_n_idx in
    let top_n_idx := upd top_n_idx (Z.to_nat starting_pos) i in
    (top_n, top_n_idx)
  else st.

(** Lines 215-236.  The scan runs over [tail_len_i, tail_len_i). *)
Definition max_n_elements (lw_i : list D) (tail_len_i : nat)
  : list D * list Z :=
  let top_n := firstn tail_len_i lw_i in
  let top_n_idx :=
    LinSpaced_Index tail_len_i 0 (Z.of_nat tail_len_i) in
  let (top_n, top_n_idx) := quick_sort top_n top_n_idx in
  fold_left (max_n_scan lw_i)
            (range (Z.of_nat tail_len_i) (Z.of_nat tail_len_i))
            (top_n, top_n_idx).

(** Lines 238-245. *)
Definition insert_smooth_to_tail (lw_i : list D) (idx : list Z)
           (smoothed : list D) : list D :=
  fold_left
    (fun lw i => upd lw (Z.to_nat (nth i idx 0%Z)) (nth i smoothed (of_Z 0)))
    (seq 0 (length idx)) lw_i.

(** [v.tail(n)]. *)
Definition tail_n {X : Type} (n : nat) (v : list X) : list X :=
  skipn (length v - n) v.
End Sorting.

Section Smoothing.
Context {D : Type} {A : Arith D} {M : MathLib D}.

(** Eigen's [LinSpaced(size, low, high)] on [double]. *)
Definition LinSpaced (size : nat) (low high : D) : list D :=
  let low := if Nat.eqb size 1 then high else low in
  let size1 := if Nat.eqb size 1 then 1 else size - 1 in
  let step := ((high - low) / of_Z (Z.of_nat size1))%D in
  let flip := (abs high <? abs low)%D in
  map (fun i =>
         if flip then
           if Nat.eqb i 0 then low
           else (high - of_Z (Z.of_nat (size1 - i)) * step)%D
         else
           if Nat.eqb i size1 then high
           else (low + of_Z (Z.of_nat i) * step)%D)
      (seq 0 size).

(** Lines 53-63. *)
Definition lx (a x : list D) : list D :=
  let k :=
    map (fun aj => mean (map (fun xi => log1p ((- aj) * xi)%D) x)) a in
  map2 (fun aj kj => (log ((- aj) / kj) - kj - of_Z 1)%D) a k.

(** Lines 85-109. *)
Definition gpdfit (x : list D) (min_grid_pts : nat) : D * D :=
  let N := Z.of_nat (length x) in
  let prior := of_Z 3 in
  let M_ := (of_Z (Z.of_nat min_grid_pts) + floor (sqrt (of_Z N)))%D in
  let jj := LinSpaced (Z.to_nat (to_Z M_)) (of_Z 1) M_ in
  let xstar :=
    nth (Z.to_nat (to_Z (floor (of_Z N / of_Z 4 + half) - of_Z 1)%D))
        x (of_Z 0) in
  let theta :=
    map (fun j =>
           (of_Z 1 / nth (Z.to_nat (N - 1)) x (of_Z 0)
            + (of_Z 1 - sqrt (M_ / (j - half))) / prior / xstar)%D)
        jj in
  let l_theta := map (fun l => (of_Z N * l)%D) (lx theta x) in
  let lse := log_sum_exp l_theta in
  let w_theta := map (fun l => exp (l - lse)%D) l_theta in
  let theta_hat := sum (vmul theta w_theta) in
  let k := mean (map (fun xi => log1p ((- theta_hat) * xi)%D) x) in
  let sigma := ((- k) / theta_hat)%D in
  let a := of_Z 10 in
  let n_plus_a := (of_Z N + a)%D in
  let k := (k * of_Z N / n_plus_a + a * half / n_plus_a)%D in
  (sigma, k).

(** Lines 121-124. *)
Definition qgpd (p : list D) (k sigma : D) : list D :=
  map (fun pi => (sigma * expm1 ((- k) * log1p (- pi)) / k)%D) p.

(** Lines 126-140. *)
Definition psis_smooth_tail (x : list D) (cutoff : D) : list D * D :=
  let exp_cutoff := exp cutoff in
  let fit := gpdfit (map (fun xi => (exp xi - exp_cutoff)%D) x) 30 in
  let k := snd fit in
  if isinf k then (x, k)
  else
    let x_size := length x in
    let p :=
      map (fun l => ((l - half) / of_Z (Z.of_nat x_size))%D)
          (LinSpaced x_size (of_Z 1) (of_Z (Z.of_nat x_size))) in
    let sigma := fst fit in
    (map (fun q => log (q + exp_cutoff)%D) (qgpd p k sigma), k).

(** Lines 247-277. *)
Definition psis_weights (log_ratios_i : list D) (tail_len_i : nat)
  : list D :=
  let max_log_ratio := maxCoeff log_ratios_i in
  let lw_i := map (fun l => (l - max_log_ratio)%D) log_ratios_i in
  let lw_i :=
    if Nat.leb 5 tail_len_i then
      let max_n := max_n_elements lw_i (tail_len_i + 1) in
      let lw_tail := tail_n tail_len_i (fst max_n) in
      let cutoff := nth 0 (fst max_n) (of_Z 0) in
      if (maxCoeff lw_tail - minCoeff lw_tail <=? dbl_min * of_Z 10)%D
      then lw_i
      else
        let smoothed := psis_smooth_tail lw_tail cutoff in
        insert_smooth_to_tail lw_i (tail_n tail_len_i (snd max_n))
                              (fst smoothed)
    else lw_i in
  let lw_i :=
    map (fun l => if (of_Z 0 <? l)%D then of_Z 0 else l) lw_i in
  let max_adj := map (fun l => (l + max_log_ratio)%D) lw_i in
  let lse := log_sum_exp max_adj in
  map (fun l => exp (l - lse)%D) max_adj.
End Smoothing.

End Psis.


(** ** Statements of the specification, in exact arithmetic *)

Section SpecSide.
Open Scope R_scope.

(** [f 0 + f 1 + ... + f (n-1)]. *)
Definition big_sum (n : nat) (f : nat -> R) : R :=
  fold_right Rplus 0 (map f (seq 0 n)).

(** The curvature check of the spec (section 4.A) on a pair [(y, s)]:
    [y^T s > 0] and [|y|^2 / (y^T s) <= 10^12]. *)
Definition curvature_ok (y s : list R) : Prop :=
  let d := length y in
  let Dk := big_sum d (fun j => nth j y 0 * nth j s 0) in
  0 < Dk /\ big_sum d (fun j => nth j y 0 * nth j y 0) / Dk <= 10 ^ 12.

(** The diagonal update of the spec (section 4.A), component [i]:
    [(y^T s) / ((y^T diag(alpha) y)/alpha + y.y
                - (y^T diag(alpha) y / s^T diag(alpha)^-1 s) (s/alpha)^2)]. *)
Definition gilbert_lemarechal (alpha y s : list R) (i : nat) : R :=
  let d := length alpha in
  let yTs := big_sum d (fun j => nth j y 0 * nth j s 0) in
  let yT_alpha_y :=
    big_sum d (fun j => nth j y 0 * nth j alpha 0 * nth j y 0) in
  let sT_inv_alpha_s :=
    big_sum d (fun j => nth j s 0 * / nth j alpha 0 * nth j s 0) in
  yTs / (yT_alpha_y / nth i alpha 0
         + nth i y 0 * nth i y 0
         - yT_alpha_y / sT_inv_alpha_s * (nth i s 0 / nth i alpha 0) ^ 2).
End SpecSide.

(** The claim about interrupts, as the spec words it: the driver returns
    the software-error code with empty [lp_ratio] and draws. *)
Definition returns_software_error
           (run : option (outcome (Pathfinder.result_t float))) : Prop :=
  exists evals, run = Some (Ret (SOFTWARE, [], empty_mat, evals)).

Definition is_finite (x : float) : bool :=
  negb (PrimFloat.is_nan x || PrimFloat.is_infinity x).

(** The claim about the [elbo] field, as the spec words it: the mean of
    [lp_ratio] when that mean is finite, minus infinity otherwise. *)
Definition elbo_mean_or_minus_infinity (E : Pathfinder.elbo_est_t float)
  : Prop :=
  Pathfinder.elbo E
  = if is_finite (mean (Pathfinder.lp_ratio E))
    then mean (Pathfinder.lp_ratio E)
    else PrimFloat.neg_infinity.

(** The claim about [form_diag], as the spec words it, read on
    [double]: a positive [alpha] and a pair that passes the curvature
    check give a positive result. *)
Definition form_diag_positive (alpha y s : list float) : Prop :=
  Forall (fun a => (0 <? a)%float = true) alpha ->
  Pathfinder.check_curve y s = true ->
  Forall (fun a => (0 <? a)%float = true) (Pathfinder.form_diag alpha y s).

(** The claim about the shift of the log-ratios, as the spec words it,
    read on [double]: the weights of [lw + c] are the weights of
    [lw]. *)
Definition shift_invariant {M : MathLib float} (lw : list float)
           (c : float) (tail_len : nat) : Prop :=
  Psis.psis_weights (map (fun l => (l + c)%float) lw) tail_len
  = Psis.psis_weights lw tail_len.


(** ** Concrete collaborators for the examples *)

Module Example.
(** A generator that always answers [0], a model whose log density is
    [0] everywhere and whose constraining transform is the identity. *)
Definition zero_gaus (g : unit) : float * unit := (0%float, g).
Definition lp_zero (x : list float) : outcome float := Ret 0%float.
Definition constrain_id (g : unit) (x : list float)
  : outcome (list float) * unit := (Ret x, g).

(** An optimizer that stands at the point [x] with gradient [g] after
    every step and answers the return code [0]. *)
Definition step_ok (o : unit) : Z * unit := (0%Z, o).
Definition at_point (x : list float) (o : unit) : list float := x.
Definition iter0 (o : unit) : Z := 0%Z.
Definition evals0 (o : unit) : nat := 0.

(** An interrupt callback that lets the run go on, and one that
    throws. *)
Definition interrupt_continue (i : unit) : outcome unit := Ret i.
Definition interrupted : exn := std_exception "interrupted"%string.
Definition interrupt_throw (i : unit) : outcome unit := Throw interrupted.

(** [libm] and Eigen's decompositions have no counterpart on [float]
    inside Rocq.  These instances answer NaN and the matrix they are
    given; they close the example of a run that is interrupted before
    any approximation is computed, where none of them is called. *)
Definition no_libm : MathLib float := {|
  exp := fun _ => PrimFloat.nan;
  log := fun _ => PrimFloat.nan;
  log1p := fun _ => PrimFloat.nan;
  expm1 := fun _ => PrimFloat.nan;
  floor := fun _ => PrimFloat.nan;
  isinf := PrimFloat.is_infinity;
  log_sum_exp := fun _ => PrimFloat.nan
|}.
Definition no_eigen : EigenLib float := {|
  llt_matrixL := fun m => m;
  qr_matrixQR := fun m => m;
  qr_householderQ := fun m => m;
  upper_solve := fun _ b => b
|}.

(** [libm] at the arguments met by [psis_weights] on the log-ratios
    [(-0.5, 0)] and on the same shifted by [2^52], with the values of
    the functions there rounded to [double]:
    [exp(-0.5) = 0.6065306597126334], [exp(0) = 1],
    [log_sum_exp(-0.5, 0) = log(1 + exp(-0.5)) = 0.4740769841801067],
    [exp(-0.5 - 0.4740769841801067) = 0.3775406687981454],
    [exp(-0.4740769841801067) = 0.6224593312018546], and
    [log_sum_exp(2^52 - 0.5, 2^52) = 2^52 + 0.474...], which is [2^52]
    once rounded.  NaN elsewhere. *)
Definition libm_at_shift_example : MathLib float := {|
  exp := fun x =>
    if (x =? 0)%float then 1%float
    else if (x =? -0.5)%float then 0x1.368b2fc6f960ap-1%float
    else if (x =? -0x1.e5746fdb5c064p-2)%float
         then 0x1.3eb2fd4d34391p-1%float
    else if (x =? -0x1.f2ba37edae032p-1)%float
         then 0x1.829a0565978dep-2%float
    else PrimFloat.nan;
  log := fun _ => PrimFloat.nan;
  log1p := fun _ => PrimFloat.nan;
  expm1 := fun _ => PrimFloat.nan;
  floor := fun _ => PrimFloat.nan;
  isinf := PrimFloat.is_infinity;
  log_sum_exp := fun v =>
    match v with
    | [a; b] =>
        if (a =? -0.5)%float && (b =? 0)%float
        then 0x1.e5746fdb5c064p-2%float
        else if (a =? 0x1.fffffffffffffp+51)%float && (b =? 0x1p52)%float
             then 0x1p52%float
        else PrimFloat.nan
    | _ => PrimFloat.nan
    end
|}.

(** A Taylor approximation whose [logdetcholHk] is NaN, as after a
    Cholesky factorisation that met a NaN. *)
Definition taylor_nan : Pathfinder.taylor_approx_t float := {|
  Pathfinder.x_center := [0%float];
  Pathfinder.logdetcholHk := PrimFloat.nan;
  Pathfinder.L_approx := mkMat 1 1 [[1%float]];
  Pathfinder.Qk := empty_mat;
  Pathfinder.alpha := [1%float];
  Pathfinder.use_full := true
|}.


(** A sparse approximation in dimension 3 with a basis of two columns
    and an upper-triangular factor that is not symmetric; the same data
    in the record of the earlier revision. *)
Definition Qk32 : Mat float :=
  mkMat 3 2 [[1; 0; 0]; [0; 1; 0]]%float.
Definition L22 : Mat float :=
  mkMat 2 2 [[1; 0]; [1; 1]]%float.
Definition sparse_new : Pathfinder.taylor_approx_t float := {|
  Pathfinder.x_center := [0; 0; 0]%float;
  Pathfinder.logdetcholHk := 0%float;
  Pathfinder.L_approx := L22;
  Pathfinder.Qk := Qk32;
  Pathfinder.alpha := [1; 1; 1]%float;
  Pathfinder.use_full := false
|}.
Definition sparse_old : Optimize.taylor_approx_t float := {|
  Optimize.x_center := [0; 0; 0]%float;
  Optimize.logdetcholHk := 0%float;
  Optimize.L_approx := L22;
  Optimize.Qk := Qk32;
  Optimize.use_full := false
|}.
End Example.

Unset Implicit Arguments.

(** ** Statements about the sorting routines of psis.hpp *)

Section SortingSpec.
Context {D : Type} {A : Arith D}.

(** [related low high a x a' x']: the arrays [a'], [x'] come from [a],
    [x] by moving coefficients inside the positions [low .. high], the
    two arrays in step. *)
Definition related (low high : Z) (a : list D) (x : list Z)
           (a' : list D) (x' : list Z) : Prop :=
  length a' = length a /\ length x' = length x /\
  (forall k, (0 <= k)%Z -> (k < low \/ high < k)%Z ->
             Psis.at_ (of_Z 0) a' k = Psis.at_ (of_Z 0) a k) /\
  (forall k, (low <= k <= high)%Z ->
             exists k', (low <= k' <= high)%Z /\
                        Psis.at_ (of_Z 0) a' k = Psis.at_ (of_Z 0) a k') /\
  Permutation a' a /\
  (length x = length a -> Permutation (combine a' x') (combine a x)).

(** The positions [low .. high] of [a] are in ascending order for the
    comparison the source uses. *)
Definition sorted_range (a : list D) (low high : Z) : Prop :=
  forall k k', (low <= k)%Z -> (k <= k')%Z -> (k' <= high)%Z ->
               (Psis.at_ (of_Z 0) a k <=? Psis.at_ (of_Z 0) a k')%D = true.
End SortingSpec.

(** * Proofs *)

Ltac unfold_R :=
  cbv [add sub mul div opp abs sqrt ltb leb of_Z dbl_min R_Arith
       exp log log1p expm1 floor isinf log_sum_exp R_MathLib] in *.

(** ** Lists *)

Section ListFacts.
Context {X Y Z : Type}.

Lemma map2_length (f : X -> Y -> Z) (a : list X) (b : list Y) :
  length (map2 f a b) = Nat.min (length a) (length b).
Proof.
  revert b; induction a as [|x a IH]; intros [|y b]; simpl; auto.
Qed.

Lemma map2_nth (f : X -> Y -> Z) (a : list X) (b : list Y) i dx dy dz :
  (i < length a)%nat -> (i < length b)%nat ->
  nth i (map2 f a b) dz = f (nth i a dx) (nth i b dy).
Proof.
  revert b i; induction a as [|x a IH]; intros [|y b] [|i] Ha Hb;
    simpl in *; try lia; auto.
  apply IH; lia.
Qed.

Lemma map_nth' (f : X -> Y) (l : list X) i dx dy :
  (i < length l)%nat -> nth i (map f l) dy = f (nth i l dx).
Proof.
  revert i; induction l as [|x l IH]; intros [|i] H; simpl in *;
    try lia; auto.
  apply IH; lia.
Qed.
End ListFacts.

(** ** Sums of reals *)

Section Sums.
Open Scope R_scope.

Lemma fold_left_Rplus (l : list R) (x : R) :
  fold_left Rplus l x = x + fold_right Rplus 0 l.
Proof.
  revert x; induction l as [|y l IH]; intros x; simpl.
  - lra.
  - rewrite IH. lra.
Qed.

Lemma sum_R (l : list R) : sum l = fold_right Rplus 0 l.
Proof.
  destruct l as [|x l]; unfold sum; unfold_R; simpl.
  - reflexivity.
  - apply fold_left_Rplus.
Qed.

Lemma big_sum_S (n : nat) (f : nat -> R) :
  big_sum (S n) f = f 0%nat + big_sum n (fun j => f (S j)).
Proof.
  unfold big_sum. simpl. rewrite <- seq_shift, map_map. reflexivity.
Qed.

Lemma big_sum_ext (n : nat) (f g : nat -> R) :
  (forall j, (j < n)%nat -> f j = g j) -> big_sum n f = big_sum n g.
Proof.
  revert f g; induction n as [|n IH]; intros f g H.
  - reflexivity.
  - rewrite !big_sum_S. rewrite (H 0%nat) by lia.
    f_equal. apply IH. intros j Hj. apply H. lia.
Qed.

Lemma sum_big_sum (l : list R) :
  sum l = big_sum (length l) (fun j => nth j l 0).
Proof.
  rewrite sum_R. induction l as [|x l IH]; simpl.
  - reflexivity.
  - rewrite big_sum_S. simpl. rewrite IH. reflexivity.
Qed.

Lemma dot_big_sum (a b : list R) :
  length b = length a ->
  dot a b = big_sum (length a) (fun j => nth j a 0 * nth j b 0).
Proof.
  intros Hl. unfold dot. rewrite sum_big_sum, map2_length, Hl, Nat.min_id.
  apply big_sum_ext. intros j Hj.
  rewrite (map2_nth _ _ _ _ 0 0) by lia. reflexivity.
Qed.

Lemma big_sum_nonneg (n : nat) (f : nat -> R) :
  (forall j, (j < n)%nat -> 0 <= f j) -> 0 <= big_sum n f.
Proof.
  revert f; induction n as [|n IH]; intros f H.
  - unfold big_sum; simpl; lra.
  - rewrite big_sum_S.
    assert (0 <= f 0%nat) by (apply H; lia).
    assert (0 <= big_sum n (fun j => f (S j)))
      by (apply IH; intros; apply H; lia).
    lra.
Qed.

Lemma big_sum_pos (n : nat) (f : nat -> R) (k : nat) :
  (forall j, (j < n)%nat -> 0 <= f j) -> (k < n)%nat -> 0 < f k ->
  0 < big_sum n f.
Proof.
  revert f k; induction n as [|n IH]; intros f k H Hk Hpos; [lia|].
  rewrite big_sum_S.
  destruct k as [|k].
  - assert (0 <= big_sum n (fun j => f (S j)))
      by (apply big_sum_nonneg; intros; apply H; lia).
    lra.
  - assert (0 <= f 0%nat) by (apply H; lia).
    assert (0 < big_sum n (fun j => f (S j))).
    { apply (IH _ k); [intros; apply H; lia | lia | exact Hpos]. }
    lra.
Qed.

Lemma big_sum_nonzero (n : nat) (f : nat -> R) :
  big_sum n f <> 0 -> exists k, (k < n)%nat /\ f k <> 0.
Proof.
  revert f; induction n as [|n IH]; intros f H.
  - exfalso. apply H. reflexivity.
  - rewrite big_sum_S in H.
    destruct (Req_dec (f 0%nat) 0) as [E|E].
    + destruct (IH (fun j => f (S j))) as [k [Hk Hf]]; [lra|].
      exists (S k). split; [lia | exact Hf].
    + exists 0%nat. split; [lia | exact E].
Qed.

(** A sum with one term set aside. *)
Lemma big_sum_split (n : nat) (f : nat -> R) (i : nat) :
  (i < n)%nat ->
  big_sum n f = f i + big_sum n (fun j => if Nat.eqb j i then 0 else f j).
Proof.
  revert f i; induction n as [|n IH]; intros f i Hi; [lia|].
  rewrite !big_sum_S.
  destruct i as [|i].
  - simpl. lra.
  - simpl. rewrite (IH (fun j => f (S j)) i) by lia. lra.
Qed.
End Sums.

(** ** The diagonal update in exact arithmetic *)

Section FormDiag.
Open Scope R_scope.

Lemma Forall_nth_pos (l : list R) (i : nat) :
  Forall (fun a => 0 < a) l -> (i < length l)%nat -> 0 < nth i l 0.
Proof.
  intros H Hi. rewrite Forall_forall in H. apply H. apply nth_In. exact Hi.
Qed.

Lemma y_alpha_y_big_sum (alpha y : list R) :
  length y = length alpha ->
  dot y (vmul alpha y)
  = big_sum (length alpha) (fun j => nth j y 0 * nth j alpha 0 * nth j y 0).
Proof.
  intros Hy. rewrite dot_big_sum.
  - rewrite Hy. apply big_sum_ext. intros j Hj. unfold vmul.
    rewrite (map2_nth _ _ _ _ 0 0) by lia. unfold_R. ring.
  - unfold vmul. rewrite map2_length. lia.
Qed.

Lemma s_inv_alpha_s_big_sum (alpha s : list R) :
  length s = length alpha ->
  dot s (vmul (map inverse alpha) s)
  = big_sum (length alpha)
            (fun j => nth j s 0 * / nth j alpha 0 * nth j s 0).
Proof.
  intros Hs. rewrite dot_big_sum.
  - rewrite Hs. apply big_sum_ext. intros j Hj. unfold vmul.
    rewrite (map2_nth _ _ _ _ 0 0) by (rewrite ?length_map; lia).
    rewrite (map_nth' _ _ _ 0) by lia.
    unfold inverse. unfold_R. unfold Rdiv. ring.
  - unfold vmul. rewrite map2_length, length_map. lia.
Qed.

Lemma y_s_big_sum (alpha y s : list R) :
  length y = length alpha -> length s = length alpha ->
  dot y s = big_sum (length alpha) (fun j => nth j y 0 * nth j s 0).
Proof.
  intros Hy Hs. rewrite dot_big_sum by lia. rewrite Hy. reflexivity.
Qed.

(** [form_diag] is the formula of the spec, component by component. *)
Lemma form_diag_nth (alpha y s : list R) (i : nat) :
  length y = length alpha -> length s = length alpha ->
  (i < length alpha)%nat ->
  nth i (Pathfinder.form_diag alpha y s) 0 = gilbert_lemarechal alpha y s i.
Proof.
  intros Hy Hs Hi. unfold Pathfinder.form_diag, gilbert_lemarechal.
  rewrite y_alpha_y_big_sum, s_inv_alpha_s_big_sum by assumption.
  rewrite (y_s_big_sum alpha) by assumption.
  unfold vsub, vadd, vdiv.
  rewrite (map_nth' _ _ _ 0)
    by (rewrite !map2_length, !length_map, !map2_length; lia).
  rewrite (map2_nth _ _ _ _ 0 0)
    by (rewrite ?map2_length, ?length_map, ?map2_length; lia).
  rewrite (map2_nth _ _ _ _ 0 0) by (rewrite ?length_map; lia).
  rewrite (map_nth' _ _ _ 0) by lia.
  rewrite (map_nth' _ _ _ 0) by lia.
  rewrite (map_nth' _ _ _ 0) by (rewrite length_map, map2_length; lia).
  rewrite (map_nth' _ _ _ 0) by (rewrite map2_length; lia).
  rewrite (map2_nth _ _ _ _ 0 0) by lia.
  unfold square. unfold_R. simpl. f_equal. ring.
Qed.

Lemma form_diag_length (alpha y s : list R) :
  length y = length alpha -> length s = length alpha ->
  length (Pathfinder.form_diag alpha y s) = length alpha.
Proof.
  intros Hy Hs. unfold Pathfinder.form_diag, vsub, vadd, vdiv.
  rewrite length_map, !map2_length, !length_map, !map2_length. lia.
Qed.

(** The denominator of component [i] is positive as soon as
    [y^T s > 0]. *)
Lemma gilbert_lemarechal_pos (alpha y s : list R) (i : nat) :
  Forall (fun a => 0 < a) alpha ->
  (i < length alpha)%nat ->
  0 < big_sum (length alpha) (fun j => nth j y 0 * nth j s 0) ->
  0 < gilbert_lemarechal alpha y s i.
Proof.
  intros Hpos Hi HC. unfold gilbert_lemarechal.
  set (d := length alpha) in *.
  set (fA := fun j => nth j y 0 * nth j alpha 0 * nth j y 0).
  set (fB := fun j => nth j s 0 * / nth j alpha 0 * nth j s 0).
  set (fC := fun j => nth j y 0 * nth j s 0) in *.
  assert (Ha : forall j, (j < d)%nat -> 0 < nth j alpha 0)
    by (intros; apply Forall_nth_pos; assumption).
  assert (HfA : forall j, (j < d)%nat -> 0 <= fA j).
  { intros j Hj. unfold fA. specialize (Ha j Hj).
    assert (0 <= nth j y 0 * nth j y 0) by nra. nra. }
  assert (HfB : forall j, (j < d)%nat -> 0 <= fB j).
  { intros j Hj. unfold fB. specialize (Ha j Hj).
    assert (0 < / nth j alpha 0) by (apply Rinv_0_lt_compat; lra).
    assert (0 <= nth j s 0 * nth j s 0) by nra. nra. }
  (* a term of [y^T s] that is not zero gives positive terms of both
     quadratic forms *)
  assert (Hterm : forall j, (j < d)%nat -> fC j <> 0 ->
                            0 < fA j /\ 0 < fB j).
  { intros j Hj Hne. unfold fA, fB, fC in *. specialize (Ha j Hj).
    assert (0 < / nth j alpha 0) by (apply Rinv_0_lt_compat; lra).
    assert (Hy0 : nth j y 0 <> 0) by (intro E; apply Hne; rewrite E; ring).
    assert (Hs0 : nth j s 0 <> 0) by (intro E; apply Hne; rewrite E; ring).
    assert (0 < nth j y 0 * nth j y 0) by nra.
    assert (0 < nth j s 0 * nth j s 0) by nra.
    split; nra. }
  set (a := nth i alpha 0). set (yi := nth i y 0). set (si := nth i s 0).
  assert (Hai : 0 < a) by (apply Ha; exact Hi).
  (* the three sums with the term [i] set aside *)
  pose (mask := fun (f : nat -> R) j => if Nat.eqb j i then 0 else f j).
  assert (EA : big_sum d fA = yi * a * yi + big_sum d (mask fA))
    by (apply (big_sum_split d fA i Hi)).
  assert (EB : big_sum d fB = si * / a * si + big_sum d (mask fB))
    by (apply (big_sum_split d fB i Hi)).
  assert (EC : big_sum d fC = yi * si + big_sum d (mask fC))
    by (apply (big_sum_split d fC i Hi)).
  assert (HA' : 0 <= big_sum d (mask fA)).
  { apply big_sum_nonneg. intros j Hj. unfold mask.
    destruct (Nat.eqb j i); [lra | apply HfA; exact Hj]. }
  assert (HB' : 0 <= big_sum d (mask fB)).
  { apply big_sum_nonneg. intros j Hj. unfold mask.
    destruct (Nat.eqb j i); [lra | apply HfB; exact Hj]. }
  assert (HmA : forall j, (j < d)%nat -> 0 <= mask fA j).
  { intros j Hj. unfold mask.
    destruct (Nat.eqb j i); [lra | apply HfA; exact Hj]. }
  assert (HmB : forall j, (j < d)%nat -> 0 <= mask fB j).
  { intros j Hj. unfold mask.
    destruct (Nat.eqb j i); [lra | apply HfB; exact Hj]. }
  (* [s^T diag(alpha)^-1 s] is positive *)
  assert (HB : 0 < big_sum d fB).
  { destruct (big_sum_nonzero d fC) as [k [Hk Hne]]; [lra|].
    apply (big_sum_pos d fB k HfB Hk). apply Hterm; assumption. }
  assert (HA : 0 <= big_sum d fA) by (apply big_sum_nonneg; exact HfA).
  set (SA := big_sum d fA) in *. set (SB := big_sum d fB) in *.
  set (SC := big_sum d fC) in *.
  set (A' := big_sum d (mask fA)) in *.
  set (B' := big_sum d (mask fB)) in *.
  set (C' := big_sum d (mask fC)) in *.
  assert (Eden : SA / a + yi * yi - SA / SB * (si / a) ^ 2
                 = yi * yi + SA * B' / (a * SB)).
  { replace B' with (SB - si * / a * si) by lra. field. split; lra. }
  rewrite Eden.
  apply Rdiv_lt_0_compat; [exact HC|].
  assert (Hq : 0 <= SA * B' / (a * SB)).
  { apply Rmult_le_pos; [nra|]. apply Rlt_le, Rinv_0_lt_compat. nra. }
  destruct (Req_dec yi 0) as [Ey|Ey].
  - (* [y_i = 0]: another term of [y^T s] is not zero *)
    assert (HC' : 0 < C') by (rewrite Ey in EC; lra).
    destruct (big_sum_nonzero d (mask fC)) as [k [Hk Hne]];
      [fold C'; lra|].
    assert (Hki : Nat.eqb k i = false).
    { destruct (Nat.eqb k i) eqn:E; [|reflexivity].
      exfalso. apply Hne. unfold mask. rewrite E. reflexivity. }
    assert (Hne' : fC k <> 0) by (unfold mask in Hne; rewrite Hki in Hne; exact Hne).
    destruct (Hterm k Hk Hne') as [HAk HBk].
    assert (HA'pos : 0 < A').
    { apply (big_sum_pos d (mask fA) k HmA Hk). unfold mask. rewrite Hki. exact HAk. }
    assert (HB'pos : 0 < B').
    { apply (big_sum_pos d (mask fB) k HmB Hk). unfold mask. rewrite Hki. exact HBk. }
    assert (0 < SA) by nra.
    assert (0 < SA * B' / (a * SB)).
    { apply Rdiv_lt_0_compat; nra. }
    nra.
  - assert (0 < yi * yi) by nra. lra.
Qed.
End FormDiag.

Section CurvatureCheck.
Open Scope R_scope.

Lemma Rltb_true (a b : R) : Rltb a b = true <-> a < b.
Proof. unfold Rltb. destruct (Rlt_dec a b); intuition discriminate. Qed.

Lemma Rleb_true (a b : R) : Rleb a b = true <-> a <= b.
Proof. unfold Rleb. destruct (Rle_dec a b); intuition discriminate. Qed.

Lemma sum_squares_big_sum (y : list R) :
  sum (map square y) = big_sum (length y) (fun j => nth j y 0 * nth j y 0).
Proof.
  rewrite sum_big_sum, length_map. apply big_sum_ext. intros j Hj.
  rewrite (map_nth' _ _ _ 0) by lia. reflexivity.
Qed.

(** In exact arithmetic, [check_curve Yk Sk] is the curvature check of
    the spec on the pair [(y, s) = (Yk, Sk)]. *)
Lemma check_curve_curvature_ok (y s : list R) :
  length s = length y ->
  Pathfinder.check_curve y s = true <-> curvature_ok y s.
Proof.
  intros Hl. unfold Pathfinder.check_curve, curvature_ok. cbv zeta.
  rewrite sum_squares_big_sum, dot_big_sum by exact Hl.
  set (Dk := big_sum (length y) (fun j => nth j y 0 * nth j s 0)).
  set (yy := big_sum (length y) (fun j => nth j y 0 * nth j y 0)).
  assert (Hyy : 0 <= yy).
  { apply big_sum_nonneg. intros j _. nra. }
  unfold lit_1e12. unfold_R.
  rewrite andb_true_iff, Rltb_true, Rleb_true.
  replace (IZR (10 ^ 12)) with (10 ^ 12) by (simpl; lra).
  split; intros [H1 H2]; split; try exact H1.
  - rewrite Rabs_pos_eq in H2; [exact H2|].
    apply Rmult_le_pos; [exact Hyy|]. apply Rlt_le, Rinv_0_lt_compat, H1.
  - rewrite Rabs_pos_eq; [exact H2|].
    apply Rmult_le_pos; [exact Hyy|]. apply Rlt_le, Rinv_0_lt_compat, H1.
Qed.
End CurvatureCheck.

(** C8 (as amended): in exact arithmetic, for an elementwise-positive
    [alpha] and a pair [(y, s)] that passes the curvature check,
    [form_diag alpha y s] is, component by component, the
    Gilbert-Lemarechal update of the spec, and every component is
    positive. *)
Theorem form_diag_gilbert_lemarechal (alpha y s : list R) :
  length y = length alpha ->
  length s = length alpha ->
  Forall (fun a => (0 < a)%R) alpha ->
  curvature_ok y s ->
  length (Pathfinder.form_diag alpha y s) = length alpha /\
  forall i, i < length alpha ->
    nth i (Pathfinder.form_diag alpha y s) 0%R
    = gilbert_lemarechal alpha y s i /\
    (0 < nth i (Pathfinder.form_diag alpha y s) 0)%R.
Proof.
  intros Hy Hs Hpos [HDk _]. split.
  - apply form_diag_length; assumption.
  - intros i Hi. rewrite form_diag_nth by assumption. split; [reflexivity|].
    apply gilbert_lemarechal_pos; try assumption.
    rewrite <- Hy. exact HDk.
Qed.

(** The theorem at [alpha = (1, 2)], [y = (1, 1)], [s = (1, 3)], where
    [y^T s = 4] and [|y|^2 / (y^T s) = 1/2]. *)
Lemma form_diag_gilbert_lemarechal_witness :
  length (Pathfinder.form_diag [1; 2] [1; 1] [1; 3])%R = 2 /\
  forall i, i < 2 ->
    nth i (Pathfinder.form_diag [1; 2] [1; 1] [1; 3])%R 0%R
    = gilbert_lemarechal [1; 2]%R [1; 1]%R [1; 3]%R i /\
    (0 < nth i (Pathfinder.form_diag [1; 2] [1; 1] [1; 3])%R 0)%R.
Proof.
  apply (form_diag_gilbert_lemarechal [1; 2]%R [1; 1]%R [1; 3]%R).
  - reflexivity.
  - reflexivity.
  - repeat constructor; lra.
  - unfold curvature_ok, big_sum. simpl. split; lra.
Defined.

(** ** Shift invariance of the PSIS weights in exact arithmetic *)

Section PsisShift.
Open Scope R_scope.

Lemma Rltb_shift (a b c : R) : Rltb (a + c) (b + c) = Rltb a b.
Proof.
  unfold Rltb. destruct (Rlt_dec (a + c) (b + c)), (Rlt_dec a b);
    try reflexivity; exfalso; lra.
Qed.

Lemma maxCoeff_shift (l : list R) (c : R) :
  l <> [] ->
  maxCoeff (map (fun x => x + c) l) = maxCoeff l + c.
Proof.
  destruct l as [|x t]; [congruence | intros _].
  unfold maxCoeff. unfold_R. simpl. revert x.
  induction t as [|y t IH]; intros x; simpl.
  - reflexivity.
  - rewrite Rltb_shift. destruct (Rltb x y); apply IH.
Qed.

Lemma fold_Rmax_shift (t : list R) (x c : R) :
  fold_left Rmax (map (fun a => a + c) t) (x + c) = fold_left Rmax t x + c.
Proof.
  revert x; induction t as [|y t IH]; intros x; simpl.
  - reflexivity.
  - replace (Rmax (x + c) (y + c)) with (Rmax x y + c).
    + apply IH.
    + unfold Rmax. destruct (Rle_dec x y), (Rle_dec (x + c) (y + c));
        try reflexivity; exfalso; lra.
Qed.

Lemma log_sum_exp_shift (v : list R) (c : R) :
  v <> [] ->
  log_sum_exp (map (fun a => a + c) v) = log_sum_exp v + c.
Proof.
  destruct v as [|x t]; [congruence | intros _].
  unfold_R. unfold R_log_sum_exp.
  change (map (fun a => a + c) (x :: t))
    with ((x + c) :: map (fun a => a + c) t).
  cbv iota zeta. rewrite fold_Rmax_shift.
  set (m := fold_left Rmax t x).
  change ((x + c) :: map (fun a => a + c) t)
    with (map (fun a => a + c) (x :: t)).
  rewrite map_map.
  rewrite (map_ext (fun a => Rtrigo_def.exp (a + c - (m + c)))
                   (fun a => Rtrigo_def.exp (a - m))).
  - lra.
  - intros a. f_equal. lra.
Qed.

Lemma shifted_log_weights (lw : list R) (c : R) :
  let lw' := map (fun l => l + c) lw in
  map (fun l => l - maxCoeff lw') lw' = map (fun l => l - maxCoeff lw) lw.
Proof.
  cbv zeta. destruct lw as [|x t]; [reflexivity|].
  rewrite maxCoeff_shift by congruence. rewrite map_map.
  apply map_ext. intros a. lra.
Qed.

Lemma insert_smooth_to_tail_nil (idx : list Z) (smoothed : list R) :
  Psis.insert_smooth_to_tail [] idx smoothed = [].
Proof.
  unfold Psis.insert_smooth_to_tail.
  generalize (seq 0 (length idx)) as ks.
  induction ks as [|k ks IH]; simpl; [reflexivity | exact IH].
Qed.
End PsisShift.

(** C9 (as amended): in exact arithmetic, shifting every log-weight by
    the same scalar leaves the PSIS weights unchanged. *)
Theorem psis_weights_shift_invariant (lw : list R) (c : R) (tail_len : nat) :
  Psis.psis_weights (map (fun l => (l + c)%R) lw) tail_len
  = Psis.psis_weights lw tail_len.
Proof.
  unfold Psis.psis_weights.
  change (@sub R R_Arith) with Rminus.
  rewrite (shifted_log_weights lw c).
  set (lw_i := map (fun l => (l - maxCoeff lw)%R) lw).
  match goal with
  | |- context [map (fun l => if (of_Z 0 <? l)%D then of_Z 0 else l) ?m] =>
      set (lw_f := map (fun l => if (of_Z 0 <? l)%D then of_Z 0 else l) m)
  end.
  cbv zeta.
  destruct lw as [|x t].
  - assert (Hi : lw_i = []) by reflexivity.
    clearbody lw_i. subst lw_i.
    assert (E : lw_f = []).
    { subst lw_f. destruct (Nat.leb 5 tail_len); [|reflexivity].
      match goal with
      | |- context [if ?b then _ else _] => destruct b; [reflexivity|]
      end.
      rewrite insert_smooth_to_tail_nil. reflexivity. }
    rewrite E. reflexivity.
  - rewrite maxCoeff_shift by congruence.
    destruct lw_f as [|z lw_f'] eqn:Ef; [reflexivity|].
    rewrite <- Ef.
    rewrite (map_ext (fun l => (l + (maxCoeff (x :: t) + c)%R)%D)
                     (fun l => ((l + maxCoeff (x :: t))%D + c)%R))
      by (intros a; unfold_R; lra).
    rewrite <- (map_map (fun l => (l + maxCoeff (x :: t))%D) (fun a => (a + c)%R)).
    set (max_adj := map (fun l => (l + maxCoeff (x :: t))%D) lw_f).
    rewrite log_sum_exp_shift
      by (subst max_adj; rewrite Ef; simpl; congruence).
    rewrite map_map. apply map_ext. intros a. unfold_R. f_equal. lra.
Qed.

(** ** ELBO estimation *)

Section UpdFacts.
Context {X : Type}.

Lemma upd_length (l : list X) (i : nat) (x : X) :
  length (upd l i x) = length l.
Proof.
  revert i; induction l as [|y l IH]; intros [|i]; simpl; auto.
Qed.

Lemma upd_nth_same (l : list X) (i : nat) (x d : X) :
  (i < length l)%nat -> nth i (upd l i x) d = x.
Proof.
  revert i; induction l as [|y l IH]; intros [|i] H; simpl in *;
    try lia; auto.
  apply IH; lia.
Qed.

Lemma upd_nth_other (l : list X) (i j : nat) (x d : X) :
  i <> j -> nth j (upd l i x) d = nth j l d.
Proof.
  revert i j; induction l as [|y l IH]; intros [|i] [|j] H; simpl;
    try congruence; auto.
Qed.

End UpdFacts.

Section EstimationProofs.
Context {D : Type} {A : Arith D} {I : HasInf D}.
Variable rng : Type.
Variable rand_unit_gaus : rng -> D * rng.
Variable lp_fun : list D -> outcome D.

(** What one turn of the loop leaves in row [i] of the second column
    when it does not let an exception out. *)
Let lp_target (x : list D) : D :=
  match lp_fun x with
  | Ret v => v
  | Throw _ => (- infinity)%D
  end.

Lemma lp_loop_body_eq (samples : Mat D) (n : nat) (c0 c1 : list D)
      (k i : nat) :
  Pathfinder.lp_loop_body lp_fun samples (mkMat n 2 [c0; c1], k) i
  = match lp_fun (col samples i) with
    | Throw (other_exception what) => Throw (other_exception what)
    | _ => Ret (mkMat n 2 [c0; upd c1 i (lp_target (col samples i))], S k)
    end.
Proof.
  unfold Pathfinder.lp_loop_body, Pathfinder.set_coeff, lp_target, col.
  simpl. destruct (lp_fun (nth i (columns samples) [])) as [v|[w|w]];
    reflexivity.
Qed.

(** The loop over the draws: it ends normally exactly when no draw
    makes [lp_fun] throw something that is not a [std::exception]; it
    has then gone through every draw. *)
Lemma lp_loop_for_each (samples : Mat D) (n : nat) (ks : list nat) :
  forall (c1 : list D) (k : nat) (c0 : list D),
    match for_each (Pathfinder.lp_loop_body lp_fun samples) ks
                   (mkMat n 2 [c0; c1], k) with
    | Ret r =>
        r = (mkMat n 2
               [c0; fold_left (fun c i => upd c i (lp_target (col samples i)))
                              ks c1],
             (k + length ks)%nat) /\
        (forall i e, In i ks -> lp_fun (col samples i) = Throw e ->
                     is_std_exception e = true)
    | Throw e =>
        is_std_exception e = false /\
        exists i, In i ks /\ lp_fun (col samples i) = Throw e
    end.
Proof.
  induction ks as [|i ks IH]; intros c1 k c0; cbn [for_each fold_left length].
  - rewrite Nat.add_0_r. split; [reflexivity | intros i e []].
  - rewrite lp_loop_body_eq.
    destruct (lp_fun (col samples i)) as [v|[w|w]] eqn:Ei.
    + specialize (IH (upd c1 i (lp_target (col samples i))) (S k) c0).
      destruct (for_each _ ks _) as [r|e].
      * destruct IH as [-> H]. split; [f_equal; lia|].
        intros j e [<-|Hj] Hthrow; [congruence | eapply H; eassumption].
      * destruct IH as [H1 (j & Hj & H2)]. split; [exact H1|].
        exists j. split; [right; exact Hj | exact H2].
    + specialize (IH (upd c1 i (lp_target (col samples i))) (S k) c0).
      destruct (for_each _ ks _) as [r|e].
      * destruct IH as [-> H]. split; [f_equal; lia|].
        intros j e [<-|Hj] Hthrow;
          [rewrite Ei in Hthrow; injection Hthrow as <-; reflexivity
          | eapply H; eassumption].
      * destruct IH as [H1 (j & Hj & H2)]. split; [exact H1|].
        exists j. split; [right; exact Hj | exact H2].
    + split; [reflexivity|]. exists i. split; [left; reflexivity | exact Ei].
Qed.

Lemma lp_column_length (samples : Mat D) (ks : list nat) (c : list D) :
  length (fold_left (fun c i => upd c i (lp_target (col samples i))) ks c)
  = length c.
Proof.
  revert c; induction ks as [|k ks IH]; intros c; simpl; [reflexivity|].
  rewrite IH. apply upd_length.
Qed.

(** The generator after [k] variates. *)
Local Abbreviation advance k g :=
  (Nat.iter k (fun g0 => snd (rand_unit_gaus g0)) g) (only parsing).

Lemma iter_shift {X : Type} (f : X -> X) (k : nat) (x : X) :
  Nat.iter k f (f x) = f (Nat.iter k f x).
Proof.
  induction k as [|k IH]; simpl; [reflexivity | rewrite IH; reflexivity].
Qed.

Lemma iter_add {X : Type} (f : X -> X) (j k : nat) (x : X) :
  Nat.iter (j + k) f x = Nat.iter k f (Nat.iter j f x).
Proof.
  induction j as [|j IH]; simpl; [reflexivity|].
  rewrite IH, iter_shift. reflexivity.
Qed.

Lemma generate_column_spec (n : nat) (g : rng) :
  length (fst (Pathfinder.generate_column rand_unit_gaus n g)) = n /\
  snd (Pathfinder.generate_column rand_unit_gaus n g) = advance n g.
Proof.
  revert g; induction n as [|n IH]; intros g; simpl; [split; reflexivity|].
  destruct (rand_unit_gaus g) as [x g1] eqn:E1.
  specialize (IH g1).
  destruct (Pathfinder.generate_column rand_unit_gaus n g1) as [t g2].
  cbn [fst snd length] in *. destruct IH as [IH1 IH2]. split; [congruence|].
  rewrite IH2.
  transitivity (Nat.iter n (fun g0 => snd (rand_unit_gaus g0))
                         (snd (rand_unit_gaus g)));
    [rewrite E1; reflexivity|].
  apply (iter_shift (fun g0 => snd (rand_unit_gaus g0))).
Qed.

Lemma generate_columns_spec (c r : nat) (g : rng) :
  length (fst (Pathfinder.generate_columns rand_unit_gaus c r g)) = c /\
  Forall (fun x => length x = r)
         (fst (Pathfinder.generate_columns rand_unit_gaus c r g)) /\
  snd (Pathfinder.generate_columns rand_unit_gaus c r g)
  = advance (r * c) g.
Proof.
  revert g; induction c as [|c IH]; intros g; simpl.
  - rewrite Nat.mul_0_r. repeat split. constructor.
  - pose proof (generate_column_spec r g) as [C1 C2].
    destruct (Pathfinder.generate_column rand_unit_gaus r g) as [x g1].
    specialize (IH g1).
    destruct (Pathfinder.generate_columns rand_unit_gaus c r g1) as [t g2].
    simpl in *. destruct IH as (IH1 & IH2 & IH3).
    split; [congruence|]. split; [constructor; assumption|].
    rewrite IH3, C2. replace (r * S c) with (r + r * c) by lia.
    rewrite iter_add. reflexivity.
Qed.

Lemma approximate_samples_columns (u : Mat D)
      (t : Pathfinder.taylor_approx_t D) :
  cols (Pathfinder.approximate_samples u t) = cols u /\
  length (columns (Pathfinder.approximate_samples u t)) = cols u.
Proof.
  unfold Pathfinder.approximate_samples.
  destruct (Pathfinder.use_full t); simpl;
    rewrite length_map, length_seq; split; reflexivity.
Qed.

(** [est_approx_draws], with its loop in closed form: what it returns
    when it returns, and why it does not when it does not. *)
Lemma est_approx_draws_spec (ReturnElbo : bool) (g : rng)
      (t : Pathfinder.taylor_approx_t D) (num_samples : nat) :
  let num_params := length (Pathfinder.x_center t) in
  let gen := Pathfinder.generate_matrix rand_unit_gaus g num_params
                                        num_samples in
  let draws := Pathfinder.approximate_samples (fst gen) t in
  let lp_col0 :=
    map (fun u =>
           ((- Pathfinder.logdetcholHk t)
            + (- half) * (sum (map square u)
                          + of_Z (Z.of_nat num_params) * LOG_TWO_PI))%D)
        (columns (fst gen)) in
  let lp_col1 :=
    fold_left (fun c i => upd c i (lp_target (col draws i)))
              (seq 0 num_samples) (repeat (of_Z 0) num_samples) in
  let run := Pathfinder.est_approx_draws rand_unit_gaus lp_fun ReturnElbo
                                         g t num_samples in
  snd run = snd gen /\
  match fst run with
  | Ret E =>
      E = {| Pathfinder.elbo :=
               if ReturnElbo then mean (vsub lp_col1 lp_col0)
               else (- infinity)%D;
             Pathfinder.fn_calls := num_samples;
             Pathfinder.repeat_draws := draws;
             Pathfinder.lp_mat := mkMat num_samples 2 [lp_col0; lp_col1];
             Pathfinder.lp_ratio := vsub lp_col1 lp_col0 |} /\
      (forall i e, (i < num_samples)%nat ->
                   lp_fun (col draws i) = Throw e ->
                   is_std_exception e = true)
  | Throw e =>
      is_std_exception e = false /\
      exists i, (i < num_samples)%nat /\ lp_fun (col draws i) = Throw e
  end.
Proof.
  cbv zeta. unfold Pathfinder.est_approx_draws.
  destruct (Pathfinder.generate_matrix rand_unit_gaus g
              (length (Pathfinder.x_center t)) num_samples)
    as [unit_samps g'].
  cbn [fst snd].
  match goal with
  | |- context [for_each (Pathfinder.lp_loop_body lp_fun ?s) ?ks
                         (mkMat ?n 2 [?c0; ?c1], ?k)] =>
      pose proof (lp_loop_for_each s n ks c1 k c0) as L;
      destruct (for_each (Pathfinder.lp_loop_body lp_fun s) ks
                         (mkMat n 2 [c0; c1], k)) as [[m calls]|e]
  end.
  - destruct L as [L1 L2]. injection L1 as -> ->.
    rewrite ?length_seq, ?Nat.add_0_l.
    destruct ReturnElbo; cbn [fst snd]; (split; [reflexivity|]);
      (split; [reflexivity|]);
      intros i e Hi; apply L2; apply in_seq; lia.
  - destruct L as [L1 (i & Hi & L2)]. cbn [fst snd].
    split; [reflexivity|]. split; [exact L1|].
    exists i. apply in_seq in Hi. split; [lia | exact L2].
Qed.
End EstimationProofs.


(** C5 (as amended): when [est_approx_draws] returns with
    [ReturnElbo = true], the first column of [lp_mat] holds the
    log-density of each draw under the approximation, the record holds
    [lp_ratio = lp_mat[:,1] - lp_mat[:,0]], and its [elbo] is the mean
    of [lp_ratio], whatever that mean is; it does not return only when
    [lp_fun] threw, on one of the draws, something that is not a
    [std::exception]. *)
Theorem est_approx_draws_elbo_is_mean
        {D : Type} {A : Arith D} {I : HasInf D}
        (rng : Type) (rand_unit_gaus : rng -> D * rng)
        (lp_fun : list D -> outcome D) (g : rng)
        (taylor_approx : Pathfinder.taylor_approx_t D) (num_samples : nat) :
  let num_params := length (Pathfinder.x_center taylor_approx) in
  let unit_samps :=
    fst (Pathfinder.generate_matrix rand_unit_gaus g num_params
                                    num_samples) in
  match fst (Pathfinder.est_approx_draws rand_unit_gaus lp_fun true
                                         g taylor_approx num_samples) with
  | Ret E =>
      col (Pathfinder.lp_mat E) 0
      = map (fun u =>
               ((- Pathfinder.logdetcholHk taylor_approx)
                + (- half) * (sum (map square u)
                              + of_Z (Z.of_nat num_params) * LOG_TWO_PI))%D)
            (columns unit_samps)
      /\ Pathfinder.lp_ratio E
         = vsub (col (Pathfinder.lp_mat E) 1) (col (Pathfinder.lp_mat E) 0)
      /\ Pathfinder.elbo E = mean (Pathfinder.lp_ratio E)
  | Throw e =>
      is_std_exception e = false /\
      exists i, (i < num_samples)%nat /\
        lp_fun (col (Pathfinder.approximate_samples unit_samps
                                                    taylor_approx) i)
        = Throw e
  end.
Proof.
  cbv zeta.
  pose proof (est_approx_draws_spec rng rand_unit_gaus lp_fun true g
                taylor_approx num_samples) as S.
  cbv zeta in S. destruct S as [_ S].
  destruct (fst (Pathfinder.est_approx_draws rand_unit_gaus lp_fun true g
                   taylor_approx num_samples)) as [E|e].
  - destruct S as [-> _]. repeat split; reflexivity.
  - exact S.
Qed.

(** ** The bound on the recursion of [quick_sort] is never reached *)

Section QuickSortFuel.
Context {D : Type} {A : Arith D}.

Lemma partition_loop_index (pivot : D) (js : list Z) (arr : list D)
      (idx : list Z) (i : Z) :
  let '(_, _, i') :=
    fold_left
      (fun (st : list D * list Z * Z) (j : Z) =>
         let '(arr, idx, i) := st in
         if (Psis.at_ (of_Z 0) arr j <=? pivot)%D then
           let i := (i + 1)%Z in
           (Psis.swap (of_Z 0) arr i j, Psis.swap 0%Z idx i j, i)
         else st)
      js (arr, idx, i) in
  (i <= i' <= i + Z.of_nat (length js))%Z.
Proof.
  revert arr idx i; induction js as [|j js IH]; intros arr idx i.
  - simpl. lia.
  - cbn [fold_left length].
    destruct (Psis.at_ (of_Z 0) arr j <=? pivot)%D.
    + specialize (IH (Psis.swap (of_Z 0) arr (i + 1) j)
                     (Psis.swap 0%Z idx (i + 1) j) (i + 1)%Z).
      destruct (fold_left _ js _) as [[a' x'] i']. lia.
    + specialize (IH arr idx i).
      destruct (fold_left _ js _) as [[a' x'] i']. lia.
Qed.

Lemma partition_index_range (arr : list D) (idx : list Z) (low high : Z) :
  (low <= high)%Z ->
  let '(_, _, p) := Psis.quick_sort_partition arr idx low high in
  (low <= p <= high)%Z.
Proof.
  intros H. unfold Psis.quick_sort_partition.
  pose proof (partition_loop_index (Psis.at_ (of_Z 0) arr high)
                (Psis.range low high) arr idx (low - 1)) as L.
  destruct (fold_left _ (Psis.range low high) _) as [[a' x'] i'].
  unfold Psis.range in L. rewrite length_map, length_seq in L.
  cbv beta iota zeta in L |- *. lia.
Qed.

Lemma quick_sort_range_fuel (f f' : nat) (arr : list D) (idx : list Z)
      (low high : Z) :
  (high - low < Z.of_nat f)%Z -> (high - low < Z.of_nat f')%Z ->
  Psis.quick_sort_range f arr idx low high
  = Psis.quick_sort_range f' arr idx low high.
Proof.
  revert f' arr idx low high.
  induction f as [|f IH]; intros f' arr idx low high Hf Hf'.
  - destruct f' as [|f']; [reflexivity|].
    simpl. destruct (Z.ltb_spec low high); [lia | reflexivity].
  - destruct f' as [|f'].
    + simpl. destruct (Z.ltb_spec low high); [lia | reflexivity].
    + simpl. destruct (Z.ltb_spec low high) as [Hlt|]; [|reflexivity].
      pose proof (partition_index_range arr idx low high) as P.
      destruct (Psis.quick_sort_partition arr idx low high) as [[a1 x1] p].
      assert (low <= p <= high)%Z by (apply P; lia).
      rewrite (IH f' a1 x1 low (p - 1)%Z) by lia.
      destruct (Psis.quick_sort_range f' a1 x1 low (p - 1)) as [a2 x2].
      apply IH; lia.
Qed.

(** [quick_sort] gives what any larger bound gives. *)
Lemma quick_sort_enough_fuel (arr : list D) (idx : list Z) (f : nat) :
  length arr <= f ->
  Psis.quick_sort arr idx
  = Psis.quick_sort_range f arr idx 0 (Z.of_nat (length arr) - 1).
Proof.
  intros H. unfold Psis.quick_sort.
  destruct arr as [|x arr].
  - destruct f; reflexivity.
  - cbn [length] in *. apply quick_sort_range_fuel; lia.
Qed.
End QuickSortFuel.

(** ** The choice between the dense and the sparse approximation *)

(** C6: [taylor_approximation] builds the dense approximation, with
    [use_full = true], exactly when twice the number of columns of the
    history matrix is at least the parameter dimension, and the sparse
    one, with [use_full = false], otherwise; the earlier revision
    [construct_taylor_approximation] decides in the same way on its
    vector of history columns. *)
Theorem taylor_approximation_dense_iff
        {D : Type} {A : Arith D} {M : MathLib D} {E : EigenLib D}
        (Ykt_mat : Mat D) (Ykt_h : list (list D)) (alpha Dk : list D)
        (ninvRST : Mat D) (point_est grad_est : list D) :
  let n := cols Ykt_mat in
  let d := rows Ykt_mat in
  let T := Pathfinder.taylor_approximation Ykt_mat alpha Dk ninvRST
                                           point_est grad_est in
  let n' := length Ykt_h in
  let d' := length (nth 0 Ykt_h []) in
  let T' := Optimize.construct_taylor_approximation Ykt_h alpha Dk ninvRST
                                                    point_est grad_est in
  (Pathfinder.use_full T = true <-> (d <= 2 * n)%nat) /\
  ((d <= 2 * n)%nat ->
   T = Pathfinder.taylor_approximation_full Ykt_mat alpha Dk ninvRST
                                            point_est grad_est) /\
  ((2 * n < d)%nat ->
   T = Pathfinder.taylor_approximation_sparse Ykt_mat alpha Dk ninvRST
                                              point_est grad_est
   /\ Pathfinder.use_full T = false) /\
  (Optimize.use_full T' = true <-> (d' <= 2 * n')%nat) /\
  ((d' <= 2 * n')%nat ->
   T' = Optimize.construct_taylor_approximation_full
          Ykt_h alpha Dk ninvRST point_est grad_est) /\
  ((2 * n' < d')%nat ->
   T' = Optimize.construct_taylor_approximation_sparse
          Ykt_h alpha Dk ninvRST point_est grad_est
   /\ Optimize.use_full T' = false).
Proof.
  cbv zeta.
  unfold Pathfinder.taylor_approximation,
         Optimize.construct_taylor_approximation.
  destruct (Nat.leb_spec (rows Ykt_mat) (2 * cols Ykt_mat)) as [H|H];
    destruct (Nat.leb_spec (length (nth 0 Ykt_h [])) (2 * length Ykt_h))
      as [H'|H'];
    repeat split; intros; try lia; try reflexivity; try discriminate.
Qed.

(** ** The driver loop *)

Section DriverProofs.
Context {D : Type} {A : Arith D} {I : HasInf D} {M : MathLib D}
        {E : EigenLib D}.
Variable rng : Type.
Variable rand_unit_gaus : rng -> D * rng.
Variable lp_fun : list D -> outcome D.
Variable constrain_fun : rng -> list D -> outcome (list D) * rng.
Variable optimizer : Type.
Variable lbfgs_step : optimizer -> Z * optimizer.
Variable curr_x : optimizer -> list D.
Variable curr_g : optimizer -> list D.
Variable iter_num : optimizer -> Z.
Variable grad_evals : optimizer -> nat.
Variable interrupt_t : Type.
Variable interrupt : interrupt_t -> outcome interrupt_t.
Variable history_size : nat.
Variable num_elbo_draws : nat.
Variable num_draws : nat.

Let state := Pathfinder.loop_state D rng optimizer interrupt_t.
Let body :=
  Pathfinder.loop_body rand_unit_gaus lp_fun lbfgs_step curr_x curr_g
                       iter_num interrupt history_size num_elbo_draws.
Let loop :=
  Pathfinder.lbfgs_loop rand_unit_gaus lp_fun lbfgs_step curr_x curr_g
                        iter_num interrupt history_size num_elbo_draws.
Let reaches :=
  Pathfinder.reaches rand_unit_gaus lp_fun lbfgs_step curr_x curr_g
                     iter_num interrupt history_size num_elbo_draws.

(** [pathfinder_impl] returns an estimate of [num_elbo_draws] draws, and
    never the default records of its handler: [est_approx_draws] lets no
    [std::exception] out.  It throws what [lp_fun] threw on a draw and is
    not a [std::exception]. *)
Lemma pathfinder_impl_cases (g : rng) (alpha x gr : list D) (Y S : Mat D) :
  match Pathfinder.pathfinder_impl rand_unit_gaus lp_fun g alpha x gr Y S
                                   num_elbo_draws with
  | (Ret res, _) =>
      Pathfinder.fn_calls (fst res) = num_elbo_draws /\
      length (Pathfinder.lp_ratio (fst res)) = num_elbo_draws /\
      length (columns (Pathfinder.repeat_draws (fst res))) = num_elbo_draws
  | (Throw e, _) =>
      is_std_exception e = false /\ exists d, lp_fun d = Throw e
  end.
Proof.
  unfold Pathfinder.pathfinder_impl. cbv zeta.
  match goal with
  | |- context [Pathfinder.est_approx_draws _ _ true g ?t _] =>
      pose proof (est_approx_draws_spec rng rand_unit_gaus lp_fun true g t
                    num_elbo_draws) as F;
      pose proof (approximate_samples_columns
                    (fst (Pathfinder.generate_matrix rand_unit_gaus g
                            (length (Pathfinder.x_center t))
                            num_elbo_draws)) t) as [_ C];
      pose proof (generate_columns_spec rng rand_unit_gaus num_elbo_draws
                    (length (Pathfinder.x_center t)) g) as (G & _ & _);
      unfold Pathfinder.generate_matrix in F, C;
      destruct (Pathfinder.generate_columns rand_unit_gaus num_elbo_draws
                  (length (Pathfinder.x_center t)) g) as [cs g0];
      destruct (Pathfinder.est_approx_draws rand_unit_gaus lp_fun true g t
                                            num_elbo_draws) as [[est|e] g']
  end; cbv zeta in F; cbn [fst snd columns cols] in *.
  - destruct F as [_ [-> _]].
    cbn [Pathfinder.fn_calls Pathfinder.lp_ratio Pathfinder.repeat_draws].
    split; [reflexivity|]. split; [|exact C].
    unfold vsub.
    rewrite map2_length, lp_column_length, repeat_length, length_map, G.
    apply Nat.min_id.
  - destruct F as [_ [F1 (i & _ & F2)]].
    destruct e as [w|w]; [discriminate|].
    split; [reflexivity|]. eexists. exact F2.
Qed.

(** What [update_best] leaves untouched. *)
Lemma update_best_keeps (n : nat) (st st' : state) :
  Pathfinder.update_best rand_unit_gaus lp_fun curr_x curr_g iter_num
                         num_elbo_draws n st = Ret st' ->
  Pathfinder.lbfgs st' = Pathfinder.lbfgs st /\
  Pathfinder.ret st' = Pathfinder.ret st /\
  Pathfinder.param_buff st' = Pathfinder.param_buff st /\
  Pathfinder.grad_buff st' = Pathfinder.grad_buff st /\
  Pathfinder.current_history_size st' = Pathfinder.current_history_size st /\
  Pathfinder.alpha_st st' = Pathfinder.alpha_st st.
Proof.
  unfold Pathfinder.update_best. cbv zeta.
  destruct (Pathfinder.pathfinder_impl _ _ _ _ _ _ _ _ _) as [[res|e] g'];
    [|discriminate].
  intros H. injection H as <-. repeat split.
Qed.

(** With a log density that throws nothing but [std::exception]s,
    [update_best] returns. *)
Lemma update_best_returns (n : nat) (st : state) :
  throws_std_only lp_fun ->
  exists st',
    Pathfinder.update_best rand_unit_gaus lp_fun curr_x curr_g iter_num
                           num_elbo_draws n st = Ret st'.
Proof.
  intros Hstd. unfold Pathfinder.update_best. cbv zeta.
  match goal with
  | |- context [Pathfinder.pathfinder_impl _ _ ?g ?a ?x ?gr ?Y ?S _] =>
      pose proof (pathfinder_impl_cases g a x gr Y S) as P;
      destruct (Pathfinder.pathfinder_impl rand_unit_gaus lp_fun g a x gr
                                           Y S num_elbo_draws)
        as [[res|e] g']
  end.
  - eexists. reflexivity.
  - destruct P as [P1 (d & P2)]. rewrite (Hstd _ _ P2) in P1. discriminate.
Qed.

(** A turn in which the interrupt lets the run go on and the step does
    not answer [-1]. *)
Lemma loop_body_step (n : nat) (st : state) (ist : interrupt_t)
      (r : Z) (lb : optimizer) :
  interrupt (Pathfinder.interrupt_st st) = Ret ist ->
  lbfgs_step (Pathfinder.lbfgs st) = (r, lb) ->
  r <> (-1)%Z ->
  body n st
  = Pathfinder.update_best rand_unit_gaus lp_fun curr_x curr_g
      iter_num num_elbo_draws n
      (Pathfinder.update_history curr_x curr_g history_size
                                 st lb r ist).
Proof.
  intros Hi Hs Hr. unfold body, Pathfinder.loop_body.
  rewrite Hi. simpl. rewrite Hs.
  destruct (Z.eqb_spec r (-1)) as [e|_]; [contradiction|]. reflexivity.
Qed.

(** Both differences enter the buffers in every such turn, whatever
    the curvature check answers. *)
Lemma loop_body_pushes (n : nat) (st : state) (ist : interrupt_t)
      (r : Z) (lb : optimizer) :
  throws_std_only lp_fun ->
  interrupt (Pathfinder.interrupt_st st) = Ret ist ->
  lbfgs_step (Pathfinder.lbfgs st) = (r, lb) ->
  r <> (-1)%Z ->
  exists st',
    body n st = Ret st' /\
    Pathfinder.param_buff st'
    = Pathfinder.cb_push_back history_size (Pathfinder.param_buff st)
        (vsub (curr_x lb) (Pathfinder.prev_params st)) /\
    Pathfinder.grad_buff st'
    = Pathfinder.cb_push_back history_size (Pathfinder.grad_buff st)
        (vsub (curr_g lb) (Pathfinder.prev_grads st)).
Proof.
  intros Hstd Hi Hs Hr.
  destruct (update_best_returns n
              (Pathfinder.update_history curr_x curr_g history_size
                                         st lb r ist) Hstd) as [st' Hb].
  destruct (update_best_keeps _ _ _ Hb) as (_ & _ & Hp & Hg & _).
  exists st'. split.
  - rewrite (loop_body_step n st ist r lb Hi Hs Hr). exact Hb.
  - rewrite Hp, Hg. split; reflexivity.
Qed.

(** The update of [alpha] in such a turn is decided by [check_curve]
    called on the parameter difference first and the gradient
    difference second. *)
Lemma loop_body_alpha (n : nat) (st : state) (ist : interrupt_t)
      (r : Z) (lb : optimizer) :
  throws_std_only lp_fun ->
  interrupt (Pathfinder.interrupt_st st) = Ret ist ->
  lbfgs_step (Pathfinder.lbfgs st) = (r, lb) ->
  r <> (-1)%Z ->
  exists st',
    body n st = Ret st' /\
    let s := last (Pathfinder.param_buff st') [] in
    let y := last (Pathfinder.grad_buff st') [] in
    Pathfinder.alpha_st st'
    = if Pathfinder.check_curve s y
      then Pathfinder.form_diag (Pathfinder.alpha_st st) y s
      else Pathfinder.alpha_st st.
Proof.
  intros Hstd Hi Hs Hr.
  destruct (update_best_returns n
              (Pathfinder.update_history curr_x curr_g history_size
                                         st lb r ist) Hstd) as [st' Hb].
  destruct (update_best_keeps _ _ _ Hb) as (_ & _ & Hp & Hg & _ & Ha).
  exists st'. split.
  - rewrite (loop_body_step n st ist r lb Hi Hs Hr). exact Hb.
  - cbv zeta. rewrite Hp, Hg, Ha. reflexivity.
Qed.

Lemma loop_unfold (n fuel : nat) (st : state) :
  Pathfinder.ret st = 0%Z ->
  loop n (S fuel) st
  = match body n st with
    | Ret st' => loop n fuel st'
    | Throw e => Some (Throw e)
    end.
Proof.
  intros H. unfold loop, body. simpl. rewrite H. reflexivity.
Qed.

Lemma loop_reaches (n : nat) (st st' : state) :
  reaches n st st' ->
  exists k, forall fuel, loop n (k + fuel) st = loop n fuel st'.
Proof.
  induction 1 as [st | st st1 st2 Hret Hbody _ [k IH]].
  - exists 0. reflexivity.
  - exists (S k). intros fuel. simpl plus.
    rewrite loop_unfold by exact Hret.
    fold body in Hbody. rewrite Hbody. apply IH.
Qed.

(** C4 (as amended): when [interrupt()] throws in a turn of the loop,
    the exception leaves [pathfinder_lbfgs_single]: no return code and
    no outputs are produced. *)
Theorem interrupt_exception_propagates
        (names_size : nat) (lbfgs0 : optimizer) (i0 : interrupt_t)
        (g0 : rng) (cont_vector g1 : list D) (st : state) (e : exn) :
  reaches (length cont_vector)
          (Pathfinder.initial_state grad_evals lbfgs0 i0 g0 cont_vector g1)
          st ->
  Pathfinder.ret st = 0%Z ->
  interrupt (Pathfinder.interrupt_st st) = Throw e ->
  exists fuel0, forall fuel, fuel0 <= fuel ->
    Pathfinder.pathfinder_lbfgs_single
      rand_unit_gaus lp_fun constrain_fun lbfgs_step curr_x curr_g
      iter_num grad_evals interrupt history_size num_elbo_draws num_draws
      fuel names_size lbfgs0 i0 g0 cont_vector g1
    = Some (Throw e).
Proof.
  intros Hreach Hret Hint.
  destruct (loop_reaches _ _ _ Hreach) as [k Hk].
  exists (k + 1). intros fuel Hfuel.
  replace fuel with (k + S (fuel - k - 1)) by lia.
  unfold Pathfinder.pathfinder_lbfgs_single. cbv zeta.
  fold loop. rewrite Hk, loop_unfold by exact Hret.
  unfold body, Pathfinder.loop_body. rewrite Hint. reflexivity.
Qed.
End DriverProofs.

(** ** Evaluations on IEEE binary64 *)

(** C1: on the log-weights [-3, -6, -1, -5, -2, -4, 0] (already shifted,
    their maximum is 0) and the tail length 5, [max_n_elements], called
    with 6, returns the first six entries sorted, with their positions:
    the largest entry, 0 at position 6, is left out, and the cutoff is
    -6 where the six largest values have -5. *)
Theorem max_n_elements_returns_sorted_head :
  let lw := [-3; -6; -1; -5; -2; -4; 0]%float in
  maxCoeff lw = 0%float /\
  Psis.max_n_elements lw 6
  = ([-6; -5; -4; -3; -2; -1]%float, [1; 3; 5; 0; 4; 2]%Z) /\
  ~ In 6%Z (snd (Psis.max_n_elements lw 6)).
Proof.
  cbv zeta. split; [vm_compute; reflexivity|].
  split; [vm_compute; reflexivity|].
  vm_compute. intuition discriminate.
Qed.

(** Whatever follows the first [n] entries is never read. *)
Lemma max_n_elements_head {D : Type} {A : Arith D} (lw : list D) (n : nat) :
  Psis.max_n_elements lw n = Psis.max_n_elements (firstn n lw) n.
Proof.
  unfold Psis.max_n_elements, Psis.range.
  rewrite firstn_firstn, Nat.min_id, Z.sub_diag. reflexivity.
Qed.

(** C2: first turn of the loop from the point 0 with gradient 0, the
    optimizer moving to the point 1 with gradient -1.  The pair
    [(y, s) = (-1, 1)] has [s^T y < 0] and fails the curvature check,
    yet it is in the history after the turn. *)
Theorem rejected_pair_enters_history (M : MathLib float) (E : EigenLib float) :
  let st := Pathfinder.initial_state (rng := unit) (interrupt_t := unit)
              Example.evals0 tt tt tt [0]%float [0]%float in
  let s := [1]%float in
  let y := [-1]%float in
  Pathfinder.check_curve y s = false /\
  Pathfinder.check_curve s y = false /\
  Pathfinder.param_buff st = [] /\
  Pathfinder.grad_buff st = [] /\
  exists st',
    Pathfinder.loop_body
      Example.zero_gaus Example.lp_zero Example.step_ok
      (Example.at_point s) (Example.at_point y) Example.iter0
      Example.interrupt_continue 5 1 1 st = Ret st' /\
    Pathfinder.param_buff st' = [s] /\
    Pathfinder.grad_buff st' = [y].
Proof.
  cbv zeta. repeat (split; [vm_compute; reflexivity|]).
  destruct (loop_body_pushes
              (M := M) (E := E) unit Example.zero_gaus Example.lp_zero
              unit Example.step_ok
              (Example.at_point [1]%float) (Example.at_point [-1]%float)
              Example.iter0 unit Example.interrupt_continue 5 1 1
              (Pathfinder.initial_state Example.evals0 tt tt tt
                                        [0]%float [0]%float)
              tt 0%Z tt)
    as (st' & Hb & Hp & Hg);
    [intros x e H; discriminate | reflexivity | reflexivity | discriminate|].
  exists st'. split; [exact Hb|].
  rewrite Hp, Hg. split; vm_compute; reflexivity.
Qed.

(** C3: first turn of the loop from the point 0 with gradient 0, the
    optimizer moving to the point [2^-50] with gradient 1.  The pair
    [(y, s) = (1, 2^-50)] has [|y|^2 / (y^T s) = 2^50 > 10^12] and fails
    the curvature check of the spec, yet [alpha] is updated: the driver
    passes [s] where [check_curve] expects [y]. *)
Theorem alpha_updated_on_rejected_pair (M : MathLib float) (E : EigenLib float) :
  let st := Pathfinder.initial_state (rng := unit) (interrupt_t := unit)
              Example.evals0 tt tt tt [0]%float [0]%float in
  let s := [0x1p-50]%float in
  let y := [1]%float in
  Pathfinder.check_curve y s = false /\
  Pathfinder.check_curve s y = true /\
  Pathfinder.alpha_st st = [1]%float /\
  exists st',
    Pathfinder.loop_body
      Example.zero_gaus Example.lp_zero Example.step_ok
      (Example.at_point s) (Example.at_point y) Example.iter0
      Example.interrupt_continue 5 1 1 st = Ret st' /\
    Pathfinder.alpha_st st' = Pathfinder.form_diag [1]%float y s /\
    Pathfinder.alpha_st st' = [0x1p-50]%float.
Proof.
  cbv zeta. repeat (split; [vm_compute; reflexivity|]).
  destruct (loop_body_alpha
              (M := M) (E := E) unit Example.zero_gaus Example.lp_zero
              unit Example.step_ok
              (Example.at_point [0x1p-50]%float)
              (Example.at_point [1]%float)
              Example.iter0 unit Example.interrupt_continue 5 1 1
              (Pathfinder.initial_state Example.evals0 tt tt tt
                                        [0]%float [0]%float)
              tt 0%Z tt)
    as (st' & Hb & Ha);
    [intros x e H; discriminate | reflexivity | reflexivity | discriminate|].
  destruct (loop_body_pushes
              (M := M) (E := E) unit Example.zero_gaus Example.lp_zero
              unit Example.step_ok
              (Example.at_point [0x1p-50]%float)
              (Example.at_point [1]%float)
              Example.iter0 unit Example.interrupt_continue 5 1 1
              (Pathfinder.initial_state Example.evals0 tt tt tt
                                        [0]%float [0]%float)
              tt 0%Z tt)
    as (st'' & Hb' & Hp & Hg);
    [intros x e H; discriminate | reflexivity | reflexivity | discriminate|].
  rewrite Hb in Hb'. injection Hb' as <-.
  exists st'. split; [exact Hb|].
  cbv zeta in Ha. rewrite Hp, Hg in Ha. rewrite Ha.
  split; vm_compute; reflexivity.
Qed.

(** C4, the claim as stated fails: with an interrupt callback that
    throws, the run of the driver ends with the exception, not with the
    software-error code. *)
Lemma interrupt_exception_not_returned :
  let run :=
    Pathfinder.pathfinder_lbfgs_single
      (M := Example.no_libm) (E := Example.no_eigen)
      Example.zero_gaus Example.lp_zero Example.constrain_id Example.step_ok
      (Example.at_point [1]%float) (Example.at_point [1]%float)
      Example.iter0 Example.evals0 Example.interrupt_throw
      5 1 1 10 3 tt tt tt [0]%float [0]%float in
  run = Some (Throw Example.interrupted) /\ ~ returns_software_error run.
Proof.
  cbv zeta. split.
  - vm_compute. reflexivity.
  - intros [evals H]. vm_compute in H. discriminate.
Qed.

(** The theorem on the same run, for every bound on the number of
    turns: the interrupt throws in the first turn. *)
Lemma interrupt_exception_propagates_witness :
  exists fuel0, forall fuel, fuel0 <= fuel ->
    Pathfinder.pathfinder_lbfgs_single
      (M := Example.no_libm) (E := Example.no_eigen)
      Example.zero_gaus Example.lp_zero Example.constrain_id Example.step_ok
      (Example.at_point [1]%float) (Example.at_point [1]%float)
      Example.iter0 Example.evals0 Example.interrupt_throw
      5 1 1 fuel 3 tt tt tt [0]%float [0]%float
    = Some (Throw Example.interrupted).
Proof.
  apply (interrupt_exception_propagates
           (M := Example.no_libm) (E := Example.no_eigen)
           unit Example.zero_gaus Example.lp_zero Example.constrain_id
           unit Example.step_ok
           (Example.at_point [1]%float) (Example.at_point [1]%float)
           Example.iter0 Example.evals0 unit Example.interrupt_throw
           5 1 1 3 tt tt tt [0]%float [0]%float
           (Pathfinder.initial_state Example.evals0 tt tt tt
                                     [0]%float [0]%float)
           Example.interrupted).
  - apply Pathfinder.reaches_here.
  - reflexivity.
  - reflexivity.
Defined.

(** C5, the claim as stated fails: with a Taylor approximation whose
    [logdetcholHk] is NaN the call returns an estimate in which the mean
    of [lp_ratio] is NaN, and so is [elbo]; it is not minus infinity. *)
Lemma elbo_nan_not_minus_infinity :
  exists E,
    fst (Pathfinder.est_approx_draws Example.zero_gaus Example.lp_zero
                                     true tt Example.taylor_nan 1) = Ret E /\
    ~ elbo_mean_or_minus_infinity E.
Proof.
  eexists. split; [vm_compute; reflexivity|].
  unfold elbo_mean_or_minus_infinity. intros H.
  apply (f_equal PrimFloat.is_nan) in H. vm_compute in H. discriminate.
Qed.



(** C8, the claim as stated fails on [double].  With [alpha = (3, 1)],
    [y = (0, 10^10)] and [s = (10^10, 1)] the curvature check passes
    ([y^T s = 10^10], [|y|^2 / y^T s = 10^10]) and the exact denominator
    of the first component is about 1, the difference of two terms near
    [3 * 10^19]: rounding makes it negative, and so is the component.
    With [alpha = 2^1000] and [y = s = 2^40] the check passes,
    [y^T diag(alpha) y] overflows, [(s / alpha)^2] underflows and the
    component is NaN. *)
Lemma form_diag_not_positive_in_binary64 :
  (let alpha := [3; 1]%float in
   let y := [0; 1e10]%float in
   let s := [1e10; 1]%float in
   Pathfinder.check_curve y s = true /\
   (nth 0%nat (Pathfinder.form_diag alpha y s) 0 <? 0)%float = true /\
   ~ form_diag_positive alpha y s) /\
  (let alpha := [0x1p1000]%float in
   let y := [0x1p40]%float in
   let s := [0x1p40]%float in
   Pathfinder.check_curve y s = true /\
   PrimFloat.is_nan (nth 0 (Pathfinder.form_diag alpha y s) 0%float)
   = true /\
   ~ form_diag_positive alpha y s).
Proof.
  cbv zeta. split.
  - split; [vm_compute; reflexivity|]. split; [vm_compute; reflexivity|].
    intros H.
    assert (P : Forall (fun a => (0 <? a)%float = true) [3; 1]%float)
      by (repeat constructor).
    specialize (H P ltac:(vm_compute; reflexivity)).
    apply Forall_inv in H. vm_compute in H. discriminate.
  - split; [vm_compute; reflexivity|]. split; [vm_compute; reflexivity|].
    intros H.
    assert (P : Forall (fun a => (0 <? a)%float = true) [0x1p1000]%float)
      by (repeat constructor).
    specialize (H P ltac:(vm_compute; reflexivity)).
    apply Forall_inv in H. vm_compute in H. discriminate.
Qed.

(** The weights of [(-0.5, 0)] and of the same shifted by [2^52]
    differ for every [libm] in which [exp(0)] is 1, the [log_sum_exp]
    of the shifted log-ratios is rounded to [2^52] and the larger weight
    of [(-0.5, 0)] is not 1. *)
Lemma psis_weights_shift_differs (M : MathLib float) :
  exp 0%float = 1%float ->
  log_sum_exp [0x1.fffffffffffffp+51; 0x1p52]%float = 0x1p52%float ->
  (exp (0 - log_sum_exp [-0.5; 0]) =? 1)%float = false ->
  ~ shift_invariant [-0.5; 0]%float 0x1p52%float 0.
Proof.
  destruct M as [e l l1 e1 f i lse]. cbn [exp log_sum_exp].
  intros H1 H2 H3 H. unfold shift_invariant, Psis.psis_weights in H.
  cbn [exp log_sum_exp Nat.leb] in H.
  apply (f_equal (fun v => (nth 1%nat v 0 =? 1)%float)) in H.
  vm_compute in H. vm_compute in H2. rewrite H2 in H. vm_compute in H.
  vm_compute in H1. rewrite H1 in H. vm_compute in H3. vm_compute in H.
  rewrite H3 in H. discriminate.
Qed.

(** C9, the claim as stated fails on [double].  The log-ratios
    [(-0.5, 0)] have the weights [(0.3775, 0.6225)].  Shifted by
    [c = 2^52] they are [(2^52 - 0.5, 2^52)], both exact; their
    [log_sum_exp], [2^52 + 0.474], is rounded to [2^52], and the weights
    are [(exp(-0.5), exp(0)) = (0.6065, 1)]. *)
Lemma psis_weights_shift_not_invariant_in_binary64 :
  let lw := [-0.5; 0]%float in
  let c := 0x1p52%float in
  let w := Psis.psis_weights (M := Example.libm_at_shift_example) lw 0 in
  let w' := Psis.psis_weights (M := Example.libm_at_shift_example)
              (map (fun l => (l + c)%float) lw) 0 in
  map (fun l => (l + c)%float) lw = [0x1.fffffffffffffp+51; 0x1p52]%float /\
  w = [0x1.829a0565978dep-2; 0x1.3eb2fd4d34391p-1]%float /\
  w' = [0x1.368b2fc6f960ap-1; 1]%float /\
  (0.125 <? nth 0%nat w' 0 - nth 0%nat w 0)%float = true /\
  ~ shift_invariant (M := Example.libm_at_shift_example) lw c 0.
Proof.
  cbv zeta. repeat (split; [vm_compute; reflexivity|]).
  apply psis_weights_shift_differs; vm_compute; reflexivity.
Qed.

(** C10: on a sparse approximation whose triangular factor is not
    symmetric, the draw computed by [approximate_samples] from
    [u = (1, 0, 0)] is [(1, 0, 0)], the one computed by
    [get_rnorm_and_draws] is [(1, 1, 0)]: the former multiplies by
    [L_approx], the latter by its transpose. *)
Theorem sparse_draws_differ :
  let u := mkMat 3 1 [[1; 0; 0]]%float in
  Pathfinder.approximate_samples u Example.sparse_new
  = mkMat 3 1 [[1; 0; 0]]%float /\
  Optimize.get_rnorm_and_draws u Example.sparse_old [1; 1; 1]%float
  = mkMat 3 1 [[1; 1; 0]]%float /\
  Pathfinder.approximate_samples u Example.sparse_new
  <> Optimize.get_rnorm_and_draws u Example.sparse_old [1; 1; 1]%float.
Proof.
  cbv zeta. split; [vm_compute; reflexivity|].
  split; [vm_compute; reflexivity|].
  intros H.
  apply (f_equal (fun m => PrimFloat.is_zero (coeff m 1 0))) in H.
  vm_compute in H. discriminate.
Qed.

(** * Further properties of the embedded code *)

(** ** Sorting in psis.hpp *)

Section SwapFacts.
Context {X : Type}.

Lemma combine_upd {Y : Type} (a : list X) (b : list Y) (i : nat) (x : X)
      (y : Y) :
  combine (upd a i x) (upd b i y) = upd (combine a b) i (x, y).
Proof.
  revert b i; induction a as [|u a IH]; intros [|v b] [|i]; simpl;
    try reflexivity.
  rewrite IH. reflexivity.
Qed.

Lemma swap_length (d : X) (l : list X) (i j : Z) :
  length (Psis.swap d l i j) = length l.
Proof. unfold Psis.swap. rewrite !upd_length. reflexivity. Qed.

(** What a swap of two positions of the list leaves at position [k]. *)
Lemma swap_at (d : X) (l : list X) (i j k : Z) :
  (0 <= i < Z.of_nat (length l))%Z ->
  (0 <= j < Z.of_nat (length l))%Z ->
  (0 <= k)%Z ->
  Psis.at_ d (Psis.swap d l i j) k
  = if (k =? j)%Z then Psis.at_ d l i
    else if (k =? i)%Z then Psis.at_ d l j
         else Psis.at_ d l k.
Proof.
  intros Hi Hj Hk. unfold Psis.swap, Psis.at_.
  destruct (Z.eqb_spec k j) as [E|E].
  - subst k. apply upd_nth_same. rewrite upd_length. lia.
  - rewrite upd_nth_other by lia.
    destruct (Z.eqb_spec k i) as [E'|E'].
    + subst k. apply upd_nth_same. lia.
    + apply upd_nth_other. lia.
Qed.

Lemma swap_perm (d : X) (l : list X) (i j : Z) :
  (0 <= i < Z.of_nat (length l))%Z ->
  (0 <= j < Z.of_nat (length l))%Z ->
  Permutation (Psis.swap d l i j) l.
Proof.
  intros Hi Hj. apply Permutation_sym. apply (Permutation_nth _ _ d).
  cbv zeta. split; [apply swap_length|].
  set (a := Z.to_nat i). set (b := Z.to_nat j).
  exists (fun k => if Nat.eqb k b then a else if Nat.eqb k a then b else k).
  split; [|split].
  - intros k Hk. destruct (Nat.eqb_spec k b); [lia|].
    destruct (Nat.eqb_spec k a); lia.
  - intros k k' Hk Hk'.
    destruct (Nat.eqb_spec k b), (Nat.eqb_spec k a),
             (Nat.eqb_spec k' b), (Nat.eqb_spec k' a); lia.
  - intros k Hk.
    pose proof (swap_at d l i j (Z.of_nat k) Hi Hj ltac:(lia)) as S.
    unfold Psis.at_ in S. rewrite Nat2Z.id in S. rewrite S.
    destruct (Z.eqb_spec (Z.of_nat k) j) as [E|E];
      destruct (Nat.eqb_spec k b) as [F|F]; try lia; [reflexivity|].
    destruct (Z.eqb_spec (Z.of_nat k) i) as [E'|E'];
      destruct (Nat.eqb_spec k a) as [F'|F']; try lia; reflexivity.
Qed.
End SwapFacts.

Lemma combine_swap {X Y : Type} (dx : X) (dy : Y) (a : list X) (b : list Y)
      (i j : Z) :
  length b = length a ->
  combine (Psis.swap dx a i j) (Psis.swap dy b i j)
  = Psis.swap (dx, dy) (combine a b) i j.
Proof.
  intros Hl. unfold Psis.swap, Psis.at_.
  rewrite !combine_upd, !combine_nth by lia. reflexivity.
Qed.

Section QuickSortFacts.
Context {D : Type} {A : Arith D}.

Local Abbreviation rd a k := (Psis.at_ (of_Z 0) a k) (only parsing).

Lemma related_refl (low high : Z) (a : list D) (x : list Z) :
  related low high a x a x.
Proof.
  repeat split; auto.
  intros k Hk. exists k. split; [exact Hk | reflexivity].
Qed.

Lemma related_trans (low high : Z) (a : list D) (x : list Z)
      (a1 : list D) (x1 : list Z) (a2 : list D) (x2 : list Z) :
  related low high a x a1 x1 -> related low high a1 x1 a2 x2 ->
  related low high a x a2 x2.
Proof.
  intros (L1 & M1 & U1 & C1 & P1 & Q1) (L2 & M2 & U2 & C2 & P2 & Q2).
  repeat split.
  - congruence.
  - congruence.
  - intros k Hk Ho. rewrite U2, U1 by assumption. reflexivity.
  - intros k Hk. destruct (C2 k Hk) as (k1 & Hk1 & E1).
    destruct (C1 k1 Hk1) as (k2 & Hk2 & E2).
    exists k2. split; [exact Hk2 | congruence].
  - eapply Permutation_trans; eassumption.
  - intros Hl. eapply Permutation_trans; [apply Q2; congruence | apply Q1; exact Hl].
Qed.

Lemma related_weaken (low high low' high' : Z) (a : list D) (x : list Z)
      (a' : list D) (x' : list Z) :
  (0 <= low <= low')%Z -> (high' <= high)%Z ->
  related low' high' a x a' x' -> related low high a x a' x'.
Proof.
  intros Hlow Hhigh (L & M & U & C & P & Q). repeat split; auto.
  - intros k Hk Ho. apply U; lia.
  - intros k Hk.
    destruct (Z_le_dec low' k) as [H1|H1];
      [destruct (Z_le_dec k high') as [H2|H2]|].
    + destruct (C k ltac:(lia)) as (k' & Hk' & E).
      exists k'. split; [lia | exact E].
    + exists k. split; [lia | apply U; lia].
    + exists k. split; [lia | apply U; lia].
Qed.

Lemma related_swap (low high : Z) (a : list D) (x : list Z) (i j : Z) :
  (0 <= low)%Z -> (high < Z.of_nat (length a))%Z ->
  (low <= i <= high)%Z -> (low <= j <= high)%Z ->
  related low high a x (Psis.swap (of_Z 0) a i j) (Psis.swap 0%Z x i j).
Proof.
  intros Hlow Hhigh Hi Hj. repeat split.
  - apply swap_length.
  - apply swap_length.
  - intros k Hk Ho. rewrite swap_at by lia.
    destruct (Z.eqb_spec k j); [lia|]. destruct (Z.eqb_spec k i); [lia|].
    reflexivity.
  - intros k Hk. rewrite swap_at by lia.
    destruct (Z.eqb_spec k j); [exists i; split; [lia | reflexivity]|].
    destruct (Z.eqb_spec k i); [exists j; split; [lia | reflexivity]|].
    exists k. split; [lia | reflexivity].
  - apply swap_perm; lia.
  - intros Hl. rewrite combine_swap by exact Hl.
    apply swap_perm; rewrite length_combine, Hl, Nat.min_id; lia.
Qed.

(** One turn of the loop of [quick_sort_partition]. *)
Let pstep (pivot : D) (st : list D * list Z * Z) (j : Z)
  : list D * list Z * Z :=
  let '(arr, idx, i) := st in
  if (Psis.at_ (of_Z 0) arr j <=? pivot)%D then
    let i := (i + 1)%Z in
    (Psis.swap (of_Z 0) arr i j, Psis.swap 0%Z idx i j, i)
  else st.

Lemma range_cons (lo hi : Z) :
  (lo < hi)%Z -> Psis.range lo hi = lo :: Psis.range (lo + 1) hi.
Proof.
  intros H. unfold Psis.range.
  replace (Z.to_nat (hi - lo)) with (S (Z.to_nat (hi - (lo + 1)))) by lia.
  simpl. rewrite Z.add_0_r. f_equal.
  rewrite <- seq_shift, map_map. apply map_ext. intros k. lia.
Qed.

Lemma range_nil (lo hi : Z) : (hi <= lo)%Z -> Psis.range lo hi = [].
Proof.
  intros H. unfold Psis.range.
  replace (Z.to_nat (hi - lo)) with 0 by lia. reflexivity.
Qed.

(** The loop keeps, to the left of [i], coefficients that are [<=] the
    pivot and, between [i] and the scanned position, coefficients that
    are not. *)
Lemma partition_loop_spec (pivot : D) (low high : Z) (m : nat) :
  forall (j0 : Z) (arr : list D) (idx : list Z) (i : Z),
    Z.to_nat (high - j0) = m ->
    (0 <= low)%Z -> (high < Z.of_nat (length arr))%Z ->
    (low <= j0 <= high)%Z -> (low - 1 <= i < j0)%Z ->
    (forall k, (low <= k <= i)%Z -> (rd arr k <=? pivot)%D = true) ->
    (forall k, (i < k < j0)%Z -> (rd arr k <=? pivot)%D = false) ->
    let '(arr', idx', i') :=
      fold_left (pstep pivot) (Psis.range j0 high) (arr, idx, i) in
    (low - 1 <= i' < high)%Z /\
    (forall k, (low <= k <= i')%Z -> (rd arr' k <=? pivot)%D = true) /\
    (forall k, (i' < k < high)%Z -> (rd arr' k <=? pivot)%D = false) /\
    related low (high - 1) arr idx arr' idx'.
Proof.
  induction m as [|m IH]; intros j0 arr idx i Hm Hlow Hhigh Hj Hi HL HR.
  - rewrite range_nil by lia. simpl.
    assert (j0 = high) by lia. subst j0.
    split; [lia|]. split; [exact HL|]. split; [exact HR|].
    apply related_refl.
  - rewrite range_cons by lia. cbn [fold_left].
    unfold pstep at 2.
    destruct (Psis.at_ (of_Z 0) arr j0 <=? pivot)%D eqn:Hle.
    + specialize (IH (j0 + 1)%Z (Psis.swap (of_Z 0) arr (i + 1) j0)
                     (Psis.swap 0%Z idx (i + 1) j0) (i + 1)%Z).
      destruct (fold_left (pstep pivot) (Psis.range (j0 + 1) high) _)
        as [[arr' idx'] i'].
      assert (Hrel : related low (high - 1) arr idx
                       (Psis.swap (of_Z 0) arr (i + 1) j0)
                       (Psis.swap 0%Z idx (i + 1) j0))
        by (apply related_swap; lia).
      destruct IH as (B & L & R & Rel).
      * lia.
      * exact Hlow.
      * rewrite swap_length. exact Hhigh.
      * lia.
      * lia.
      * intros k Hk. rewrite swap_at by lia.
        destruct (Z.eqb_spec k j0) as [E|E].
        -- assert (k = i + 1)%Z by lia. subst k.
           replace (i + 1)%Z with j0 by lia. exact Hle.
        -- destruct (Z.eqb_spec k (i + 1)) as [E'|E']; [exact Hle|].
           apply HL. lia.
      * intros k Hk. rewrite swap_at by lia.
        destruct (Z.eqb_spec k j0) as [E|E]; [apply HR; lia|].
        destruct (Z.eqb_spec k (i + 1)) as [E'|E']; [lia|].
        apply HR. lia.
      * split; [lia|]. split; [exact L|]. split; [exact R|].
        eapply related_trans; eassumption.
    + specialize (IH (j0 + 1)%Z arr idx i).
      destruct (fold_left (pstep pivot) (Psis.range (j0 + 1) high) _)
        as [[arr' idx'] i'].
      destruct IH as (B & L & R & Rel); try assumption; try lia.
      * intros k Hk. destruct (Z.eq_dec k j0) as [E|E].
        -- subst k. exact Hle.
        -- apply HR. lia.
      * split; [lia|]. split; [exact L|]. split; [exact R | exact Rel].
Qed.

(** [quick_sort_partition] on the positions [low .. high] of an array:
    the returned position [p] holds the pivot, the positions before it
    hold coefficients that are [<=] the pivot, the positions after it
    coefficients that are not. *)
Lemma partition_spec (arr : list D) (idx : list Z) (low high : Z) :
  (0 <= low <= high)%Z -> (high < Z.of_nat (length arr))%Z ->
  let pivot := rd arr high in
  let '(arr', idx', p) := Psis.quick_sort_partition arr idx low high in
  (low <= p <= high)%Z /\
  rd arr' p = pivot /\
  (forall k, (low <= k < p)%Z -> (rd arr' k <=? pivot)%D = true) /\
  (forall k, (p < k <= high)%Z -> (rd arr' k <=? pivot)%D = false) /\
  related low high arr idx arr' idx'.
Proof.
  intros Hlh Hhigh. cbv zeta.
  pose proof (partition_loop_spec (rd arr high) low high
                (Z.to_nat (high - low)) low arr idx (low - 1)
                eq_refl ltac:(lia) Hhigh ltac:(lia) ltac:(lia)) as L.
  change (Psis.quick_sort_partition arr idx low high)
    with (let '(a, x, i) :=
            fold_left (pstep (rd arr high)) (Psis.range low high)
                      (arr, idx, (low - 1)%Z) in
          (Psis.swap (of_Z 0) a (i + 1) high, Psis.swap 0%Z x (i + 1) high,
           (i + 1)%Z)).
  destruct (fold_left (pstep (rd arr high)) (Psis.range low high) _)
    as [[a1 x1] i'].
  destruct L as (B & L & R & Rel).
  { intros k Hk. lia. }
  { intros k Hk. lia. }
  assert (Hlen : length a1 = length arr) by apply Rel.
  assert (Hpiv : rd a1 high = rd arr high).
  { destruct Rel as (_ & _ & U & _). apply U; lia. }
  cbv beta iota zeta.
  split; [lia|]. split; [|split; [|split]].
  - rewrite swap_at by lia.
    destruct (Z.eqb_spec (i' + 1) high) as [E|E].
    + rewrite E. exact Hpiv.
    + rewrite Z.eqb_refl. exact Hpiv.
  - intros k Hk. rewrite swap_at by lia.
    destruct (Z.eqb_spec k high); [lia|].
    destruct (Z.eqb_spec k (i' + 1)); [lia|]. apply L. lia.
  - intros k Hk. rewrite swap_at by lia.
    destruct (Z.eqb_spec k high) as [E|E]; [apply R; lia|].
    destruct (Z.eqb_spec k (i' + 1)); [lia|]. apply R. lia.
  - eapply related_trans.
    + apply (related_weaken low high low (high - 1)); [lia | lia | exact Rel].
    + apply related_swap; lia.
Qed.
End QuickSortFacts.

Section QuickSortSorted.
Context {D : Type} {A : Arith D}.

(** The order used by the partition is a total preorder. *)
Hypothesis leb_total : forall a b : D, (a <=? b)%D = true \/ (b <=? a)%D = true.
Hypothesis leb_trans :
  forall a b c : D, (a <=? b)%D = true -> (b <=? c)%D = true ->
                    (a <=? c)%D = true.

Local Abbreviation rd a k := (Psis.at_ (of_Z 0) a k) (only parsing).

Lemma leb_refl (a : D) : (a <=? a)%D = true.
Proof. destruct (leb_total a a); assumption. Qed.

Lemma quick_sort_range_spec (fuel : nat) :
  forall (arr : list D) (idx : list Z) (low high : Z),
    (0 <= low)%Z -> (high < Z.of_nat (length arr))%Z ->
    (high - low < Z.of_nat fuel)%Z ->
    let '(arr', idx') := Psis.quick_sort_range fuel arr idx low high in
    related low high arr idx arr' idx' /\ sorted_range arr' low high.
Proof.
  induction fuel as [|fuel IH]; intros arr idx low high Hlow Hhigh Hfuel.
  - simpl. split; [apply related_refl|].
    intros k k' H1 H2 H3. lia.
  - simpl. destruct (Z.ltb_spec low high) as [Hlt|Hge].
    + pose proof (partition_spec arr idx low high ltac:(lia) Hhigh) as P.
      cbv zeta in P.
      destruct (Psis.quick_sort_partition arr idx low high) as [[a1 x1] p].
      destruct P as (Hp & Epiv & PL & PR & Rel1).
      set (pivot := rd arr high) in *.
      assert (Hlen1 : length a1 = length arr) by apply Rel1.
      pose proof (IH a1 x1 low (p - 1)%Z Hlow ltac:(lia) ltac:(lia)) as L.
      destruct (Psis.quick_sort_range fuel a1 x1 low (p - 1)) as [a2 x2].
      destruct L as (Rel2 & S2).
      assert (Hlen2 : length a2 = length a1) by apply Rel2.
      pose proof (IH a2 x2 (p + 1)%Z high ltac:(lia) ltac:(lia) ltac:(lia))
        as R.
      destruct (Psis.quick_sort_range fuel a2 x2 (p + 1) high) as [a3 x3].
      destruct R as (Rel3 & S3).
      split.
      * eapply related_trans; [exact Rel1|].
        eapply related_trans.
        -- apply (related_weaken low high low (p - 1)); [lia | lia | exact Rel2].
        -- apply (related_weaken low high (p + 1) high); [lia | lia | exact Rel3].
      * destruct Rel2 as (_ & _ & U2 & C2 & _).
        destruct Rel3 as (_ & _ & U3 & C3 & _).
        (* the three parts of the final array *)
        assert (Hleft : forall k, (low <= k < p)%Z ->
                  rd a3 k = rd a2 k /\ (rd a3 k <=? pivot)%D = true).
        { intros k Hk. assert (E : rd a3 k = rd a2 k) by (apply U3; lia).
          split; [exact E|]. rewrite E.
          destruct (C2 k ltac:(lia)) as (k1 & Hk1 & E1). rewrite E1.
          apply PL. lia. }
        assert (Hmid : rd a3 p = pivot).
        { rewrite U3 by lia. rewrite U2 by lia. exact Epiv. }
        assert (Hright : forall k, (p < k <= high)%Z ->
                  (pivot <=? rd a3 k)%D = true).
        { intros k Hk. destruct (C3 k ltac:(lia)) as (k1 & Hk1 & E1).
          rewrite E1, U2 by lia.
          destruct (leb_total pivot (rd a1 k1)) as [H|H]; [exact H|].
          rewrite PR in H by lia. discriminate. }
        intros k k' H1 H2 H3.
        destruct (Z_lt_dec k p) as [Kl|Kl];
          [|destruct (Z.eq_dec k p) as [Km|Km]];
          (destruct (Z_lt_dec k' p) as [Kl'|Kl'];
           [|destruct (Z.eq_dec k' p) as [Km'|Km']]); try lia.
        -- destruct (Hleft k ltac:(lia)) as [E _].
           destruct (Hleft k' ltac:(lia)) as [E' _].
           rewrite E, E'. apply S2; lia.
        -- subst k'. rewrite Hmid. apply Hleft. lia.
        -- apply (leb_trans _ pivot); [apply Hleft; lia | apply Hright; lia].
        -- subst k k'. apply leb_refl.
        -- subst k. rewrite Hmid. apply Hright. lia.
        -- apply S3; lia.
    + split; [apply related_refl|].
      intros k k' H1 H2 H3. assert (k = k') by lia. subst k'. apply leb_refl.
Qed.

Lemma quick_sort_spec (arr : list D) (idx : list Z) :
  let '(arr', idx') := Psis.quick_sort arr idx in
  related 0 (Z.of_nat (length arr) - 1) arr idx arr' idx' /\
  sorted_range arr' 0 (Z.of_nat (length arr) - 1).
Proof.
  unfold Psis.quick_sort. apply quick_sort_range_spec; lia.
Qed.
End QuickSortSorted.

(** Without any assumption on the order, [quick_sort] moves the
    coefficients of the two arrays in step. *)
Lemma quick_sort_related {D : Type} {A : Arith D} (arr : list D)
      (idx : list Z) :
  let '(arr', idx') := Psis.quick_sort arr idx in
  related 0 (Z.of_nat (length arr) - 1) arr idx arr' idx'.
Proof.
  unfold Psis.quick_sort.
  assert (G : forall fuel (a : list D) (x : list Z) low high,
             (0 <= low)%Z -> (high < Z.of_nat (length a))%Z ->
             let '(a', x') := Psis.quick_sort_range fuel a x low high in
             related low high a x a' x').
  { induction fuel as [|fuel IH]; intros a x low high Hlow Hhigh.
    - simpl. apply related_refl.
    - simpl. destruct (Z.ltb_spec low high) as [Hlt|Hge];
        [|apply related_refl].
      pose proof (partition_spec a x low high ltac:(lia) Hhigh) as P.
      cbv zeta in P.
      destruct (Psis.quick_sort_partition a x low high) as [[a1 x1] p].
      destruct P as (Hp & _ & _ & _ & Rel1).
      assert (Hlen1 : length a1 = length a) by apply Rel1.
      pose proof (IH a1 x1 low (p - 1)%Z Hlow ltac:(lia)) as L.
      destruct (Psis.quick_sort_range fuel a1 x1 low (p - 1)) as [a2 x2].
      assert (Hlen2 : length a2 = length a1) by apply L.
      pose proof (IH a2 x2 (p + 1)%Z high ltac:(lia) ltac:(lia)) as R.
      destruct (Psis.quick_sort_range fuel a2 x2 (p + 1) high) as [a3 x3].
      eapply related_trans; [exact Rel1|].
      eapply related_trans.
      + apply (related_weaken low high low (p - 1)); [lia | lia | exact L].
      + apply (related_weaken low high (p + 1) high); [lia | lia | exact R]. }
  apply G; lia.
Qed.

Section RealOrder.
Open Scope R_scope.

Lemma Rleb_total (a b : R) : Rleb a b = true \/ Rleb b a = true.
Proof.
  unfold Rleb. destruct (Rle_dec a b), (Rle_dec b a); auto. exfalso. lra.
Qed.

Lemma Rleb_trans (a b c : R) :
  Rleb a b = true -> Rleb b c = true -> Rleb a c = true.
Proof.
  unfold Rleb. destruct (Rle_dec a b), (Rle_dec b c), (Rle_dec a c);
    try discriminate; auto. exfalso. lra.
Qed.
End RealOrder.

Lemma quick_sort_sorted_R (arr : list R) (idx : list Z) :
  let arr' := fst (Psis.quick_sort arr idx) in
  Permutation arr' arr /\
  forall i j, i <= j -> j < length arr -> (nth i arr' 0 <= nth j arr' 0)%R.
Proof.
  cbv zeta.
  pose proof (quick_sort_spec Rleb_total Rleb_trans arr idx) as S.
  destruct (Psis.quick_sort arr idx) as [arr' idx']. simpl fst.
  destruct S as [(_ & _ & _ & _ & P & _) S]. split; [exact P|].
  intros i j Hij Hj.
  specialize (S (Z.of_nat i) (Z.of_nat j) ltac:(lia) ltac:(lia) ltac:(lia)).
  unfold Psis.at_ in S. rewrite !Nat2Z.id in S.
  change (@leb R R_Arith) with Rleb in S. apply Rleb_true in S. exact S.
Qed.

(** X1: in exact arithmetic [quick_sort] returns the coefficients of
    its array in ascending order: the result is a permutation of the
    array and is sorted. *)
Theorem quick_sort_sorts (arr : list R) (idx : list Z) :
  let arr' := fst (Psis.quick_sort arr idx) in
  Permutation arr' arr /\
  forall i j, i <= j -> j < length arr -> (nth i arr' 0 <= nth j arr' 0)%R.
Proof.
  cbv zeta.
  pose proof (quick_sort_spec Rleb_total Rleb_trans arr idx) as S.
  destruct (Psis.quick_sort arr idx) as [arr' idx']. simpl fst.
  destruct S as [(_ & _ & _ & _ & P & _) S]. split; [exact P|].
  intros i j Hij Hj.
  specialize (S (Z.of_nat i) (Z.of_nat j) ltac:(lia) ltac:(lia) ltac:(lia)).
  unfold Psis.at_ in S. rewrite !Nat2Z.id in S.
  change (@leb R R_Arith) with Rleb in S. apply Rleb_true in S. exact S.
Qed.

(** X2: [quick_sort] keeps every coefficient together with the entry of
    the index array that stood at the same position. *)
Theorem quick_sort_keeps_pairs {D : Type} {A : Arith D} (arr : list D)
        (idx : list Z) :
  length idx = length arr ->
  length (fst (Psis.quick_sort arr idx)) = length arr /\
  length (snd (Psis.quick_sort arr idx)) = length arr /\
  Permutation (combine (fst (Psis.quick_sort arr idx))
                       (snd (Psis.quick_sort arr idx)))
              (combine arr idx).
Proof.
  intros Hl. pose proof (quick_sort_related arr idx) as R.
  destruct (Psis.quick_sort arr idx) as [arr' idx']. simpl.
  destruct R as (L & M & _ & _ & _ & Q).
  split; [exact L|]. split; [congruence|]. apply Q. exact Hl.
Qed.

Lemma quick_sort_keeps_pairs_witness :
  length (fst (Psis.quick_sort [3; 1; 2]%float [0; 1; 2]%Z)) = 3 /\
  length (snd (Psis.quick_sort [3; 1; 2]%float [0; 1; 2]%Z)) = 3 /\
  Permutation (combine (fst (Psis.quick_sort [3; 1; 2]%float [0; 1; 2]%Z))
                       (snd (Psis.quick_sort [3; 1; 2]%float [0; 1; 2]%Z)))
              (combine [3; 1; 2]%float [0; 1; 2]%Z).
Proof.
  apply (quick_sort_keeps_pairs [3; 1; 2]%float [0; 1; 2]%Z). reflexivity.
Defined.

(** X3: [quick_sort_partition] on the positions [low .. high] of an
    array returns a position [p] of that range; afterwards [p] holds the
    pivot (the coefficient that stood at [high]), the positions of the
    range before [p] hold coefficients [<=] the pivot, those after [p]
    coefficients that are not, and the positions outside the range are
    as before. *)
Theorem quick_sort_partition_splits {D : Type} {A : Arith D}
        (arr : list D) (idx : list Z) (low high : Z) :
  (0 <= low <= high)%Z -> (high < Z.of_nat (length arr))%Z ->
  let pivot := Psis.at_ (of_Z 0) arr high in
  let arr' := fst (fst (Psis.quick_sort_partition arr idx low high)) in
  let p := snd (Psis.quick_sort_partition arr idx low high) in
  (low <= p <= high)%Z /\
  Psis.at_ (of_Z 0) arr' p = pivot /\
  (forall k, (low <= k < p)%Z ->
             (Psis.at_ (of_Z 0) arr' k <=? pivot)%D = true) /\
  (forall k, (p < k <= high)%Z ->
             (Psis.at_ (of_Z 0) arr' k <=? pivot)%D = false) /\
  (forall k, (0 <= k)%Z -> (k < low \/ high < k)%Z ->
             Psis.at_ (of_Z 0) arr' k = Psis.at_ (of_Z 0) arr k) /\
  Permutation arr' arr.
Proof.
  intros H1 H2. cbv zeta.
  pose proof (partition_spec arr idx low high H1 H2) as P. cbv zeta in P.
  destruct (Psis.quick_sort_partition arr idx low high) as [[a1 x1] p].
  simpl. destruct P as (Hp & E & L & R & (_ & _ & U & _ & Pm & _)).
  repeat (split; [assumption|]). exact Pm.
Qed.

Lemma quick_sort_partition_splits_witness :
  let arr := [3; 1; 2]%float in
  let idx := [0; 1; 2]%Z in
  let pivot := Psis.at_ (of_Z 0) arr 2 in
  let arr' := fst (fst (Psis.quick_sort_partition arr idx 0 2)) in
  let p := snd (Psis.quick_sort_partition arr idx 0 2) in
  (0 <= p <= 2)%Z /\
  Psis.at_ (of_Z 0) arr' p = pivot /\
  (forall k, (0 <= k < p)%Z ->
             (Psis.at_ (of_Z 0) arr' k <=? pivot)%D = true) /\
  (forall k, (p < k <= 2)%Z ->
             (Psis.at_ (of_Z 0) arr' k <=? pivot)%D = false) /\
  (forall k, (0 <= k)%Z -> (k < 0 \/ 2 < k)%Z ->
             Psis.at_ (of_Z 0) arr' k = Psis.at_ (of_Z 0) arr k) /\
  Permutation arr' arr.
Proof.
  apply (quick_sort_partition_splits [3; 1; 2]%float [0; 1; 2]%Z 0 2).
  - lia.
  - simpl. lia.
Defined.

(** The positions [0 .. n-1], as Eigen's integer [LinSpaced] gives them
    for [n >= 3]. *)
Lemma LinSpaced_Index_positions (n : nat) :
  3 <= n ->
  Psis.LinSpaced_Index n 0 (Z.of_nat n) = map Z.of_nat (seq 0 n).
Proof.
  intros Hn. unfold Psis.LinSpaced_Index.
  destruct (Nat.eqb_spec n 1) as [E|_]; [lia|]. cbv zeta.
  destruct (Z.leb_spec (Z.of_nat n) 1) as [E|_]; [lia|].
  replace ((1 <? Z.of_nat n)%Z
           && (Z.abs (Z.of_nat n - 0) + 1 <? Z.of_nat n)%Z) with false.
  - assert (Q : Z.quot (Z.of_nat n - 0) (Z.of_nat n - 1) = 1%Z).
    { rewrite Z.quot_div_nonneg by lia.
      symmetry. apply (Z.div_unique _ _ 1 1); lia. }
    rewrite Q. apply map_ext. intros i. lia.
  - symmetry. apply andb_false_iff. right. apply Z.ltb_ge. lia.
Qed.

Lemma head_with_positions {X : Type} (d : X) (n : nat) :
  forall (l : list X) (s : nat),
    Forall (fun vp : X * Z =>
              (Z.of_nat s <= snd vp < Z.of_nat (s + n))%Z /\
              nth (Z.to_nat (snd vp) - s) l d = fst vp)
           (combine (firstn n l) (map Z.of_nat (seq s n))).
Proof.
  induction n as [|n IH]; intros l s; [constructor|].
  destruct l as [|x l]; [constructor|]. simpl. constructor.
  - simpl. split; [lia|]. rewrite Nat2Z.id, Nat.sub_diag. reflexivity.
  - specialize (IH l (S s)). eapply Forall_impl; [|exact IH].
    intros [v p] [Hp Hv]. simpl in *. split; [lia|].
    replace (Z.to_nat p - s) with (S (Z.to_nat p - S s)) by lia. exact Hv.
Qed.

(** X4: for [3 <= n <= size], [max_n_elements lw n] returns [n] values
    and [n] positions; the values are a permutation of the first [n]
    log-weights, and each position lies in [0 .. n-1] and is the place in
    [lw] of the value returned beside it. *)
Theorem max_n_elements_positions {D : Type} {A : Arith D} (lw : list D)
        (n : nat) :
  3 <= n -> n <= length lw ->
  let top_n := fst (Psis.max_n_elements lw n) in
  let top_n_idx := snd (Psis.max_n_elements lw n) in
  length top_n = n /\ length top_n_idx = n /\
  Permutation top_n (firstn n lw) /\
  forall k, k < n ->
    (0 <= nth k top_n_idx 0 < Z.of_nat n)%Z /\
    nth (Z.to_nat (nth k top_n_idx 0%Z)) lw (of_Z 0) = nth k top_n (of_Z 0).
Proof.
  intros Hn Hlen. cbv zeta.
  unfold Psis.max_n_elements. rewrite (range_nil (Z.of_nat n) (Z.of_nat n)) by lia.
  rewrite LinSpaced_Index_positions by exact Hn.
  pose proof (quick_sort_related (firstn n lw) (map Z.of_nat (seq 0 n)))
    as R.
  destruct (Psis.quick_sort (firstn n lw) (map Z.of_nat (seq 0 n)))
    as [top ix].
  cbn [fold_left fst snd].
  assert (Hf : length (firstn n lw) = n) by (rewrite length_firstn; lia).
  assert (Hs : length (map Z.of_nat (seq 0 n)) = n)
    by (rewrite length_map, length_seq; reflexivity).
  destruct R as (L & M & _ & _ & P & Q).
  split; [congruence|]. split; [congruence|]. split; [exact P|].
  intros k Hk.
  pose proof (head_with_positions (of_Z 0) n lw 0) as F.
  apply (Permutation_Forall (Permutation_sym (Q ltac:(congruence)))) in F.
  rewrite Forall_forall in F.
  specialize (F (nth k top (of_Z 0), nth k ix 0%Z)).
  rewrite <- combine_nth in F by congruence.
  destruct F as [F1 F2].
  { apply nth_In. rewrite length_combine. lia. }
  rewrite combine_nth in F1, F2 by congruence.
  cbn [fst snd] in F1, F2. rewrite Nat.sub_0_r in F2.
  split; [lia | exact F2].
Qed.

Lemma max_n_elements_positions_witness :
  let lw := [-3; -6; -1; -5; -2; -4; 0]%float in
  let top_n := fst (Psis.max_n_elements lw 6) in
  let top_n_idx := snd (Psis.max_n_elements lw 6) in
  length top_n = 6 /\ length top_n_idx = 6 /\
  Permutation top_n (firstn 6 lw) /\
  forall k, k < 6 ->
    (0 <= nth k top_n_idx 0 < Z.of_nat 6)%Z /\
    nth (Z.to_nat (nth k top_n_idx 0%Z)) lw (of_Z 0) = nth k top_n (of_Z 0).
Proof.
  apply (max_n_elements_positions [-3; -6; -1; -5; -2; -4; 0]%float 6).
  - lia.
  - simpl. lia.
Defined.

(** X5: in exact arithmetic the values returned by [max_n_elements lw n]
    are in ascending order and their first one, the cutoff of
    [psis_weights], is below every one of the first [n] log-weights;
    the log-weights after the first [n] play no part. *)
Theorem max_n_elements_sorted_head (lw : list R) (n : nat) :
  let top_n := fst (Psis.max_n_elements lw n) in
  (forall i j, i <= j -> j < length top_n ->
               (nth i top_n 0 <= nth j top_n 0)%R) /\
  (forall v, In v (firstn n lw) -> (nth 0 top_n 0 <= v)%R) /\
  Psis.max_n_elements lw n = Psis.max_n_elements (firstn n lw) n.
Proof.
  cbv zeta. split; [|split].
  - unfold Psis.max_n_elements. rewrite (range_nil (Z.of_nat n) (Z.of_nat n)) by lia.
    pose proof (quick_sort_sorted_R (firstn n lw)
                  (Psis.LinSpaced_Index n 0 (Z.of_nat n))) as S.
    cbv zeta in S.
    destruct (Psis.quick_sort (firstn n lw) _) as [top ix].
    cbn [fold_left fst] in *. destruct S as [P S].
    intros i j Hij Hj. apply S; [exact Hij|].
    rewrite <- (Permutation_length P). exact Hj.
  - unfold Psis.max_n_elements. rewrite (range_nil (Z.of_nat n) (Z.of_nat n)) by lia.
    pose proof (quick_sort_sorted_R (firstn n lw)
                  (Psis.LinSpaced_Index n 0 (Z.of_nat n))) as S.
    cbv zeta in S.
    destruct (Psis.quick_sort (firstn n lw) _) as [top ix].
    cbn [fold_left fst] in *. destruct S as [P S].
    intros v Hv.
    apply (Permutation_in _ (Permutation_sym P)) in Hv.
    destruct (In_nth _ _ 0%R Hv) as (k & Hk & E). rewrite <- E.
    apply S; [lia|]. rewrite <- (Permutation_length P). exact Hk.
  - apply max_n_elements_head.
Qed.

(** ** The PSIS weights *)

Section InsertFacts.
Context {D : Type} {A : Arith D}.

Lemma insert_smooth_to_tail_fold (ks : list nat) (idx : list Z)
      (smoothed lw : list D) :
  let lw' :=
    fold_left
      (fun lw i => upd lw (Z.to_nat (nth i idx 0%Z)) (nth i smoothed (of_Z 0)))
      ks lw in
  length lw' = length lw /\
  forall k, (forall i, In i ks -> Z.to_nat (nth i idx 0%Z) <> k) ->
            nth k lw' (of_Z 0) = nth k lw (of_Z 0).
Proof.
  cbv zeta. revert lw. induction ks as [|i ks IH]; intros lw; simpl.
  - split; reflexivity.
  - destruct (IH (upd lw (Z.to_nat (nth i idx 0%Z)) (nth i smoothed (of_Z 0))))
      as [L U].
    split.
    + rewrite L. apply upd_length.
    + intros k Hk. rewrite U by (intros j Hj; apply Hk; right; exact Hj).
      apply upd_nth_other. apply Hk. left. reflexivity.
Qed.

Lemma insert_smooth_to_tail_fold_written (ks : list nat) (idx : list Z)
      (smoothed lw : list D) (i : nat) :
  NoDup (map (fun j => Z.to_nat (nth j idx 0%Z)) ks) ->
  In i ks ->
  Z.to_nat (nth i idx 0%Z) < length lw ->
  nth (Z.to_nat (nth i idx 0%Z))
      (fold_left
         (fun lw i => upd lw (Z.to_nat (nth i idx 0%Z))
                          (nth i smoothed (of_Z 0)))
         ks lw) (of_Z 0)
  = nth i smoothed (of_Z 0).
Proof.
  revert lw. induction ks as [|j ks IH]; intros lw Hnd Hin Hlt;
    [contradiction|].
  simpl. inversion Hnd as [|? ? Hnotin Hnd']; subst.
  destruct Hin as [E|Hin].
  - subst j.
    destruct (insert_smooth_to_tail_fold ks idx smoothed
                (upd lw (Z.to_nat (nth i idx 0%Z)) (nth i smoothed (of_Z 0))))
      as [_ U].
    rewrite U.
    + apply upd_nth_same. exact Hlt.
    + intros j Hj E. apply Hnotin. rewrite <- E.
      apply (in_map (fun j => Z.to_nat (nth j idx 0%Z))). exact Hj.
  - apply IH; [exact Hnd' | exact Hin | rewrite upd_length; exact Hlt].
Qed.

Lemma insert_smooth_to_tail_length (lw : list D) (idx : list Z)
      (smoothed : list D) :
  length (Psis.insert_smooth_to_tail lw idx smoothed) = length lw.
Proof.
  unfold Psis.insert_smooth_to_tail.
  apply (insert_smooth_to_tail_fold (seq 0 (length idx)) idx smoothed lw).
Qed.
End InsertFacts.


(** X6: when [idx] lists distinct positions of [lw],
    [insert_smooth_to_tail] keeps the size of [lw], puts [smoothed[i]] at
    position [idx[i]] and leaves every other coefficient as it was. *)
Theorem insert_smooth_to_tail_writes {D : Type} {A : Arith D}
        (lw : list D) (idx : list Z) (smoothed : list D) :
  NoDup idx ->
  Forall (fun p => (0 <= p < Z.of_nat (length lw))%Z) idx ->
  length idx <= length smoothed ->
  let lw' := Psis.insert_smooth_to_tail lw idx smoothed in
  length lw' = length lw /\
  (forall i, i < length idx ->
     nth (Z.to_nat (nth i idx 0%Z)) lw' (of_Z 0) = nth i smoothed (of_Z 0)) /\
  (forall k, ~ In (Z.of_nat k) idx -> nth k lw' (of_Z 0) = nth k lw (of_Z 0)).
Proof.
  intros Hnd Hrange Hsm. cbv zeta. rewrite Forall_forall in Hrange.
  split; [apply insert_smooth_to_tail_length|]. split.
  - intros i Hi. unfold Psis.insert_smooth_to_tail.
    apply insert_smooth_to_tail_fold_written.
    + apply Injective_map_NoDup_in; [|apply seq_NoDup].
      intros a b Ha Hb E. apply in_seq in Ha, Hb.
      assert (Ea : In (nth a idx 0%Z) idx) by (apply nth_In; lia).
      assert (Eb : In (nth b idx 0%Z) idx) by (apply nth_In; lia).
      apply Hrange in Ea, Eb.
      apply (proj1 (NoDup_nth idx 0%Z) Hnd); lia.
    + apply in_seq. lia.
    + assert (Ei : In (nth i idx 0%Z) idx) by (apply nth_In; lia).
      apply Hrange in Ei. lia.
  - intros k Hk. unfold Psis.insert_smooth_to_tail.
    apply (insert_smooth_to_tail_fold (seq 0 (length idx)) idx smoothed lw).
    intros i Hi E. apply in_seq in Hi.
    assert (Hin : In (nth i idx 0%Z) idx) by (apply nth_In; lia).
    apply Hk. pose proof (Hrange _ Hin).
    replace (Z.of_nat k) with (nth i idx 0%Z) by lia. exact Hin.
Qed.

Lemma insert_smooth_to_tail_writes_witness :
  let lw := [1; 2; 3]%float in
  let idx := [2; 0]%Z in
  let smoothed := [7; 8]%float in
  let lw' := Psis.insert_smooth_to_tail lw idx smoothed in
  length lw' = length lw /\
  (forall i, i < length idx ->
     nth (Z.to_nat (nth i idx 0%Z)) lw' (of_Z 0) = nth i smoothed (of_Z 0)) /\
  (forall k, ~ In (Z.of_nat k) idx -> nth k lw' (of_Z 0) = nth k lw (of_Z 0)).
Proof.
  apply (insert_smooth_to_tail_writes [1; 2; 3]%float [2; 0]%Z [7; 8]%float).
  - repeat constructor; simpl; intuition discriminate.
  - repeat constructor; simpl; lia.
  - simpl. lia.
Defined.

Lemma psis_weights_size {D : Type} {A : Arith D} {M : MathLib D}
      (lw : list D) (tail_len : nat) :
  length (Psis.psis_weights lw tail_len) = length lw.
Proof.
  unfold Psis.psis_weights. rewrite !length_map.
  destruct (Nat.leb 5 tail_len); [|apply length_map].
  match goal with
  | |- context [if ?b then _ else _] => destruct b
  end.
  - apply length_map.
  - rewrite insert_smooth_to_tail_length. apply length_map.
Qed.

Section PsisWeightsFacts.
Open Scope R_scope.

Lemma fold_right_Rplus_scal (c : R) (f : R -> R) (v : list R) :
  fold_right Rplus 0 (map (fun a => c * f a) v)
  = c * fold_right Rplus 0 (map f v).
Proof.
  induction v as [|x v IH]; simpl; [lra | rewrite IH; lra].
Qed.

Lemma fold_right_exp_pos (f : R -> R) (v : list R) :
  v <> [] -> 0 < fold_right Rplus 0 (map (fun a => Rtrigo_def.exp (f a)) v).
Proof.
  destruct v as [|x v]; [congruence | intros _]. simpl.
  assert (0 <= fold_right Rplus 0 (map (fun a => Rtrigo_def.exp (f a)) v)).
  { induction v as [|y v IH]; simpl; [lra|].
    pose proof (exp_pos (f y)). lra. }
  pose proof (exp_pos (f x)). lra.
Qed.

(** [exp (log_sum_exp v)] is the sum of the [exp v_i]. *)
Lemma exp_log_sum_exp (v : list R) :
  v <> [] ->
  Rtrigo_def.exp (R_log_sum_exp v)
  = fold_right Rplus 0 (map Rtrigo_def.exp v).
Proof.
  intros Hv. destruct v as [|x t]; [congruence|].
  unfold R_log_sum_exp. set (m := fold_left Rmax t x).
  set (v := x :: t) in *.
  rewrite exp_plus, exp_ln by (apply (fold_right_exp_pos (fun a => a - m)); exact Hv).
  rewrite <- fold_right_Rplus_scal. f_equal. apply map_ext. intros a.
  rewrite <- exp_plus. f_equal. lra.
Qed.

Lemma softmax_sums_to_one (v : list R) :
  v <> [] ->
  fold_right Rplus 0
    (map (fun l => Rtrigo_def.exp (l - R_log_sum_exp v)) v) = 1.
Proof.
  intros Hv.
  rewrite (map_ext (fun l => Rtrigo_def.exp (l - R_log_sum_exp v))
                   (fun l => / Rtrigo_def.exp (R_log_sum_exp v)
                             * Rtrigo_def.exp l)).
  - rewrite fold_right_Rplus_scal, <- exp_log_sum_exp by exact Hv.
    apply Rinv_l. pose proof (exp_pos (R_log_sum_exp v)). lra.
  - intros a. unfold Rminus. rewrite exp_plus, exp_Ropp. lra.
Qed.

Lemma maxCoeff_upper_bound (l : list R) (a : R) :
  In a l -> a <= maxCoeff l.
Proof.
  destruct l as [|x t]; [contradiction|]. unfold maxCoeff. unfold_R.
  assert (G : forall t m, m <= fold_left (fun m y => if Rltb m y then y else m) t m
                          /\ forall b, In b t ->
                               b <= fold_left (fun m y => if Rltb m y then y else m) t m).
  { clear. induction t as [|y t IH]; intros m; simpl.
    - split; [lra | contradiction].
    - destruct (IH (if Rltb m y then y else m)) as [H1 H2].
      assert (Hm : m <= (if Rltb m y then y else m)
                   /\ y <= (if Rltb m y then y else m)).
      { unfold Rltb. destruct (Rlt_dec m y); lra. }
      split; [lra|]. intros b [E|Hb]; [subst b; lra | apply H2; exact Hb]. }
  intros [E|Ha].
  - subst a. exact (proj1 (G t x)).
  - exact (proj2 (G t x) a Ha).
Qed.
End PsisWeightsFacts.

(** X7: in exact arithmetic, with a tail length below 5, where no tail
    is fitted and nothing is divided, the weights returned by
    [psis_weights] for a non-empty vector of log-ratios are as many as
    the log-ratios, are all positive and add up to one. *)
Theorem psis_weights_normalized (lw : list R) (tail_len : nat) :
  lw <> [] ->
  tail_len < 5 ->
  let w := Psis.psis_weights lw tail_len in
  length w = length lw /\
  Forall (fun x => (0 < x)%R) w /\
  sum w = 1%R.
Proof.
  intros Hlw Htail. cbv zeta.
  split; [apply psis_weights_size|].
  pose proof (psis_weights_size lw tail_len) as Hsize.
  unfold Psis.psis_weights in *. cbv zeta in *.
  destruct (Nat.leb_spec 5 tail_len) as [H5|_]; [lia|].
  match goal with
  | |- context [map (fun l => exp (l - log_sum_exp ?v)%D) ?v] =>
      set (max_adj := v) in *
  end.
  assert (Hne : max_adj <> []).
  { intros E. rewrite E in Hsize. simpl in Hsize.
    destruct lw; [congruence | discriminate]. }
  split.
  - apply Forall_forall. intros x Hx. apply in_map_iff in Hx.
    destruct Hx as (l & E & _). subst x. unfold_R. apply exp_pos.
  - rewrite sum_R. apply softmax_sums_to_one. exact Hne.
Qed.

Lemma psis_weights_normalized_witness :
  let w := Psis.psis_weights [0; 1]%R 2 in
  length w = length [0; 1]%R /\
  Forall (fun x => (0 < x)%R) w /\
  sum w = 1%R.
Proof.
  apply (psis_weights_normalized [0; 1]%R 2); [discriminate | lia].
Defined.

(** X8: in exact arithmetic, with a tail length below 5 [psis_weights]
    does no smoothing and no truncation: the weight of a log-ratio is
    its exponential divided by the sum of the exponentials of all the
    log-ratios. *)
Theorem psis_weights_without_smoothing (lw : list R) (tail_len : nat) :
  tail_len < 5 ->
  forall i, i < length lw ->
    nth i (Psis.psis_weights lw tail_len) 0%R
    = (Rtrigo_def.exp (nth i lw 0)
       / fold_right Rplus 0 (map Rtrigo_def.exp lw))%R.
Proof.
  intros Ht i Hi.
  assert (Hne : lw <> []) by (destruct lw; [simpl in Hi; lia | discriminate]).
  unfold Psis.psis_weights. cbv zeta.
  destruct (Nat.leb_spec 5 tail_len) as [H|_]; [lia|].
  rewrite !map_map.
  assert (E : map (fun x : R =>
                     ((if (of_Z 0 <? (x - maxCoeff lw))%D
                       then of_Z 0 else (x - maxCoeff lw)%D)
                      + maxCoeff lw)%D) lw = lw).
  { transitivity (map (fun x : R => x) lw); [|apply map_id].
    apply map_ext_in. intros a Ha.
    pose proof (maxCoeff_upper_bound lw a Ha) as Hmax. revert Hmax.
    generalize (maxCoeff lw). intros m Hmax. unfold_R.
    unfold Rltb. destruct (Rlt_dec 0 (a - m)); lra. }
  rewrite (map_ext_in
             (fun x : R =>
                exp (((if (of_Z 0 <? (x - maxCoeff lw))%D
                       then of_Z 0 else (x - maxCoeff lw)%D)
                      + maxCoeff lw)
                     - log_sum_exp
                         (map (fun x0 : R =>
                                 ((if (of_Z 0 <? (x0 - maxCoeff lw))%D
                                   then of_Z 0 else (x0 - maxCoeff lw)%D)
                                  + maxCoeff lw)%D) lw))%D)
             (fun x => (Rtrigo_def.exp x
                        / fold_right Rplus 0 (map Rtrigo_def.exp lw))%R)).
  - rewrite (map_nth' _ _ _ 0%R) by exact Hi. reflexivity.
  - intros a Ha. rewrite E.
    pose proof (maxCoeff_upper_bound lw a Ha) as Hmax.
    rewrite <- exp_log_sum_exp by exact Hne. revert Hmax.
    generalize (maxCoeff lw). intros m Hmax. unfold_R.
    replace (if Rltb 0 (a - m) then 0%R else (a - m)%R)
      with (a - m)%R
      by (unfold Rltb; destruct (Rlt_dec 0 (a - m)); lra).
    replace (a - m + m - R_log_sum_exp lw)%R
      with (a + - R_log_sum_exp lw)%R by lra.
    rewrite exp_plus, exp_Ropp. reflexivity.
Qed.

Lemma psis_weights_without_smoothing_witness :
  nth 1 (Psis.psis_weights [0; 1]%R 2) 0%R
  = (Rtrigo_def.exp (nth 1 [0; 1]%R 0)
     / fold_right Rplus 0 (map Rtrigo_def.exp [0; 1]%R))%R.
Proof.
  apply (psis_weights_without_smoothing [0; 1]%R 2); simpl; lia.
Defined.

(** ** The draws of [est_approx_draws] *)

Section EstimationFacts.
Context {D : Type} {A : Arith D} {I : HasInf D}.
Variable rng : Type.
Variable rand_unit_gaus : rng -> D * rng.
Variable lp_fun : list D -> outcome D.

End EstimationFacts.


(** X10: [est_approx_draws] takes exactly [num_params * num_samples]
    variates from the generator, [num_params] being the size of
    [x_center], whether it returns or throws; the generator it leaves
    and the draws it returns are the same for every log-density functor
    and for both values of [ReturnElbo]. *)
Theorem est_approx_draws_generator
        {D : Type} {A : Arith D} {I : HasInf D}
        (rng : Type) (rand_unit_gaus : rng -> D * rng)
        (lp_fun lp_fun' : list D -> outcome D)
        (ReturnElbo ReturnElbo' : bool) (g : rng)
        (taylor_approx : Pathfinder.taylor_approx_t D) (num_samples : nat) :
  let r := Pathfinder.est_approx_draws rand_unit_gaus lp_fun ReturnElbo
                                       g taylor_approx num_samples in
  let r' := Pathfinder.est_approx_draws rand_unit_gaus lp_fun' ReturnElbo'
                                        g taylor_approx num_samples in
  snd r = Nat.iter (length (Pathfinder.x_center taylor_approx) * num_samples)
                   (fun g0 => snd (rand_unit_gaus g0)) g /\
  snd r' = snd r /\
  forall E E', fst r = Ret E -> fst r' = Ret E' ->
    Pathfinder.repeat_draws E' = Pathfinder.repeat_draws E.
Proof.
  cbv zeta.
  pose proof (est_approx_draws_spec rng rand_unit_gaus lp_fun ReturnElbo
                g taylor_approx num_samples) as F.
  pose proof (est_approx_draws_spec rng rand_unit_gaus lp_fun' ReturnElbo'
                g taylor_approx num_samples) as F'.
  cbv zeta in F, F'. destruct F as [F1 F2]. destruct F' as [F1' F2'].
  rewrite F1, F1'. split; [|split; [reflexivity|]].
  - unfold Pathfinder.generate_matrix.
    pose proof (generate_columns_spec rng rand_unit_gaus num_samples
                  (length (Pathfinder.x_center taylor_approx)) g)
      as (_ & _ & G3).
    destruct (Pathfinder.generate_columns rand_unit_gaus num_samples
                (length (Pathfinder.x_center taylor_approx)) g).
    exact G3.
  - intros E E' HE HE'. rewrite HE in F2. rewrite HE' in F2'.
    destruct F2 as [-> _]. destruct F2' as [-> _]. reflexivity.
Qed.

(** ** The driver: what every turn of the loop keeps *)

Section BufferFacts.
Context {X : Type}.

Lemma cb_push_back_length (c : nat) (b : list X) (x : X) :
  length b <= c ->
  length (Pathfinder.cb_push_back c b x) = Nat.min (length b + 1) c.
Proof.
  intros H. unfold Pathfinder.cb_push_back.
  destruct (Nat.eqb_spec c 0) as [E|E]; [lia|].
  destruct (Nat.ltb_spec (length b) c) as [L|L].
  - rewrite length_app. simpl. lia.
  - rewrite length_app. destruct b as [|y b]; cbn [tl length] in *; lia.
Qed.

Lemma cb_push_back_last (c : nat) (b : list X) (x d : X) :
  0 < c -> last (Pathfinder.cb_push_back c b x) d = x.
Proof.
  intros H. unfold Pathfinder.cb_push_back.
  destruct (Nat.eqb_spec c 0) as [E|E]; [lia|].
  destruct (Nat.ltb (length b) c); apply last_last.
Qed.
End BufferFacts.

Section DriverFacts.
Context {D : Type} {A : Arith D} {I : HasInf D} {M : MathLib D}
        {E : EigenLib D}.
Variable rng : Type.
Variable rand_unit_gaus : rng -> D * rng.
Variable lp_fun : list D -> outcome D.
Variable constrain_fun : rng -> list D -> outcome (list D) * rng.
Variable optimizer : Type.
Variable lbfgs_step : optimizer -> Z * optimizer.
Variable curr_x : optimizer -> list D.
Variable curr_g : optimizer -> list D.
Variable iter_num : optimizer -> Z.
Variable grad_evals : optimizer -> nat.
Variable interrupt_t : Type.
Variable interrupt : interrupt_t -> outcome interrupt_t.
Variable history_size : nat.
Variable num_elbo_draws : nat.
Variable num_draws : nat.

Let state := Pathfinder.loop_state D rng optimizer interrupt_t.
Let body :=
  Pathfinder.loop_body rand_unit_gaus lp_fun lbfgs_step curr_x curr_g
                       iter_num interrupt history_size num_elbo_draws.
Let loop :=
  Pathfinder.lbfgs_loop rand_unit_gaus lp_fun lbfgs_step curr_x curr_g
                        iter_num interrupt history_size num_elbo_draws.
Let reaches :=
  Pathfinder.reaches rand_unit_gaus lp_fun lbfgs_step curr_x curr_g
                     iter_num interrupt history_size num_elbo_draws.
Let final_stage :=
  Pathfinder.final_stage (interrupt_t := interrupt_t) rand_unit_gaus lp_fun
                         constrain_fun grad_evals num_draws.

(** The two shapes of a turn that ends normally. *)
Lemma loop_body_cases (n : nat) (st st' : state) :
  body n st = Ret st' ->
  exists ist r lb,
    interrupt (Pathfinder.interrupt_st st) = Ret ist /\
    lbfgs_step (Pathfinder.lbfgs st) = (r, lb) /\
    Pathfinder.ret st' = r /\
    ((r <> (-1)%Z /\
      Pathfinder.update_best rand_unit_gaus lp_fun curr_x curr_g
        iter_num num_elbo_draws n
        (Pathfinder.update_history curr_x curr_g history_size
                                   st lb r ist) = Ret st')
     \/
     (r = (-1)%Z /\
      Pathfinder.param_buff st' = Pathfinder.param_buff st /\
      Pathfinder.grad_buff st' = Pathfinder.grad_buff st /\
      Pathfinder.current_history_size st'
      = Pathfinder.current_history_size st /\
      Pathfinder.alpha_st st' = Pathfinder.alpha_st st /\
      Pathfinder.best_E st' = Pathfinder.best_E st /\
      Pathfinder.elbo_best st' = Pathfinder.elbo_best st /\
      Pathfinder.taylor_approx_best st' = Pathfinder.taylor_approx_best st /\
      Pathfinder.num_evals st' = Pathfinder.num_evals st)).
Proof.
  unfold body, Pathfinder.loop_body. intros H.
  destruct (interrupt (Pathfinder.interrupt_st st)) as [ist|e0];
    [|discriminate].
  simpl in H. destruct (lbfgs_step (Pathfinder.lbfgs st)) as [r lb].
  exists ist, r, lb. split; [reflexivity|]. split; [reflexivity|].
  destruct (Z.eqb_spec r (-1)) as [Er|Er]; simpl in H.
  - injection H as <-. split; [reflexivity|]. right. repeat split. exact Er.
  - destruct (update_best_keeps _ _ _ _ _ _ _ _ _ _ _ _ H) as (_ & Hret & _).
    split; [rewrite Hret; reflexivity|]. left. split; [exact Er | exact H].
Qed.

(** What [update_best] does to the counter of evaluations and to the
    best estimate. *)
Lemma update_best_estimate (n : nat) (st st' : state) :
  Pathfinder.update_best rand_unit_gaus lp_fun curr_x curr_g iter_num
                         num_elbo_draws n st = Ret st' ->
  Pathfinder.num_evals st' = Pathfinder.num_evals st + num_elbo_draws /\
  ((Pathfinder.best_E st' = Pathfinder.best_E st /\
    Pathfinder.elbo_best st' = Pathfinder.elbo_best st)
   \/
   (length (Pathfinder.lp_ratio (Pathfinder.elbo_best st')) = num_elbo_draws /\
    length (columns (Pathfinder.repeat_draws (Pathfinder.elbo_best st')))
    = num_elbo_draws)).
Proof.
  unfold Pathfinder.update_best. cbv zeta.
  match goal with
  | |- context [Pathfinder.pathfinder_impl _ _ ?g ?a ?x ?gr ?Y ?S _] =>
      pose proof (pathfinder_impl_cases rng rand_unit_gaus lp_fun
                    num_elbo_draws g a x gr Y S) as P;
      destruct (Pathfinder.pathfinder_impl rand_unit_gaus lp_fun g a x gr
                                           Y S num_elbo_draws)
        as [[res|e] g']
  end; [|discriminate].
  destruct P as (P1 & P2 & P3).
  intros H. injection H as <-.
  cbn [Pathfinder.num_evals Pathfinder.best_E Pathfinder.elbo_best].
  split; [rewrite P1; reflexivity|].
  match goal with
  | |- context [if ?b then _ else _] => destruct b
  end.
  - right. split; assumption.
  - left. split; reflexivity.
Qed.

(** The history: the counter is the size of both buffers, which never
    hold more than [history_size] pairs. *)
Let history_ok (st : state) : Prop :=
  Pathfinder.current_history_size st = length (Pathfinder.param_buff st) /\
  length (Pathfinder.grad_buff st) = length (Pathfinder.param_buff st) /\
  length (Pathfinder.param_buff st) <= history_size.

Lemma history_ok_turn (n : nat) (st st' : state) :
  body n st = Ret st' -> history_ok st -> history_ok st'.
Proof.
  intros Hb (H1 & H2 & H3).
  destruct (loop_body_cases n st st' Hb)
    as (ist & r & lb & _ & _ & _ & [[_ Hu] | (_ & P & G & C & _)]).
  - destruct (update_best_keeps _ _ _ _ _ _ _ _ _ _ _ _ Hu)
      as (_ & _ & P & G & C & _).
    unfold history_ok. rewrite P, G, C. cbn.
    rewrite !cb_push_back_length by lia. rewrite H1, H2. lia.
  - unfold history_ok. rewrite P, G, C. auto.
Qed.



Lemma reaches_invariant (P : state -> Prop) (n : nat) :
  (forall st st', body n st = Ret st' -> P st -> P st') ->
  forall st st', reaches n st st' -> P st -> P st'.
Proof.
  intros Hturn st st' H. induction H as [st | st st1 st2 _ Hb _ IH].
  - auto.
  - intros HP. apply IH. apply (Hturn st st1 Hb HP).
Qed.



(** X11: in every state the loop of [pathfinder_lbfgs_single] reaches,
    [current_history_size] is the number of differences held by
    [param_buff], [grad_buff] holds as many, and that number never
    exceeds [history_size]. *)
Theorem history_buffers_bounded
        (lbfgs0 : optimizer) (i0 : interrupt_t) (g0 : rng)
        (cont_vector g1 : list D) (st : state) :
  reaches (length cont_vector)
          (Pathfinder.initial_state grad_evals lbfgs0 i0 g0 cont_vector g1)
          st ->
  Pathfinder.current_history_size st = length (Pathfinder.param_buff st) /\
  length (Pathfinder.grad_buff st) = length (Pathfinder.param_buff st) /\
  length (Pathfinder.param_buff st) <= history_size.
Proof.
  intros H.
  apply (reaches_invariant history_ok (length cont_vector)
           (history_ok_turn (length cont_vector)) _ _ H).
  unfold history_ok. simpl. repeat split. lia.
Qed.

(** X12: a turn of the loop that ends normally adds to [num_evals] the
    [num_elbo_draws] log-density evaluations of its ELBO estimate,
    whether or not the log density threw on some draws; a turn in which
    the optimizer answers [-1] adds none. *)
Theorem loop_turn_counts_evaluations (n : nat) (st st' : state) :
  body n st = Ret st' ->
  Pathfinder.num_evals st'
  = Pathfinder.num_evals st
    + (if (Pathfinder.ret st' =? -1)%Z then 0 else num_elbo_draws).
Proof.
  intros Hb.
  destruct (loop_body_cases n st st' Hb)
    as (ist & r & lb & _ & _ & Hr &
        [[Hne Hu] | (-> & _ & _ & _ & _ & _ & _ & _ & N)]).
  - rewrite Hr. destruct (Z.eqb_spec r (-1)) as [e0|_]; [contradiction|].
    destruct (update_best_estimate _ _ _ Hu) as [N _]. exact N.
  - rewrite Hr, N. simpl. lia.
Qed.

(** X13: a [std::exception] thrown by the log density during the ELBO
    estimate of a turn never leaves the turn.  A turn throws what the
    interrupt callback throws; any other exception that leaves a turn
    was thrown by the log density and is not a [std::exception].  (The
    optimizer step returns, as [lbfgs_step] has it.) *)
Theorem loop_turn_contains_std_exceptions (n : nat) (st : state)
        (e : exn) :
  (interrupt (Pathfinder.interrupt_st st) = Throw e ->
   body n st = Throw e) /\
  (body n st = Throw e ->
   interrupt (Pathfinder.interrupt_st st) = Throw e \/
   (is_std_exception e = false /\ exists d, lp_fun d = Throw e)).
Proof.
  unfold body, Pathfinder.loop_body. split.
  - intros ->. reflexivity.
  - destruct (interrupt (Pathfinder.interrupt_st st)) as [ist|e0]; simpl.
    2:{ intros H. injection H as <-. left. reflexivity. }
    destruct (lbfgs_step (Pathfinder.lbfgs st)) as [r lb].
    destruct (negb (r =? -1)%Z); [|discriminate].
    unfold Pathfinder.update_best. cbv zeta.
    match goal with
    | |- context [Pathfinder.pathfinder_impl _ _ ?g ?a ?x ?gr ?Y ?S _] =>
        pose proof (pathfinder_impl_cases rng rand_unit_gaus lp_fun
                      num_elbo_draws g a x gr Y S) as P;
        destruct (Pathfinder.pathfinder_impl rand_unit_gaus lp_fun g a x gr
                                             Y S num_elbo_draws)
          as [[res|e1] g']
    end; [discriminate|].
    intros H. injection H as <-. right. exact P.
Qed.


(** X14: after the loop, the software-error code is returned exactly
    when no iterate was selected ([best_E] still [-1]), and then with an
    empty [lp_ratio], an empty matrix of draws and the evaluations
    counted so far; the code with which the optimizer stopped plays no
    part in it. *)
Theorem software_error_iff_no_best_iterate (names_size : nat) (st : state) :
  (Pathfinder.best_E st = (-1)%Z <->
   final_stage names_size st
   = Ret (SOFTWARE, [], empty_mat,
          Pathfinder.num_evals st + grad_evals (Pathfinder.lbfgs st))) /\
  (forall lp draws evals,
     final_stage names_size st = Ret (SOFTWARE, lp, draws, evals) ->
     Pathfinder.best_E st = (-1)%Z).
Proof.
  assert (G : forall lp draws evals,
             final_stage names_size st = Ret (SOFTWARE, lp, draws, evals) ->
             Pathfinder.best_E st = (-1)%Z).
  { intros lp draws evals. unfold final_stage, Pathfinder.final_stage.
    cbv zeta. cbn [length Nat.eqb andb]. rewrite andb_false_r.
    destruct (Z.eqb_spec (Pathfinder.best_E st) (-1)) as [Eb|Eb];
      [intros _; exact Eb|].
    repeat match goal with
           | |- context [if ?b then _ else _] => destruct b
           | |- context [let (_, _) := ?x in _] => destruct x
           | |- context [match ?x with Ret _ => _ | Throw _ => _ end] =>
               destruct x
           | |- context [match ?x with
                         | std_exception _ => _
                         | other_exception _ => _
                         end] => destruct x
           end; discriminate. }
  split; [|exact G]. split.
  - intros Eb. unfold final_stage, Pathfinder.final_stage.
    cbv zeta. cbn [length Nat.eqb andb]. rewrite andb_false_r.
    rewrite Eb. reflexivity.
  - apply G.
Qed.

End DriverFacts.

(** The theorems on a run in IEEE binary64 of a model without
    parameters whose log density is [0]: the optimizer answers [0] in
    its first step and [1] in its second, one draw serves the ELBO
    estimate and two draws are asked for. *)
Lemma history_buffers_bounded_witness :
  exists st,
    Pathfinder.loop_body
      (M := Example.no_libm) (E := Example.no_eigen)
      Example.zero_gaus Example.lp_zero
      (fun o : nat => ((if Nat.eqb o 0 then 0 else 1)%Z, S o))
      (fun _ : nat => []) (fun _ : nat => [])
      (fun o : nat => Z.of_nat o) Example.interrupt_continue 5 1 0
      (Pathfinder.initial_state (fun o : nat => o) 0 tt tt [] [])
    = Ret st /\
    Pathfinder.current_history_size st = length (Pathfinder.param_buff st) /\
    length (Pathfinder.grad_buff st) = length (Pathfinder.param_buff st) /\
    length (Pathfinder.param_buff st) <= 5.
Proof.
  eexists. split; [vm_compute; reflexivity|].
  apply (history_buffers_bounded
           (M := Example.no_libm) (E := Example.no_eigen)
           unit Example.zero_gaus Example.lp_zero
           nat (fun o : nat => ((if Nat.eqb o 0 then 0 else 1)%Z, S o))
           (fun _ : nat => []) (fun _ : nat => [])
           (fun o : nat => Z.of_nat o) (fun o : nat => o)
           unit Example.interrupt_continue 5 1
           0 tt tt [] []).
  eapply Pathfinder.reaches_turn;
    [reflexivity | vm_compute; reflexivity | apply Pathfinder.reaches_here].
Defined.

Lemma loop_turn_counts_evaluations_witness :
  exists st,
    Pathfinder.loop_body
      (M := Example.no_libm) (E := Example.no_eigen)
      Example.zero_gaus Example.lp_zero
      (fun o : nat => ((if Nat.eqb o 0 then 0 else 1)%Z, S o))
      (fun _ : nat => []) (fun _ : nat => [])
      (fun o : nat => Z.of_nat o) Example.interrupt_continue 5 1 0
      (Pathfinder.initial_state (fun o : nat => o) 0 tt tt [] [])
    = Ret st /\
    Pathfinder.num_evals st
    = Pathfinder.num_evals
        (Pathfinder.initial_state (I := float_HasInf) (fun o : nat => o)
                                  0 tt tt [] [])
      + (if (Pathfinder.ret st =? -1)%Z then 0 else 1).
Proof.
  eexists. split; [vm_compute; reflexivity|].
  apply (loop_turn_counts_evaluations
           (M := Example.no_libm) (E := Example.no_eigen)
           unit Example.zero_gaus Example.lp_zero
           nat (fun o : nat => ((if Nat.eqb o 0 then 0 else 1)%Z, S o))
           (fun _ : nat => []) (fun _ : nat => [])
           (fun o : nat => Z.of_nat o)
           unit Example.interrupt_continue 5 1 0).
  vm_compute. reflexivity.
Defined.


(** ** The tail fit and the binary search of psis.hpp *)

(** X17: [psis_smooth_tail] returns as many values as the tail it is
    given, for every scalar type and whatever the fit answers; this is
    what lets [insert_smooth_to_tail] write one value per tail
    position. *)
Theorem psis_smooth_tail_size {D : Type} {A : Arith D} {M : MathLib D}
        (x : list D) (cutoff : D) :
  length (fst (Psis.psis_smooth_tail x cutoff)) = length x.
Proof.
  unfold Psis.psis_smooth_tail. cbv zeta.
  match goal with
  | |- context [if ?b then _ else _] => destruct b
  end; cbn [fst]; [reflexivity|].
  unfold Psis.qgpd, Psis.LinSpaced. cbv zeta.
  rewrite !length_map, length_seq. reflexivity.
Qed.

Section QuantileFacts.
Open Scope R_scope.

(** One coefficient of [qgpd], in exact arithmetic. *)
Let quantile (k sigma p : R) : R :=
  sigma * (Rtrigo_def.exp (- k * ln (1 + - p)) - 1) / k.

Lemma qgpd_nth (ps : list R) (k sigma : R) (i : nat) :
  (i < length ps)%nat ->
  nth i (Psis.qgpd ps k sigma) 0 = quantile k sigma (nth i ps 0).
Proof.
  intros Hi. unfold Psis.qgpd. rewrite (map_nth' _ _ _ 0) by exact Hi.
  reflexivity.
Qed.

Lemma quantile_monotone (k sigma p p' : R) :
  0 <= sigma -> k <> 0 -> 0 <= p -> p <= p' -> p' < 1 ->
  0 <= quantile k sigma p <= quantile k sigma p'.
Proof.
  intros Hs Hk Hp Hpp Hp'. unfold quantile.
  assert (L0 : ln (1 + - p) <= 0).
  { rewrite <- ln_1. destruct (Req_dec p 0) as [->|Hne].
    - replace (1 + - 0) with 1 by lra. lra.
    - apply Rlt_le, ln_increasing; lra. }
  assert (L1 : ln (1 + - p') <= ln (1 + - p)).
  { destruct (Req_dec p p') as [->|Hne]; [lra|].
    apply Rlt_le, ln_increasing; lra. }
  assert (Emono : forall a b, a <= b -> Rtrigo_def.exp a <= Rtrigo_def.exp b).
  { intros a b [Hab| ->]; [apply Rlt_le, exp_increasing; exact Hab | lra]. }
  destruct (Rtotal_order k 0) as [Hneg|[Hz|Hposk]]; [|contradiction|].
  - (* k < 0: both exponentials are at most 1, and decrease with p *)
    assert (E0 : Rtrigo_def.exp (- k * ln (1 + - p)) <= 1).
    { pose proof (Emono (- k * ln (1 + - p)) 0 ltac:(nra)) as E0.
      rewrite exp_0 in E0. exact E0. }
    assert (E1 : Rtrigo_def.exp (- k * ln (1 + - p'))
                 <= Rtrigo_def.exp (- k * ln (1 + - p))).
    { apply Emono. nra. }
    assert (Hik : / k < 0) by (apply Rinv_lt_0_compat; exact Hneg).
    assert (A1 : sigma * (Rtrigo_def.exp (- k * ln (1 + - p)) - 1) <= 0)
      by nra.
    assert (A2 : sigma * (Rtrigo_def.exp (- k * ln (1 + - p')) - 1)
                 <= sigma * (Rtrigo_def.exp (- k * ln (1 + - p)) - 1))
      by nra.
    unfold Rdiv. split; nra.
  - assert (E0 : 1 <= Rtrigo_def.exp (- k * ln (1 + - p))).
    { pose proof (Emono 0 (- k * ln (1 + - p)) ltac:(nra)) as E0.
      rewrite exp_0 in E0. exact E0. }
    assert (E1 : Rtrigo_def.exp (- k * ln (1 + - p))
                 <= Rtrigo_def.exp (- k * ln (1 + - p'))).
    { apply Emono. nra. }
    assert (Hik : 0 < / k) by (apply Rinv_0_lt_compat; exact Hposk).
    assert (A1 : 0 <= sigma * (Rtrigo_def.exp (- k * ln (1 + - p)) - 1))
      by nra.
    assert (A2 : sigma * (Rtrigo_def.exp (- k * ln (1 + - p)) - 1)
                 <= sigma * (Rtrigo_def.exp (- k * ln (1 + - p')) - 1))
      by nra.
    unfold Rdiv. split; nra.
Qed.
End QuantileFacts.

(** X18: in exact arithmetic, for a scale [sigma >= 0], a shape
    [k <> 0] and probabilities in [[0, 1)] given in ascending order,
    the quantiles [qgpd] returns are non-negative and in ascending
    order. *)
Theorem qgpd_nonnegative_ascending (ps : list R) (k sigma : R) :
  (0 <= sigma)%R -> k <> 0%R ->
  Forall (fun p => (0 <= p < 1)%R) ps ->
  (forall i j, i <= j -> j < length ps -> (nth i ps 0 <= nth j ps 0)%R) ->
  forall i j, i <= j -> j < length ps ->
    (0 <= nth i (Psis.qgpd ps k sigma) 0 <= nth j (Psis.qgpd ps k sigma) 0)%R.
Proof.
  intros Hs Hk Hps Hasc i j Hij Hj.
  rewrite !qgpd_nth by lia.
  rewrite Forall_forall in Hps.
  assert (Hi : (0 <= nth i ps 0 < 1)%R) by (apply Hps, nth_In; lia).
  assert (Hj' : (0 <= nth j ps 0 < 1)%R) by (apply Hps, nth_In; lia).
  apply quantile_monotone; try lra; try assumption.
  apply Hasc; assumption.
Qed.

Lemma qgpd_nonnegative_ascending_witness :
  (0 <= nth 0 (Psis.qgpd [1 / 4; 3 / 4]%R 1 1) 0
   <= nth 1 (Psis.qgpd [1 / 4; 3 / 4]%R 1 1) 0)%R.
Proof.
  apply (qgpd_nonnegative_ascending [1 / 4; 3 / 4]%R 1 1); simpl;
    try lia; try lra.
  - repeat constructor; lra.
  - intros [|[|i]] [|[|j]] Hij Hj; simpl in *; try lia; lra.
Defined.

Section InsertionStart.
Context {D : Type} {A : Arith D}.

(** One turn of the [while] loop of [max_n_insertion_start]. *)
Let turn (top_n : list D) (value : D) (st : Z * Z) (_ : nat) : Z * Z :=
  let '(low_idx, high_idx) := st in
  if (1 <? high_idx - low_idx)%Z then
    let probe_idx := Z.quot (low_idx + high_idx) 2 in
    let curr_val := Psis.at_ (of_Z 0) top_n probe_idx in
    if (value <? curr_val)%D then (low_idx, probe_idx)
    else (probe_idx, high_idx)
  else st.

(** What the loop keeps between the two bounds of the search. *)
Let bracket (top_n : list D) (value : D) (m : Z) (st : Z * Z) : Prop :=
  let '(low, high) := st in
  (-1 <= low)%Z /\ (low < high)%Z /\ (high <= Z.of_nat (length top_n))%Z /\
  (high - low <= Z.max 1 m)%Z /\
  (low = (-1)%Z \/ (value <? Psis.at_ (of_Z 0) top_n low)%D = false) /\
  (high = Z.of_nat (length top_n)
   \/ (value <? Psis.at_ (of_Z 0) top_n high)%D = true).

Lemma turn_bracket (top_n : list D) (value : D) (m : Z) (st : Z * Z)
      (i : nat) :
  bracket top_n value (m + 1) st ->
  bracket top_n value m (turn top_n value st i).
Proof.
  destruct st as [low high]. unfold bracket, turn.
  intros (H1 & H2 & H3 & H4 & H5 & H6).
  destruct (Z.ltb_spec 1 (high - low)) as [Hgt|Hle].
  - assert (Hq : (low < Z.quot (low + high) 2 < high)%Z).
    { pose proof (Z.quot_pos (low + high) 2 ltac:(lia) ltac:(lia)).
      rewrite Z.quot_div_nonneg by lia.
      pose proof (Z.div_mod (low + high) 2 ltac:(lia)).
      pose proof (Z.mod_pos_bound (low + high) 2 ltac:(lia)). lia. }
    destruct (value <? Psis.at_ (of_Z 0) top_n (Z.quot (low + high) 2))%D
      eqn:Hc.
    + repeat split; try lia; auto.
    + repeat split; try lia; auto.
  - repeat split; try lia; auto.
Qed.

Lemma turns_bracket (top_n : list D) (value : D) (ks : list nat) :
  forall (m : Z) (st : Z * Z),
    bracket top_n value (m + Z.of_nat (length ks)) st ->
    bracket top_n value m (fold_left (turn top_n value) ks st).
Proof.
  induction ks as [|k ks IH]; intros m st H; cbn [fold_left length] in *.
  - replace (m + Z.of_nat 0)%Z with m in H by lia. exact H.
  - apply IH. apply turn_bracket.
    replace (m + Z.of_nat (length ks) + 1)%Z
      with (m + Z.of_nat (S (length ks)))%Z by lia.
    exact H.
Qed.

(** X19: the binary search [max_n_insertion_start] ends within the
    turns the size of [top_n] allows and returns a position [r] with
    [-1 <= r < size] such that [top_n[r]], when [r] is not [-1], is not
    greater than [value], and [top_n[r + 1]], when [r] is not the last
    position, is greater than [value]; this holds for every scalar type
    and without any assumption on the order of [top_n]. *)
Theorem max_n_insertion_start_brackets (top_n : list D) (value : D) :
  let r := Psis.max_n_insertion_start top_n value in
  (-1 <= r < Z.of_nat (length top_n))%Z /\
  (r = (-1)%Z \/ (value <? Psis.at_ (of_Z 0) top_n r)%D = false) /\
  (r = (Z.of_nat (length top_n) - 1)%Z
   \/ (value <? Psis.at_ (of_Z 0) top_n (r + 1))%D = true).
Proof.
  cbv zeta. unfold Psis.max_n_insertion_start. cbv zeta.
  pose proof (turns_bracket top_n value (seq 0 (S (length top_n))) 0
                ((-1)%Z, Z.of_nat (length top_n))) as B.
  fold (turn top_n value).
  destruct (fold_left (turn top_n value) (seq 0 (S (length top_n)))
                      ((-1)%Z, Z.of_nat (length top_n))) as [low high].
  unfold bracket in B. rewrite length_seq in B.
  destruct B as (H1 & H2 & H3 & H4 & H5 & H6).
  { repeat split; try lia; auto. }
  assert (Eh : high = (low + 1)%Z) by lia. subst high.
  destruct (Z.eqb_spec (low + 1) (Z.of_nat (length top_n))) as [Et|Et].
  - replace (Z.of_nat (length top_n) - 1)%Z with low by lia.
    repeat split; try lia; auto.
  - replace (low + 1 - 1)%Z with low by lia.
    repeat split; try lia; auto.
    destruct H6 as [H6|H6]; [contradiction | right; exact H6].
Qed.
End InsertionStart.

(** ** The sparse draws of the two revisions *)

Section MatrixFacts.
Context {D : Type} {A : Arith D}.

Lemma coeff_mat_init (r c : nat) (f : nat -> nat -> D) (i j : nat) :
  i < r -> j < c -> coeff (mat_init r c f) i j = f i j.
Proof.
  intros Hi Hj. unfold coeff, mat_init. cbn [columns].
  rewrite (map_nth' _ _ _ 0) by (rewrite length_seq; exact Hj).
  rewrite (map_nth' _ _ _ 0) by (rewrite length_seq; exact Hi).
  rewrite !seq_nth by assumption. reflexivity.
Qed.

Lemma mat_init_ext (r c : nat) (f g : nat -> nat -> D) :
  (forall i j, i < r -> j < c -> f i j = g i j) ->
  mat_init r c f = mat_init r c g.
Proof.
  intros H. unfold mat_init. f_equal.
  apply map_ext_in. intros j Hj. apply map_ext_in. intros i Hi.
  apply in_seq in Hi, Hj. apply H; lia.
Qed.
End MatrixFacts.

Section SparseDraws.
Open Scope R_scope.

Lemma big_sum_plus (n : nat) (f g : nat -> R) :
  big_sum n (fun k => f k + g k) = big_sum n f + big_sum n g.
Proof.
  revert f g; induction n as [|n IH]; intros f g.
  - unfold big_sum. simpl. lra.
  - rewrite !big_sum_S, IH. lra.
Qed.

Lemma big_sum_scal (n : nat) (c : R) (f : nat -> R) :
  big_sum n (fun k => c * f k) = c * big_sum n f.
Proof.
  revert f; induction n as [|n IH]; intros f.
  - unfold big_sum. simpl. lra.
  - rewrite !big_sum_S, IH. lra.
Qed.

Lemma big_sum_zero (n : nat) : big_sum n (fun _ => 0) = 0.
Proof.
  induction n as [|n IH]; [reflexivity|]. rewrite big_sum_S, IH. lra.
Qed.

Lemma big_sum_exchange (n m : nat) (f : nat -> nat -> R) :
  big_sum n (fun k => big_sum m (fun l => f k l))
  = big_sum m (fun l => big_sum n (fun k => f k l)).
Proof.
  revert f; induction n as [|n IH]; intros f.
  - unfold big_sum at 1 3. simpl. symmetry. apply big_sum_zero.
  - rewrite big_sum_S, IH, <- big_sum_plus.
    apply big_sum_ext. intros l _. rewrite big_sum_S. reflexivity.
Qed.

Lemma big_sum_delta (m k : nat) (q : nat -> R) :
  (k < m)%nat ->
  big_sum m (fun l => q l * (if Nat.eqb l k then 1 else 0)) = q k.
Proof.
  intros Hk. rewrite (big_sum_split m _ k Hk). rewrite Nat.eqb_refl.
  rewrite (big_sum_ext m _ (fun _ => 0)).
  - rewrite big_sum_zero. lra.
  - intros j _. destruct (Nat.eqb j k); lra.
Qed.

Lemma coeff_mat_mul (M N : Mat R) (i j : nat) :
  (i < rows M)%nat -> (j < cols N)%nat ->
  coeff (mat_mul M N) i j
  = big_sum (cols M) (fun k => coeff M i k * coeff N k j).
Proof.
  intros Hi Hj. unfold mat_mul. rewrite coeff_mat_init by assumption.
  rewrite sum_R. reflexivity.
Qed.

(** The sparse branches on one coefficient: with [q] the row of [Qk],
    [v] the column of [Qk^T u] and [l] the factor,
    [q (l - 1) v = q l v - q v]. *)
Lemma sparse_coefficient (m : nat) (q v : nat -> R) (l : nat -> nat -> R) :
  big_sum m (fun k =>
    big_sum m (fun h => q h * (l h k - (if Nat.eqb h k then 1 else 0)))
    * v k)
  = big_sum m (fun h => q h * big_sum m (fun k => l h k * v k))
    - big_sum m (fun k => q k * v k).
Proof.
  rewrite (big_sum_ext m _
             (fun k => big_sum m (fun h => q h * l h k * v k)
                       + - (q k * v k))).
  - rewrite big_sum_plus, big_sum_exchange.
    rewrite (big_sum_ext m (fun k => - (q k * v k))
                         (fun k => -1 * (q k * v k)))
      by (intros; lra).
    rewrite big_sum_scal.
    rewrite (big_sum_ext m
               (fun h => big_sum m (fun k => q h * l h k * v k))
               (fun h => q h * big_sum m (fun k => l h k * v k))).
    + lra.
    + intros h _. rewrite <- big_sum_scal. apply big_sum_ext.
      intros k _. lra.
  - intros k Hk.
    rewrite (big_sum_ext m
               (fun h => q h * (l h k - (if Nat.eqb h k then 1 else 0)))
               (fun h => q h * l h k
                         + -1 * (q h * (if Nat.eqb h k then 1 else 0))))
      by (intros; lra).
    rewrite big_sum_plus, big_sum_scal, big_sum_delta by exact Hk.
    rewrite Rmult_plus_distr_r. f_equal; [|lra].
    rewrite Rmult_comm, <- big_sum_scal.
    apply big_sum_ext. intros h _. lra.
Qed.
End SparseDraws.

(** X20: in exact arithmetic and on matching dimensions, the sparse
    branch of [approximate_samples] on a factor [L] computes the draws
    that the sparse branch of the earlier [get_rnorm_and_draws]
    computes on the transposed factor: the two revisions differ by the
    transposition of [L_approx] and by nothing else. *)
Theorem sparse_draws_agree_up_to_transpose
        (u Q L : Mat R) (x a : list R) (ld ld' : R) :
  rows L = cols Q -> cols L = cols Q -> rows u = rows Q ->
  Pathfinder.approximate_samples u
    {| Pathfinder.x_center := x; Pathfinder.logdetcholHk := ld;
       Pathfinder.L_approx := L; Pathfinder.Qk := Q;
       Pathfinder.alpha := a; Pathfinder.use_full := false |}
  = Optimize.get_rnorm_and_draws u
      {| Optimize.x_center := x; Optimize.logdetcholHk := ld';
         Optimize.L_approx := transpose L; Optimize.Qk := Q;
         Optimize.use_full := false |} a.
Proof.
  intros HrL HcL Hru.
  unfold Pathfinder.approximate_samples, Optimize.get_rnorm_and_draws.
  cbn [Pathfinder.use_full Pathfinder.x_center Pathfinder.L_approx
       Pathfinder.Qk Pathfinder.alpha Optimize.use_full Optimize.x_center
       Optimize.L_approx Optimize.Qk].
  cbv zeta. f_equal. f_equal.
  set (V := mat_mul (transpose Q) u).
  set (LI := mat_sub L (Identity (rows L) (cols L))).
  set (W := Optimize.crossprod (transpose L) V).
  change (mat_add (mat_mul (mat_mul Q LI) V) u)
    with (mat_init (rows Q) (cols u)
            (fun i j => (coeff (mat_mul (mat_mul Q LI) V) i j
                         + coeff u i j)%R)).
  change (mat_add (mat_mul Q W) (mat_sub u (mat_mul Q V)))
    with (mat_init (rows Q) (cols u)
            (fun i j => (coeff (mat_mul Q W) i j
                         + coeff (mat_sub u (mat_mul Q V)) i j)%R)).
  apply mat_init_ext. intros i j Hi Hj.
  assert (EB : coeff (mat_sub u (mat_mul Q V)) i j
               = (coeff u i j
                  - big_sum (cols Q)
                      (fun k => coeff Q i k * coeff V k j))%R).
  { unfold mat_sub, mat_map2. rewrite coeff_mat_init by lia.
    rewrite coeff_mat_mul;
      [| exact Hi | change (j < cols u)%nat; exact Hj].
    reflexivity. }
  assert (EA : coeff (mat_mul Q W) i j
               = big_sum (cols Q)
                   (fun h => (coeff Q i h
                              * big_sum (cols Q)
                                  (fun k => coeff L h k * coeff V k j))%R)).
  { rewrite coeff_mat_mul;
      [| exact Hi | change (j < cols u)%nat; exact Hj].
    apply big_sum_ext. intros h Hh. f_equal.
    unfold W, Optimize.crossprod.
    rewrite coeff_mat_mul;
      [| change (h < rows L)%nat; lia | change (j < cols u)%nat; exact Hj].
    change (cols (transpose (transpose L))) with (cols L). rewrite HcL.
    apply big_sum_ext. intros k Hk. f_equal.
    unfold transpose at 1.
    rewrite coeff_mat_init;
      [| change (h < rows L)%nat; lia | change (k < cols L)%nat; lia].
    unfold transpose. rewrite coeff_mat_init by lia. reflexivity. }
  assert (EP : coeff (mat_mul (mat_mul Q LI) V) i j
               = big_sum (cols Q)
                   (fun k =>
                      (big_sum (cols Q)
                         (fun h => coeff Q i h
                                   * (coeff L h k
                                      - (if Nat.eqb h k then 1 else 0)))
                       * coeff V k j)%R)).
  { rewrite coeff_mat_mul;
      [| exact Hi | change (j < cols u)%nat; exact Hj].
    change (cols (mat_mul Q LI)) with (cols L). rewrite HcL.
    apply big_sum_ext. intros k Hk. f_equal.
    rewrite coeff_mat_mul; [| exact Hi | change (k < cols L)%nat; lia].
    apply big_sum_ext. intros h Hh. f_equal.
    unfold LI, mat_sub, mat_map2. rewrite coeff_mat_init by lia.
    unfold Identity. rewrite coeff_mat_init by lia. reflexivity. }
  rewrite EP, EA, EB.
  rewrite (sparse_coefficient (cols Q) (fun h => coeff Q i h)
             (fun k => coeff V k j) (fun h k => coeff L h k)).
  lra.
Qed.

Lemma sparse_draws_agree_up_to_transpose_witness :
  Pathfinder.approximate_samples (mkMat 2 1 [[1; 0]]%R)
    {| Pathfinder.x_center := [0; 0]%R; Pathfinder.logdetcholHk := 0%R;
       Pathfinder.L_approx := mkMat 1 1 [[2%R]];
       Pathfinder.Qk := mkMat 2 1 [[1; 0]]%R;
       Pathfinder.alpha := [1; 1]%R; Pathfinder.use_full := false |}
  = Optimize.get_rnorm_and_draws (mkMat 2 1 [[1; 0]]%R)
      {| Optimize.x_center := [0; 0]%R; Optimize.logdetcholHk := 0%R;
         Optimize.L_approx := transpose (mkMat 1 1 [[2%R]]);
         Optimize.Qk := mkMat 2 1 [[1; 0]]%R;
         Optimize.use_full := false |} [1; 1]%R.
Proof.
  apply (sparse_draws_agree_up_to_transpose
           (mkMat 2 1 [[1; 0]]%R) (mkMat 2 1 [[1; 0]]%R)
           (mkMat 1 1 [[2%R]]) [0; 0]%R [1; 1]%R 0%R 0%R);
    reflexivity.
Defined.

(** ** The centre of the Taylor approximation *)

Section TaylorFacts.
Context {D : Type} {A : Arith D} {M : MathLib D} {E : EigenLib D}.

Lemma map2_size {X Y Z : Type} (f : X -> Y -> Z) (a : list X)
      (b : list Y) (d : nat) :
  length a = d -> length b = d -> length (map2 f a b) = d.
Proof. intros Ha Hb. rewrite map2_length, Ha, Hb. apply Nat.min_id. Qed.

Lemma mat_vec_size (N : Mat D) (v : list D) :
  length (mat_vec N v) = rows N.
Proof. unfold mat_vec. rewrite length_map, length_seq. reflexivity. Qed.

(** X21: on a history matrix with one row per parameter, [ninvRST] with
    one column per parameter and [alpha], the point and its gradient of
    that size, [taylor_approximation] returns in both of its branches
    a centre with one coordinate per parameter and the [alpha] it was
    given, whatever the factorisations return. *)
Theorem taylor_approximation_center_size
        (Ykt_mat : Mat D) (alpha Dk : list D) (ninvRST : Mat D)
        (point_est grad_est : list D) (d : nat) :
  rows Ykt_mat = d -> cols ninvRST = d -> length alpha = d ->
  length point_est = d -> length grad_est = d ->
  let t := Pathfinder.taylor_approximation Ykt_mat alpha Dk ninvRST
                                           point_est grad_est in
  length (Pathfinder.x_center t) = d /\ Pathfinder.alpha t = alpha.
Proof.
  intros HY HN Ha Hp Hg. cbv zeta. unfold Pathfinder.taylor_approximation.
  destruct (Nat.leb (rows Ykt_mat) (2 * cols Ykt_mat)).
  - unfold Pathfinder.taylor_approximation_full. cbv zeta.
    cbn [Pathfinder.x_center Pathfinder.alpha]. split; [|reflexivity].
    unfold vsub. apply map2_size; [exact Hp|].
    rewrite mat_vec_size. cbn [add_diag mat_add mat_map2 mat_mul transpose
                               mul_diag mat_init rows cols].
    rewrite Ha. reflexivity.
  - unfold Pathfinder.taylor_approximation_sparse. cbv zeta.
    cbn [Pathfinder.x_center Pathfinder.alpha]. split; [|reflexivity].
    unfold vsub, vadd, vmul.
    repeat (apply map2_size; try assumption);
      rewrite mat_vec_size; cbn [transpose mat_init rows cols]; assumption.
Qed.
End TaylorFacts.

Lemma taylor_approximation_center_size_witness :
  let t := Pathfinder.taylor_approximation
             (M := Example.no_libm) (E := Example.no_eigen)
             (mkMat 3 1 [[1; 0; 0]]%float) [1; 1; 1]%float [1]%float
             (mkMat 1 3 [[1]; [0]; [0]]%float)
             [0; 0; 0]%float [1; 1; 1]%float in
  length (Pathfinder.x_center t) = 3 /\
  Pathfinder.alpha t = [1; 1; 1]%float.
Proof.
  apply (taylor_approximation_center_size
           (M := Example.no_libm) (E := Example.no_eigen)
           (mkMat 3 1 [[1; 0; 0]]%float) [1; 1; 1]%float [1]%float
           (mkMat 1 3 [[1]; [0]; [0]]%float)
           [0; 0; 0]%float [1; 1; 1]%float 3); reflexivity.
Defined.
